(** * Verification of the text-to-speech chunker and of the scripts' start-up

    The development embeds [split_text] and [main] of
    [text_to_speech_file.py], and the [main] function of the seven other
    command-line scripts, and proves the properties the specification
    states about them. *)

From Stdlib Require Import ZArith NArith Ascii String Floats.
From Stdlib.Strings Require Import Byte.
From stdpp Require Import base list strings gmap.

Local Open Scope Z_scope.

(** ** Python strings

    A Python [str] is a sequence of Unicode code points; [len] counts code
    points. *)

Module Py.

Definition char := N.
Definition str := list char.

(** A literal of the source, read as the code points of its bytes (the
    literals used with it below are ASCII). *)
Fixpoint of_string (s : string) : str :=
  match s with
  | EmptyString => []
  | String a s' => N_of_ascii a :: of_string s'
  end.

Definition LF : char := 10%N.
Definition SPACE : char := 32%N.
Definition DOT : char := 46%N.

Definition len (s : str) : Z := Z.of_nat (length s).

(** Truth value of a string: [if s:] holds of the non-empty ones. *)
Definition truthy (s : str) : bool :=
  match s with [] => false | _ :: _ => true end.

(** [str.isspace] on one code point, the set [str.strip()] removes:
    the characters CPython's [_PyUnicode_IsWhitespace] accepts. *)
Definition isspace (c : char) : bool :=
  ((9 <=? c) && (c <=? 13) || (28 <=? c) && (c <=? 32)
   || (c =? 133) || (c =? 160) || (c =? 5760)
   || (8192 <=? c) && (c <=? 8202)
   || (c =? 8232) || (c =? 8233) || (c =? 8239) || (c =? 8287)
   || (c =? 12288))%N.

Fixpoint lstrip (s : str) : str :=
  match s with
  | [] => []
  | c :: s' => if isspace c then lstrip s' else s
  end.

Fixpoint rstrip (s : str) : str :=
  match s with
  | [] => []
  | c :: s' =>
      match rstrip s' with
      | [] => if isspace c then [] else [c]
      | r => c :: r
      end
  end.

(** [s.strip()]: whitespace removed at both ends. *)
Definition strip (s : str) : str := rstrip (lstrip s).

(** [s.endswith('.')] *)
Definition endswith_dot (s : str) : bool :=
  match last s with
  | Some c => (c =? DOT)%N
  | None => false
  end.

(** [s.replace(old, new)] for one-character [old] and [new]. *)
Definition replace (old new : char) (s : str) : str :=
  map (fun c => if (c =? old)%N then new else c) s.

(** Prepends a character to the first piece of a split. *)
Definition cons_head (c : char) (pieces : list str) : list str :=
  match pieces with
  | [] => [[c]]
  | p :: ps => (c :: p) :: ps
  end.

(** [s.split(sep)] for a two-character separator [c1 c2]: the pieces
    between the occurrences of the separator, found from the left and not
    overlapping; always at least one piece. *)
Fixpoint split2 (c1 c2 : char) (s : str) : list str :=
  match s with
  | [] => [[]]
  | x :: s' =>
      match s' with
      | y :: s'' =>
          if ((x =? c1) && (y =? c2))%N
          then [] :: split2 c1 c2 s''
          else cons_head x (split2 c1 c2 s')
      | [] => [[x]]
      end
  end.

(** [sep.join(pieces)] for a separator given as a string. *)
Fixpoint join (sep : str) (pieces : list str) : str :=
  match pieces with
  | [] => []
  | [p] => p
  | p :: ps => p ++ sep ++ join sep ps
  end.

(** The lines of a text, cut at the newlines. *)
Fixpoint lines (s : str) : list str :=
  match s with
  | [] => [[]]
  | c :: s' => if (c =? LF)%N then [] :: lines s' else cons_head c (lines s')
  end.

(** [l.index(x)], when [x in l]. *)
Fixpoint index_of (x : str) (l : list str) : option nat :=
  match l with
  | [] => None
  | y :: l' => if bool_decide (x = y) then Some O else S <$> index_of x l'
  end.

(** [s.startswith(prefix)] and [s.endswith(suffix)] *)
Fixpoint startswith (s prefix : str) : bool :=
  match prefix, s with
  | [], _ => true
  | p :: prefix', c :: s' => (c =? p)%N && startswith s' prefix'
  | _ :: _, [] => false
  end.

Definition endswith (s suffix : str) : bool :=
  startswith (rev s) (rev suffix).

End Py.

Import Py.

(** ** The process and its environment

    A script runs against a world: the environment variables, the command
    line, the file system and the remote service.  Every action of the
    process on that world is appended to a trace. *)

Module Sys.

Definition bytes := list byte.

(** The exceptions the scripts tell apart, by the [except] clause that
    matches them; [OtherException] is any other subclass of [Exception]. *)
Inductive exn :=
| RateLimitError (msg : str)
| AuthenticationError (msg : str)
| APIError (msg : str)
| FileNotFoundError (msg : str)
| PermissionError (msg : str)
| OtherException (msg : str).

(** Objects the client library returns. *)
Record job := {
  job_id : str; job_model : str; job_status : str; job_created_at : Z;
  job_finished_at : option Z; job_fine_tuned_model : option str;
  job_training_file : str; job_n_epochs : option str;
  job_trained_tokens : option Z; job_error : option str }.

Record job_event := { event_created_at : Z; event_message : str }.

Record file_object := { file_id : str; file_filename : str; file_status : str }.

Record chat_completion := {
  choices : list str;  (* message.content of each choice *)
  chat_total_tokens : Z }.

Record embeddings := {
  emb_data : list (list float);
  emb_prompt_tokens : Z; emb_total_tokens : Z }.

(** The documents [json.dump] writes. *)
#[local] Unset Elimination Schemes.
Inductive json :=
| JString (s : str)
| JInt (z : Z)
| JFloat (x : float)
| JArray (items : list json)
| JObject (fields : list (string * json)).
#[local] Set Elimination Schemes.

(** The functions of [numpy] the scripts use, on vectors of floats;
    [None] where [numpy] raises [ValueError]. *)
Record numpy := {
  np_dot : list float -> list float -> option float;
  np_norm : list float -> float;
  np_mean : list float -> float;
  np_std : list float -> float;
  np_min : list float -> option float;
  np_max : list float -> option float }.

(** A request to the service, indexed by the type of its response. *)
Inductive request : Type -> Type :=
| AudioSpeechCreate (model voice input : str) : request bytes
| ChatCompletionsCreate (model system user : str) (max_tokens : Z)
    (temperature : float) : request chat_completion
| EmbeddingsCreate (model : str) (input : str + list str) : request embeddings
| FilesCreate (file : bytes) (purpose : str) : request file_object
| FilesRetrieve (id : str) : request file_object
| FineTuningJobsCreate (training_file model : str) (n_epochs : Z) : request job
| FineTuningJobsList (limit : Z) : request (list job)
| FineTuningJobsRetrieve (id : str) : request job
| FineTuningJobsListEvents (id : str) (limit : Z) : request (list job_event).

(** What [print] writes: the pieces of a formatted line.  Literal text is
    kept as the source spells it, escapes included. *)
Inductive piece :=
| T (s : string)            (* literal text *)
| V (s : str)               (* a string value *)
| I (z : Z)                 (* an integer *)
| E (e : exn)               (* an exception, as str(e) *)
| R (digits : nat) (num den : Z)   (* num/den as a float, to [digits] decimals *)
| F (digits : nat) (x : float)     (* a float, to [digits] decimals *)
| Abs (path : str)          (* Path.absolute() *)
| J (vec : list float).     (* json.dumps of a vector *)

Definition line := list piece.

Inductive action :=
| AGetenv (name : string)
| AArgv
| APrint (l : line)
| AExists (path : str)
| AOpenRead (path : str)
| AOpenWrite (path : str)
| AStat (path : str)
| ASleep (seconds : Z)
| ACall (api_key : str) {A} (req : request A).

Inductive node :=
| Dir
| File (readable writable : bool) (data : bytes).

Record World := mkWorld {
  environ : gmap string str;
  argv : list str;
  fs : gmap str node;
  (** the error creating a file at a free path raises, if any *)
  create_error : str -> option exn;
  (** the reply of the service to its n-th request (from 0) *)
  replies : nat -> forall A, request A -> exn + A;
  (** what a text-mode read of these bytes returns (UTF-8, universal
      newlines); [None] when they do not decode *)
  read_text_mode : bytes -> option str;
  (** the bytes [json.dump(value, f, indent=2)] leaves in a text-mode file *)
  json_dump : json -> bytes;
  np : numpy;
  (** what the process did so far, oldest first *)
  trace : list action }.

Definition log (a : action) (w : World) : World :=
  mkWorld (environ w) (argv w) (fs w) (create_error w) (replies w)
          (read_text_mode w) (json_dump w) (np w) (trace w ++ [a]).

Definition set_fs (f : gmap str node) (w : World) : World :=
  mkWorld (environ w) (argv w) f (create_error w) (replies w)
          (read_text_mode w) (json_dump w) (np w) (trace w).

(** The lines printed and the requests sent, read off a trace. *)
Definition stdout (tr : list action) : list line :=
  omap (fun a => match a with APrint l => Some l | _ => None end) tr.

Definition is_call (a : action) : bool :=
  match a with ACall _ _ => true | _ => false end.

Definition calls (tr : list action) : list action := List.filter is_call tr.

(** How a computation ends: with a value, with an exception, with
    [sys.exit(code)], or not at all within the given number of turns of a
    [while True] loop. *)
Inductive outcome (A : Type) :=
| Ret (a : A)
| Raise (e : exn)
| Exit (code : Z)
| Hang.
Arguments Ret {A} a.
Arguments Raise {A} e.
Arguments Exit {A} code.
Arguments Hang {A}.

Definition M (A : Type) : Type := World -> outcome A * World.

Definition ret {A} (a : A) : M A := fun w => (Ret a, w).

Definition bind {A B} (m : M A) (k : A -> M B) : M B :=
  fun w =>
    match m w with
    | (Ret a, w') => k a w'
    | (Raise e, w') => (Raise e, w')
    | (Exit c, w') => (Exit c, w')
    | (Hang, w') => (Hang, w')
    end.

Notation "x <- m ;; k" := (bind m (fun x => k))
  (at level 100, m at next level, right associativity).
Notation "m ;; k" := (bind m (fun _ => k))
  (at level 100, right associativity).

Definition raise {A} (e : exn) : M A := fun w => (Raise e, w).

(** [sys.exit(code)]: raises [SystemExit], which no [except Exception]
    clause catches. *)
Definition sys_exit {A} (code : Z) : M A := fun w => (Exit code, w).

(** [try: body  except ...: handler] *)
Definition try_except {A} (body : M A) (handler : exn -> M A) : M A :=
  fun w =>
    match body w with
    | (Raise e, w') => handler e w'
    | r => r
    end.

Definition when (b : bool) (m : M unit) : M unit := if b then m else ret tt.

Definition getenv (name : string) : M (option str) :=
  fun w => (Ret (environ w !! name), log (AGetenv name) w).

Definition sys_argv : M (list str) :=
  fun w => (Ret (argv w), log AArgv w).

(** [print(...)]: standard output is taken to accept the line.  A stream
    that refuses one of its characters, which makes [print] raise, is not
    a stream of this model. *)
Definition print (l : line) : M unit :=
  fun w => (Ret tt, log (APrint l) w).

(** [os.path.exists(path)] *)
Definition path_exists (path : str) : M bool :=
  fun w => (Ret (bool_decide (is_Some (fs w !! path))), log (AExists path) w).

(** [open(path, 'rb').read()] *)
Definition read_bytes (path : str) : M bytes :=
  fun w =>
    let w := log (AOpenRead path) w in
    match fs w !! path with
    | None => (Raise (FileNotFoundError path), w)
    | Some Dir => (Raise (OtherException path), w)
    | Some (File readable _ data) =>
        if readable then (Ret data, w) else (Raise (PermissionError path), w)
    end.

(** [open(path, 'r', encoding='utf-8').read()] *)
Definition read_text (path : str) : M str :=
  data <- read_bytes path ;;
  fun w =>
    match read_text_mode w data with
    | Some text => (Ret text, w)
    | None => (Raise (OtherException path), w)
    end.

(** [open(path, 'wb')] followed by one [write(data)]: the file is created
    or replaced when the open succeeds. *)
Definition write_file (path : str) (data : bytes) : M unit :=
  fun w =>
    let w := log (AOpenWrite path) w in
    match fs w !! path with
    | Some Dir => (Raise (OtherException path), w)
    | Some (File readable writable _) =>
        if writable
        then (Ret tt, set_fs (<[path := File readable writable data]> (fs w)) w)
        else (Raise (PermissionError path), w)
    | None =>
        match create_error w path with
        | Some e => (Raise e, w)
        | None => (Ret tt, set_fs (<[path := File true true data]> (fs w)) w)
        end
    end.

(** [path.stat().st_size] / [os.path.getsize(path)]; the scripts ask for
    the size of a file they have just written, the size given for a
    directory is a placeholder. *)
Definition stat_size (path : str) : M Z :=
  fun w =>
    let w := log (AStat path) w in
    match fs w !! path with
    | Some (File _ _ data) => (Ret (Z.of_nat (length data)), w)
    | Some Dir => (Ret 4096, w)
    | None => (Raise (FileNotFoundError path), w)
    end.

(** [json.dump(value, open(path, 'w'), indent=2)] *)
Definition write_json (path : str) (value : json) : M unit :=
  fun w => write_file path (json_dump w value) w.

(** [l[i]], which raises [IndexError] out of range. *)
Definition item {A} (l : list A) (i : nat) : M A :=
  fun w =>
    match l !! i with
    | Some x => (Ret x, w)
    | None => (Raise (OtherException (of_string "IndexError")), w)
    end.

(** A call into [numpy] that may raise [ValueError]. *)
Definition numpy_call {A} (f : numpy -> option A) : M A :=
  fun w =>
    match f (np w) with
    | Some x => (Ret x, w)
    | None => (Raise (OtherException (of_string "ValueError")), w)
    end.

(** The loop did not end within the turns allowed. *)
Definition hang {A} : M A := fun w => (Hang, w).

Definition sleep (seconds : Z) : M unit :=
  fun w => (Ret tt, log (ASleep seconds) w).

(** A method of the client: one request to the service, answered by its
    reply or by the exception it raises. *)
Definition call {A} (api_key : str) (req : request A) : M A :=
  fun w =>
    let n := length (calls (trace w)) in
    let w' := log (ACall api_key req) w in
    match replies w n A req with
    | inl e => (Raise e, w')
    | inr a => (Ret a, w')
    end.

(** The exit status of a process whose [main] ends this way: an uncaught
    exception ends it with status 1 after the traceback. *)
Definition exit_status {A} (o : outcome A) : option Z :=
  match o with
  | Ret _ => Some 0
  | Raise _ => Some 1
  | Exit c => Some c
  | Hang => None
  end.

(** [s * n] on a literal. *)
Fixpoint times (s : string) (n : nat) : string :=
  match n with
  | O => EmptyString
  | S n' => (s ++ times s n')%string
  end.

(** [a[i] if len(a) > i else default] *)
Definition arg_or (a : list str) (i : nat) (default : str) : str :=
  match a !! i with
  | Some x => x
  | None => default
  end.

End Sys.

Import Sys.

Local Open Scope string_scope.
Local Open Scope list_scope.
Local Open Scope Z_scope.

(** The double quote, for the literals that hold one. *)
Definition QUOTE : string := String "034"%char EmptyString.

(** The rule [print("=" * n)] draws. *)
Definition rule (n : nat) : line := [T (times "=" n)].

(** The same key check opens every [main]; the scripts differ in whether
    the second line, with the [export] hint, follows. *)
Definition KEY : string := "OPENAI_API_KEY".

Definition missing_key_error : line :=
  [T "ERROR: OPENAI_API_KEY environment variable not set!"].

Definition missing_key_hint : line :=
  [T "Please set it with: export OPENAI_API_KEY='your-api-key-here'"].

(** [not api_key], for the result of [os.environ.get]. *)
Definition key_missing (api_key : option str) : bool :=
  match api_key with
  | Some k => negb (truthy k)
  | None => true
  end.

(** The value [api_key] holds past the check.  The client
    [OpenAI(api_key=api_key)] is modelled by this key, under which its
    requests are sent: building the client sends nothing, and the library
    is taken to build it.  A run in which the constructor raises, as it
    can for settings of the environment other than the key, is not a run
    of this model. *)
Definition key_value (api_key : option str) : str := default [] api_key.

(** Several [print] statements in a row. *)
Definition prints (ls : list line) : M unit :=
  fold_right (fun l k => print l ;; k) (ret tt) ls.

(** The literal [0.7]. *)
Definition temperature : float := 0x1.6666666666666p-1%float.

(** ** [text_to_speech_file.py] *)

Module text_to_speech_file.

(** Lines 23-25: the sentence, stripped, with its full stop put back. *)
Definition normalize (sentence : str) : str :=
  let sentence := strip sentence in
  if truthy sentence && negb (endswith_dot sentence)
  then sentence ++ [DOT]
  else sentence.

(** Line 17: the sentences of the text. *)
Definition sentences_of (text : str) : list str :=
  split2 DOT SPACE (replace LF SPACE text).

(** Lines 21-32: one turn of the loop, on the pair of [chunks] and
    [current_chunk]. *)
Definition split_step (max_length : Z) (st : list str * str) (sentence : str)
  : list str * str :=
  let '(chunks, current_chunk) := st in
  let sentence := normalize sentence in
  if len current_chunk + len sentence + 1 <=? max_length
  then (chunks, current_chunk ++ sentence ++ [SPACE])
  else
    ((if truthy current_chunk then chunks ++ [strip current_chunk] else chunks),
     sentence ++ [SPACE]).

(** Lines 34-37: the last chunk is appended when it is not empty. *)
Definition split_flush (st : list str * str) : list str :=
  let '(chunks, current_chunk) := st in
  if truthy current_chunk then chunks ++ [strip current_chunk] else chunks.

Definition split_text (text : str) (max_length : Z) : list str :=
  split_flush (fold_left (split_step max_length) (sentences_of text) ([], [])).

(** The default of the [max_length] parameter. *)
Definition default_max_length : Z := 4096.

Definition usage : list line :=
  [ [T "Usage: python text_to_speech_file.py <input_file> [output_file] [voice] [model]"];
    [T "\nExamples:"];
    [T "  python text_to_speech_file.py article.txt"];
    [T "  python text_to_speech_file.py article.txt output.mp3 nova tts-1-hd"];
    [T "\nAvailable voices:"];
    [T "  - alloy (neutral)"];
    [T "  - echo (male)"];
    [T "  - fable (neutral)"];
    [T "  - onyx (male)"];
    [T "  - nova (female)"];
    [T "  - shimmer (female)"];
    [T "\nAvailable models:"];
    [T "  - tts-1 (faster, standard quality)"];
    [T "  - tts-1-hd (slower, higher quality)"] ].

Definition valid_voices : list str :=
  map of_string ["alloy"; "echo"; "fable"; "onyx"; "nova"; "shimmer"].

Definition valid_models : list str := map of_string ["tts-1"; "tts-1-hd"].

Definition audio_extensions : list str :=
  map of_string [".mp3"; ".opus"; ".aac"; ".flac"].

(** Lines 128-139: the loop over [enumerate(chunks, 1)], on [audio_data]. *)
Fixpoint synthesize (client model voice : str) (num_chunks : nat) (i : Z)
    (chunks : list str) (audio_data : bytes) : M bytes :=
  match chunks with
  | [] => ret audio_data
  | chunk :: rest =>
      when (1 <? num_chunks)%nat
        (print [T "  Processing chunk "; I i; T "/"; I (Z.of_nat num_chunks); T "..."]) ;;
      response <- call client (AudioSpeechCreate model voice chunk) ;;
      synthesize client model voice num_chunks (i + 1) rest (audio_data ++ response)
  end.

(** Lines 98-163: the body of the [try]. *)
Definition convert (client input_file output_file voice model : str) : M unit :=
  print (rule 60) ;;
  print [T "OpenAI Text-to-Speech File Converter"] ;;
  print (rule 60) ;;
  print [T "\nReading file: "; V input_file] ;;
  contents <- read_text input_file ;;
  let text := strip contents in
  when (negb (truthy text))
    (print [T "ERROR: Input file is empty!"] ;; sys_exit 1) ;;
  print [T "Text length: "; I (len text); T " characters"] ;;
  let chunks := split_text text default_max_length in
  let num_chunks := length chunks in
  when (1 <? num_chunks)%nat
    (print [T "Text split into "; I (Z.of_nat num_chunks);
            T " chunks (API limit: 4096 chars/request)"]) ;;
  print [T "Voice: "; V voice] ;;
  print [T "Model: "; V model] ;;
  print [T "Output: "; V output_file] ;;
  print [T "\nGenerating speech..."] ;;
  audio_data <- synthesize client model voice num_chunks 1 chunks [] ;;
  write_file output_file audio_data ;;
  file_size <- stat_size output_file ;;
  print (T "\n" :: rule 60) ;;
  print [T "✓ Success!"] ;;
  print (rule 60) ;;
  print [T "Audio file saved: "; Abs output_file] ;;
  (* file_size_mb >= 1, for file_size / 1024 / 1024 *)
  (if 1048576 <=? file_size
   then print [T "File size: "; R 2 file_size 1048576; T " MB"]
   else print [T "File size: "; R 2 file_size 1024; T " KB"]) ;;
  print [T "\nYou can play it with:"] ;;
  print [T "  macOS: afplay "; V output_file] ;;
  print [T "  Linux: mpg123 "; V output_file] ;;
  print [T "  Windows: start "; V output_file] ;;
  print (rule 60).

(** Lines 165-198: the [except] clauses. *)
Definition handler (e : exn) : M unit :=
  match e with
  | RateLimitError _ =>
      print [T "\nERROR: Rate limit or quota exceeded!"] ;;
      print [T "\nThis means:"] ;;
      print [T "  • Your OpenAI account is out of credits"] ;;
      print [T "  • You've exceeded your usage quota"] ;;
      print [T "\nTo fix this:"] ;;
      print [T "  1. Go to: https://platform.openai.com/account/billing"] ;;
      print [T "  2. Add a payment method or purchase credits"] ;;
      print [T "\nFull error: "; E e] ;;
      sys_exit 1
  | AuthenticationError _ =>
      print [T "\nERROR: Authentication failed!"] ;;
      print [T "Your API key may be invalid or expired."] ;;
      print [T "Get a valid key from: https://platform.openai.com/api-keys"] ;;
      print [T "\nFull error: "; E e] ;;
      sys_exit 1
  | APIError _ =>
      print [T "\nERROR: OpenAI API error occurred: "; E e] ;;
      sys_exit 1
  | FileNotFoundError _ =>
      print [T "\nERROR: File not found: "; E e] ;;
      sys_exit 1
  | PermissionError _ =>
      print [T "\nERROR: Permission denied"] ;;
      print [T "Check file permissions for input/output files."] ;;
      sys_exit 1
  | OtherException _ =>
      print [T "\nERROR: Unexpected error: "; E e] ;;
      sys_exit 1
  end.

Definition main : M unit :=
  api_key <- getenv KEY ;;
  when (key_missing api_key)
    (print missing_key_error ;; print missing_key_hint ;; sys_exit 1) ;;
  let client := key_value api_key in
  argv <- sys_argv ;;
  when (length argv <? 2)%nat (prints usage ;; sys_exit 1) ;;
  let input_file := arg_or argv 1 [] in
  let output_file := arg_or argv 2 (of_string "speech_output.mp3") in
  let voice := arg_or argv 3 (of_string "alloy") in
  let model := arg_or argv 4 (of_string "tts-1") in
  found <- path_exists input_file ;;
  when (negb found)
    (print [T "ERROR: Input file '"; V input_file; T "' not found!"] ;; sys_exit 1) ;;
  when (negb (bool_decide (voice ∈ valid_voices)))
    (print [T "ERROR: Invalid voice '"; V voice; T "'"] ;;
     print [T "Valid voices: "; V (join (of_string ", ") valid_voices)] ;;
     sys_exit 1) ;;
  when (negb (bool_decide (model ∈ valid_models)))
    (print [T "ERROR: Invalid model '"; V model; T "'"] ;;
     print [T "Valid models: "; V (join (of_string ", ") valid_models)] ;;
     sys_exit 1) ;;
  let output_file :=
    if existsb (endswith output_file) audio_extensions
    then output_file
    else output_file ++ of_string ".mp3" in
  try_except (convert client input_file output_file voice model) handler.

End text_to_speech_file.

Import text_to_speech_file.


(** ** [chat_gpt.py] *)

Module chat_gpt.

Definition handler (e : exn) : M unit :=
  match e with
  | RateLimitError _ =>
      print [T "ERROR: Rate limit or quota exceeded!"] ;;
      print [T "\nThis means:"] ;;
      print [T "  • Your OpenAI account is out of credits"] ;;
      print [T "  • You've exceeded your usage quota"] ;;
      print [T "\nTo fix this:"] ;;
      print [T "  1. Go to: https://platform.openai.com/account/billing"] ;;
      print [T "  2. Add a payment method or purchase credits"] ;;
      print [T "  3. Check your usage limits and billing details"] ;;
      print [T "\nFull error: "; E e] ;;
      sys_exit 1
  | AuthenticationError _ =>
      print [T "ERROR: Authentication failed!"] ;;
      print [T "Your API key may be invalid or expired."] ;;
      print [T "Get a valid key from: https://platform.openai.com/api-keys"] ;;
      print [T "\nFull error: "; E e] ;;
      sys_exit 1
  | APIError _ =>
      print [T "ERROR: OpenAI API error occurred: "; E e] ;;
      sys_exit 1
  | _ =>
      print [T "ERROR: Unexpected error: "; E e] ;;
      sys_exit 1
  end.

Definition main : M unit :=
  api_key <- getenv KEY ;;
  when (key_missing api_key)
    (print missing_key_error ;; print missing_key_hint ;; sys_exit 1) ;;
  let client := key_value api_key in
  let user_message :=
    of_string "can u give the model id that u are using ? ai model" in
  print [T "Sending message: "; V user_message; T "\n"] ;;
  try_except
    (response <- call client
       (ChatCompletionsCreate
          (of_string "ft:gpt-3.5-turbo-0125:born2rule::CSC05TYi")
          (of_string "You are a helpful assistant.") user_message
          150 temperature) ;;
     assistant_message <- item (choices response) 0 ;;
     print [T "GPT Response:"] ;;
     print [T (times "-" 50)] ;;
     print [V assistant_message] ;;
     print [T (times "-" 50)] ;;
     print [T "\nTokens used: "; I (chat_total_tokens response)])
    handler.

End chat_gpt.

(** ** [check_fine_tune_status.py] *)

Module check_fine_tune_status.

(** Lines 34-43: the lines for one job of the list. *)
Definition print_job (j : job) : M unit :=
  print [T "\nJob ID: "; V (job_id j)] ;;
  print [T "Model: "; V (job_model j)] ;;
  print [T "Status: "; V (job_status j)] ;;
  print [T "Created: "; I (job_created_at j)] ;;
  match job_finished_at j with
  | Some t => when (negb (t =? 0)) (print [T "Finished: "; I t])
  | None => ret tt
  end ;;
  match job_fine_tuned_model j with
  | Some m => when (truthy m) (print [T "Fine-tuned Model: "; V m])
  | None => ret tt
  end ;;
  print [T (times "-" 60)].

Fixpoint for_each {A} (f : A -> M unit) (l : list A) : M unit :=
  match l with
  | [] => ret tt
  | x :: l' => f x ;; for_each f l'
  end.

(** Lines 62-75: what is said of the state of the job. *)
Definition print_state (j : job) : M unit :=
  let ready := match job_fine_tuned_model j with
               | Some m => truthy m
               | None => false
               end in
  if ready then
    print [T "\n✓ Fine-tuned model ready: "; V (default [] (job_fine_tuned_model j))] ;;
    print [T "\nYou can now use this model in your API calls:"] ;;
    print [T "  model='"; V (default [] (job_fine_tuned_model j)); T "'"]
  else if bool_decide (job_status j = of_string "running") then
    print [T "\n⟳ Job is still running..."]
  else if bool_decide (job_status j = of_string "validating_files") then
    print [T "\n⟳ Validating training files..."]
  else if bool_decide (job_status j = of_string "queued") then
    print [T "\n⟳ Job is queued..."]
  else if bool_decide (job_status j = of_string "failed") then
    print [T "\n✗ Job failed!"] ;;
    match job_error j with
    | Some err => when (truthy err) (print [T "Error: "; V err])
    | None => ret tt
    end
  else ret tt.

Definition main : M unit :=
  api_key <- getenv KEY ;;
  when (key_missing api_key) (print missing_key_error ;; sys_exit 1) ;;
  argv <- sys_argv ;;
  when (length argv <? 2)%nat
    (print [T "Usage: python check_fine_tune_status.py <job_id>"] ;;
     print [T "\nOr list all jobs:"] ;;
     print [T "python check_fine_tune_status.py --list"] ;;
     sys_exit 1) ;;
  let client := key_value api_key in
  try_except
    (if bool_decide (arg_or argv 1 [] = of_string "--list") then
       print (T "\n" :: rule 60) ;;
       print [T "All Fine-Tuning Jobs"] ;;
       print (rule 60) ;;
       jobs <- call client (FineTuningJobsList 10) ;;
       for_each print_job jobs
     else
       let id := arg_or argv 1 [] in
       print [T "\nChecking status for job: "; V id] ;;
       print (rule 60) ;;
       j <- call client (FineTuningJobsRetrieve id) ;;
       print [T "Status: "; V (job_status j)] ;;
       print [T "Model: "; V (job_model j)] ;;
       print [T "Training file: "; V (job_training_file j)] ;;
       match job_n_epochs j with
       | Some n => print [T "Epochs: "; V n]
       | None => ret tt
       end ;;
       match job_trained_tokens j with
       | Some n => when (negb (n =? 0)) (print [T "Trained tokens: "; I n])
       | None => ret tt
       end ;;
       print_state j ;;
       print (T "\n" :: rule 60) ;;
       print [T "Recent Events:"] ;;
       print (rule 60) ;;
       events <- call client (FineTuningJobsListEvents id 5) ;;
       for_each (fun ev => print [T "["; I (event_created_at ev); T "] ";
                                  V (event_message ev)]) events)
    (fun e => print [T "ERROR: "; E e] ;; sys_exit 1).

End check_fine_tune_status.

(** ** [use_fine_tuned_model.py] *)

Module use_fine_tuned_model.

Definition handler (e : exn) : M unit :=
  match e with
  | RateLimitError _ =>
      print [T "ERROR: Rate limit or quota exceeded: "; E e] ;; sys_exit 1
  | AuthenticationError _ =>
      print [T "ERROR: Authentication failed: "; E e] ;; sys_exit 1
  | APIError _ =>
      print [T "ERROR: API error: "; E e] ;; sys_exit 1
  | _ =>
      print [T "ERROR: "; E e] ;; sys_exit 1
  end.

Definition main : M unit :=
  api_key <- getenv KEY ;;
  when (key_missing api_key) (print missing_key_error ;; sys_exit 1) ;;
  argv <- sys_argv ;;
  when (length argv <? 2)%nat
    (print [T "Usage: python use_fine_tuned_model.py <fine_tuned_model_name>"] ;;
     print [T "\nExample:"] ;;
     print [T "  python use_fine_tuned_model.py ft:gpt-3.5-turbo-0125:my-org:custom-model:9ABcDEf"] ;;
     sys_exit 1) ;;
  let fine_tuned_model := arg_or argv 1 [] in
  let client := key_value api_key in
  let user_message :=
    if (3 <=? length argv)%nat
    then join [SPACE] (drop 2 argv)
    else of_string "What are your business hours?" in
  print [T "Using model: "; V fine_tuned_model] ;;
  print [T "User message: "; V user_message; T "\n"] ;;
  try_except
    (response <- call client
       (ChatCompletionsCreate fine_tuned_model
          (of_string "You are a helpful assistant for a tech company.")
          user_message 150 temperature) ;;
     assistant_message <- item (choices response) 0 ;;
     print [T "Response:"] ;;
     print [T (times "-" 60)] ;;
     print [V assistant_message] ;;
     print [T (times "-" 60)] ;;
     print [T "\nTokens used: "; I (chat_total_tokens response)])
    handler.

End use_fine_tuned_model.

(** ** [fine_tune.py] *)

Module fine_tune.

Definition check_file_status (client id : str) : M str :=
  file_info <- call client (FilesRetrieve id) ;;
  ret (file_status file_info).

(** Lines 56-66: the [while True] loop, for at most [turns] turns. *)
Fixpoint wait_processed (turns : nat) (client id : str) : M unit :=
  match turns with
  | O => hang
  | S turns' =>
      status <- check_file_status client id ;;
      if bool_decide (status = of_string "processed") then
        print [T "✓ File processed successfully!"]
      else if bool_decide (status = of_string "error") then
        print [T "✗ File processing failed!"] ;; sys_exit 1
      else
        print [T "  Current status: "; V status; T ". Waiting..."] ;;
        sleep 2 ;;
        wait_processed turns' client id
  end.

Definition handler (e : exn) : M unit :=
  match e with
  | RateLimitError _ =>
      print [T "\nERROR: Rate limit or quota exceeded!"] ;;
      print [T "\nThis means:"] ;;
      print [T "  • Your OpenAI account is out of credits"] ;;
      print [T "  • You've exceeded your usage quota"] ;;
      print [T "\nTo fix this:"] ;;
      print [T "  1. Go to: https://platform.openai.com/account/billing"] ;;
      print [T "  2. Add a payment method or purchase credits"] ;;
      print [T "\nFull error: "; E e] ;;
      sys_exit 1
  | AuthenticationError _ =>
      print [T "\nERROR: Authentication failed!"] ;;
      print [T "Your API key may be invalid or expired."] ;;
      print [T "Get a valid key from: https://platform.openai.com/api-keys"] ;;
      print [T "\nFull error: "; E e] ;;
      sys_exit 1
  | FileNotFoundError _ =>
      print [T "\nERROR: File not found: "; E e] ;;
      sys_exit 1
  | APIError _ =>
      print [T "\nERROR: OpenAI API error occurred: "; E e] ;;
      sys_exit 1
  | _ =>
      print [T "\nERROR: Unexpected error: "; E e] ;;
      sys_exit 1
  end.

Definition main (turns : nat) : M unit :=
  api_key <- getenv KEY ;;
  when (key_missing api_key)
    (print missing_key_error ;; print missing_key_hint ;; sys_exit 1) ;;
  let client := key_value api_key in
  let training_file_path := of_string "training_data.jsonl" in
  found <- path_exists training_file_path ;;
  when (negb found)
    (print [T "ERROR: Training file '"; V training_file_path; T "' not found!"] ;;
     print [T "Please create a training data file in JSONL format."] ;;
     print [T "See the example file for the required format."] ;;
     sys_exit 1) ;;
  try_except
    (print (rule 60) ;;
     print [T "OpenAI Fine-Tuning Job Creator"] ;;
     print (rule 60) ;;
     print [T "\n[1/3] Uploading training file: "; V training_file_path] ;;
     f <- read_bytes training_file_path ;;
     training_file <- call client (FilesCreate f (of_string "fine-tune")) ;;
     print [T "✓ File uploaded successfully!"] ;;
     print [T "  File ID: "; V (file_id training_file)] ;;
     print [T "  Filename: "; V (file_filename training_file)] ;;
     print [T "  Status: "; V (file_status training_file)] ;;
     print [T "\n[2/3] Waiting for file to be processed..."] ;;
     wait_processed turns client (file_id training_file) ;;
     print [T "\n[3/3] Creating fine-tuning job..."] ;;
     fine_tuning_job <- call client
       (FineTuningJobsCreate (file_id training_file)
          (of_string "gpt-3.5-turbo") 3) ;;
     print [T "✓ Fine-tuning job created successfully!"] ;;
     print (T "\n" :: rule 60) ;;
     print [T "Job Details:"] ;;
     print (rule 60) ;;
     print [T "Job ID: "; V (job_id fine_tuning_job)] ;;
     print [T "Model: "; V (job_model fine_tuning_job)] ;;
     print [T "Status: "; V (job_status fine_tuning_job)] ;;
     print [T "Training file: "; V (job_training_file fine_tuning_job)] ;;
     match job_n_epochs fine_tuning_job with
     | Some n => print [T "Epochs: "; V n]
     | None => ret tt
     end ;;
     print (T "\n" :: rule 60) ;;
     print [T "Next Steps:"] ;;
     print (rule 60) ;;
     print [T "1. Monitor your job status at:"] ;;
     print [T "   https://platform.openai.com/finetune"] ;;
     print [T "\n2. Check job status with:"] ;;
     print [T "   python check_fine_tune_status.py "; V (job_id fine_tuning_job)] ;;
     print [T "\n3. Once complete, use your fine-tuned model:"] ;;
     print [T "   model='ft:gpt-3.5-turbo:...'"] ;;
     print [T "\nNote: Fine-tuning can take several minutes to hours depending on"] ;;
     print [T "the size of your training data."] ;;
     print (rule 60))
    handler.

End fine_tune.

(** ** [text_to_speech.py] *)

Module text_to_speech.

Definition usage : list line :=
  [ [T "Usage: python text_to_speech.py <text> [output_file] [voice] [model]"];
    [T "\nExamples:"];
    [T ("  python text_to_speech.py " ++ QUOTE ++ "Hello, world!" ++ QUOTE)%string];
    [T ("  python text_to_speech.py " ++ QUOTE ++ "Hello, world!" ++ QUOTE
        ++ " output.mp3")%string];
    [T ("  python text_to_speech.py " ++ QUOTE ++ "Hello, world!" ++ QUOTE
        ++ " output.mp3 alloy")%string];
    [T ("  python text_to_speech.py " ++ QUOTE ++ "Hello, world!" ++ QUOTE
        ++ " output.mp3 nova tts-1-hd")%string];
    [T "\nAvailable voices:"];
    [T "  - alloy (neutral)"];
    [T "  - echo (male)"];
    [T "  - fable (neutral)"];
    [T "  - onyx (male)"];
    [T "  - nova (female)"];
    [T "  - shimmer (female)"];
    [T "\nAvailable models:"];
    [T "  - tts-1 (faster, standard quality)"];
    [T "  - tts-1-hd (slower, higher quality)"] ].

Definition handler (output_file : str) (e : exn) : M unit :=
  match e with
  | RateLimitError _ =>
      print [T "\nERROR: Rate limit or quota exceeded!"] ;;
      print [T "\nThis means:"] ;;
      print [T "  • Your OpenAI account is out of credits"] ;;
      print [T "  • You've exceeded your usage quota"] ;;
      print [T "\nTo fix this:"] ;;
      print [T "  1. Go to: https://platform.openai.com/account/billing"] ;;
      print [T "  2. Add a payment method or purchase credits"] ;;
      print [T "\nFull error: "; E e] ;;
      sys_exit 1
  | AuthenticationError _ =>
      print [T "\nERROR: Authentication failed!"] ;;
      print [T "Your API key may be invalid or expired."] ;;
      print [T "Get a valid key from: https://platform.openai.com/api-keys"] ;;
      print [T "\nFull error: "; E e] ;;
      sys_exit 1
  | APIError _ =>
      print [T "\nERROR: OpenAI API error occurred: "; E e] ;;
      sys_exit 1
  | PermissionError _ =>
      print [T "\nERROR: Permission denied writing to '"; V output_file; T "'"] ;;
      print [T "Try a different output location or check file permissions."] ;;
      sys_exit 1
  | _ =>
      print [T "\nERROR: Unexpected error: "; E e] ;;
      sys_exit 1
  end.

Definition main : M unit :=
  api_key <- getenv KEY ;;
  when (key_missing api_key)
    (print missing_key_error ;; print missing_key_hint ;; sys_exit 1) ;;
  let client := key_value api_key in
  argv <- sys_argv ;;
  when (length argv <? 2)%nat (prints usage ;; sys_exit 1) ;;
  let text := arg_or argv 1 [] in
  let output_file := arg_or argv 2 (of_string "speech.mp3") in
  let voice := arg_or argv 3 (of_string "alloy") in
  let model := arg_or argv 4 (of_string "tts-1") in
  when (negb (bool_decide (voice ∈ valid_voices)))
    (print [T "ERROR: Invalid voice '"; V voice; T "'"] ;;
     print [T "Valid voices: "; V (join (of_string ", ") valid_voices)] ;;
     sys_exit 1) ;;
  when (negb (bool_decide (model ∈ valid_models)))
    (print [T "ERROR: Invalid model '"; V model; T "'"] ;;
     print [T "Valid models: "; V (join (of_string ", ") valid_models)] ;;
     sys_exit 1) ;;
  let output_file :=
    if existsb (endswith output_file) audio_extensions
    then output_file
    else output_file ++ of_string ".mp3" in
  try_except
    (print (rule 60) ;;
     print [T "OpenAI Text-to-Speech Generator"] ;;
     print (rule 60) ;;
     print [T "\nText: "; V text] ;;
     print [T "Voice: "; V voice] ;;
     print [T "Model: "; V model] ;;
     print [T "Output: "; V output_file] ;;
     print [T "\nGenerating speech..."] ;;
     response <- call client (AudioSpeechCreate model voice text) ;;
     write_file output_file response ;;
     file_size <- stat_size output_file ;;
     print (T "\n" :: rule 60) ;;
     print [T "✓ Success!"] ;;
     print (rule 60) ;;
     print [T "Audio file saved: "; Abs output_file] ;;
     print [T "File size: "; R 2 file_size 1024; T " KB"] ;;
     print [T "\nYou can play it with:"] ;;
     print [T "  macOS: afplay "; V output_file] ;;
     print [T "  Linux: mpg123 "; V output_file] ;;
     print [T "  Windows: start "; V output_file] ;;
     print (rule 60))
    (handler output_file).

End text_to_speech.

(** ** [batch_embeddings.py] *)

Module batch_embeddings.

Definition usage : list line :=
  [ [T "Usage: python batch_embeddings.py <input_file> [output_file] [model]"];
    [T "\nExamples:"];
    [T "  python batch_embeddings.py texts.txt"];
    [T "  python batch_embeddings.py texts.txt embeddings.json"];
    [T "  python batch_embeddings.py texts.txt embeddings.json text-embedding-3-large"];
    [T "\nInput file format:"];
    [T "  One text per line"];
    [T "\nAvailable models:"];
    [T "  - text-embedding-3-small (default)"];
    [T "  - text-embedding-3-large"];
    [T "  - text-embedding-ada-002"] ].

Definition valid_models : list str :=
  map of_string
    ["text-embedding-3-small"; "text-embedding-3-large"; "text-embedding-ada-002"].

Definition batch_size : nat := 100.

(** One entry of [all_embeddings]. *)
Definition entry (text : str) (embedding : list float) (index : nat) : json :=
  JObject [("text", JString text);
           ("embedding", JArray (map JFloat embedding));
           ("index", JInt (Z.of_nat index))].

(** Lines 87-92: the entries for one response; [batch[j]] raises when the
    response holds more vectors than the batch has texts. *)
Definition entries (batch : list str) (data : list (list float)) (i : nat)
  : M (list json) :=
  if (length batch <? length data)%nat
  then raise (OtherException (of_string "IndexError"))
  else ret (imap (fun j item => entry (fst item) (snd item) (i + j)%nat)
                 (zip batch data)).

(** Lines 78-94: the loop over [range(0, len(texts), batch_size)], from
    index [i]; [turns] bounds the turns left, one per text being enough. *)
Fixpoint embed (turns : nat) (client model : str) (texts : list str) (i : nat)
    (all_embeddings : list (json * list float)) (total_tokens : Z)
  : M (list (json * list float) * Z) :=
  match turns with
  | O => ret (all_embeddings, total_tokens)
  | S turns' =>
      if (length texts <=? i)%nat then ret (all_embeddings, total_tokens)
      else
        let batch := take batch_size (drop i texts) in
        print [T "  Processing batch "; I (Z.of_nat (i / batch_size + 1)%nat);
               T "/"; I (Z.of_nat ((length texts - 1) / batch_size + 1)%nat);
               T "..."] ;;
        response <- call client (EmbeddingsCreate model (inr batch)) ;;
        new <- entries batch (emb_data response) i ;;
        embed turns' client model texts (i + batch_size)%nat
          (all_embeddings ++ zip new (emb_data response))
          (total_tokens + emb_total_tokens response)
  end.

Definition handler (e : exn) : M unit :=
  match e with
  | RateLimitError _ =>
      print [T "\nERROR: Rate limit or quota exceeded: "; E e] ;; sys_exit 1
  | AuthenticationError _ =>
      print [T "\nERROR: Authentication failed: "; E e] ;; sys_exit 1
  | APIError _ =>
      print [T "\nERROR: API error: "; E e] ;; sys_exit 1
  | _ =>
      print [T "\nERROR: "; E e] ;; sys_exit 1
  end.

Definition main : M unit :=
  api_key <- getenv KEY ;;
  when (key_missing api_key) (print missing_key_error ;; sys_exit 1) ;;
  argv <- sys_argv ;;
  when (length argv <? 2)%nat (prints usage ;; sys_exit 1) ;;
  let input_file := arg_or argv 1 [] in
  let output_file := arg_or argv 2 (of_string "embeddings.json") in
  let model := arg_or argv 3 (of_string "text-embedding-3-small") in
  found <- path_exists input_file ;;
  when (negb found)
    (print [T "ERROR: Input file '"; V input_file; T "' not found!"] ;; sys_exit 1) ;;
  when (negb (bool_decide (model ∈ valid_models)))
    (print [T "ERROR: Invalid model '"; V model; T "'"] ;;
     print [T "Valid models: "; V (join (of_string ", ") valid_models)] ;;
     sys_exit 1) ;;
  let client := key_value api_key in
  try_except
    (print (rule 70) ;;
     print [T "OpenAI Batch Embeddings Generator"] ;;
     print (rule 70) ;;
     print [T "\nReading file: "; V input_file] ;;
     contents <- read_text input_file ;;
     let texts := List.filter truthy (map strip (lines contents)) in
     when (match texts with [] => true | _ => false end)
       (print [T "ERROR: Input file is empty!"] ;; sys_exit 1) ;;
     print [T "Found "; I (Z.of_nat (length texts)); T " texts to process"] ;;
     print [T "Model: "; V model] ;;
     print [T "\nGenerating embeddings..."] ;;
     embedded <- embed (length texts) client model texts 0 [] 0 ;;
     let all_embeddings := fst embedded in
     let total_tokens := snd embedded in
     first <- item all_embeddings 0 ;;
     let dimensions := Z.of_nat (length (snd first)) in
     let output_data :=
       JObject [("model", JString model);
                ("dimensions", JInt dimensions);
                ("total_texts", JInt (Z.of_nat (length texts)));
                ("total_tokens", JInt total_tokens);
                ("embeddings", JArray (map fst all_embeddings))] in
     print [T "\nSaving embeddings to: "; V output_file] ;;
     write_json output_file output_data ;;
     file_size <- stat_size output_file ;;
     print (T "\n" :: rule 70) ;;
     print [T "✓ Success!"] ;;
     print (rule 70) ;;
     print [T "Processed: "; I (Z.of_nat (length texts)); T " texts"] ;;
     print [T "Dimensions: "; I dimensions] ;;
     print [T "Tokens used: "; I total_tokens] ;;
     print [T "Output file: "; V output_file] ;;
     print [T "File size: "; R 2 file_size 1048576; T " MB"] ;;
     print [T "\nYou can now use these embeddings for:"] ;;
     print [T "  • Semantic search"] ;;
     print [T "  • Clustering similar texts"] ;;
     print [T "  • Finding recommendations"] ;;
     print [T "  • Classification tasks"] ;;
     print (rule 70))
    handler.

End batch_embeddings.

(** ** [text_embeddings.py] *)

Module text_embeddings.

(** The float literals of the script. *)
Definition f0_9 : float := 0x1.ccccccccccccdp-1%float.
Definition f0_7 : float := 0x1.6666666666666p-1%float.
Definition f0_5 : float := 0x1p-1%float.
Definition f0_3 : float := 0x1.3333333333333p-2%float.
Definition f100 : float := 0x1.9p6%float.

Definition cosine_similarity (vec1 vec2 : list float) : M float :=
  dot <- numpy_call (fun np => np_dot np vec1 vec2) ;;
  fun w => (Ret (dot / (np_norm (np w) vec1 * np_norm (np w) vec2))%float, w).

Definition usage : list line :=
  [ [T "Usage: python text_embeddings.py <text> [model]"];
    [T "\nExamples:"];
    [T ("  python text_embeddings.py " ++ QUOTE ++ "The quick brown fox" ++ QUOTE)%string];
    [T ("  python text_embeddings.py " ++ QUOTE ++ "Machine learning" ++ QUOTE
        ++ " text-embedding-3-large")%string];
    [T "\nAvailable models:"];
    [T "  - text-embedding-3-small (default, 1536 dimensions, faster, cheaper)"];
    [T "  - text-embedding-3-large (3072 dimensions, higher quality)"];
    [T "  - text-embedding-ada-002 (legacy, 1536 dimensions)"];
    [T "\nOptions:"];
    [T "  --compare <text1> <text2>  Compare similarity between two texts"];
    [T "  --save <filename>          Save embeddings to JSON file"] ].

Definition valid_models : list str := batch_embeddings.valid_models.

Definition default_model : str := of_string "text-embedding-3-small".

Definition handler (e : exn) : M unit :=
  match e with
  | RateLimitError _ =>
      print [T "\nERROR: Rate limit or quota exceeded!"] ;;
      print [T "\nThis means:"] ;;
      print [T "  • Your OpenAI account is out of credits"] ;;
      print [T "  • You've exceeded your usage quota"] ;;
      print [T "\nTo fix this:"] ;;
      print [T "  1. Go to: https://platform.openai.com/account/billing"] ;;
      print [T "  2. Add a payment method or purchase credits"] ;;
      print [T "\nFull error: "; E e] ;;
      sys_exit 1
  | AuthenticationError _ =>
      print [T "\nERROR: Authentication failed!"] ;;
      print [T "Your API key may be invalid or expired."] ;;
      print [T "Get a valid key from: https://platform.openai.com/api-keys"] ;;
      print [T "\nFull error: "; E e] ;;
      sys_exit 1
  | APIError _ =>
      print [T "\nERROR: OpenAI API error occurred: "; E e] ;;
      sys_exit 1
  | _ =>
      print [T "\nERROR: Unexpected error: "; E e] ;;
      sys_exit 1
  end.

(** Lines 86-130: the comparison of two texts. *)
Definition compare (client model text1 text2 : str) : M unit :=
  print [T "\nModel: "; V model] ;;
  print [T "Text 1: "; V text1] ;;
  print [T "Text 2: "; V text2] ;;
  print [T "\nGenerating embeddings..."] ;;
  response1 <- call client (EmbeddingsCreate model (inl text1)) ;;
  response2 <- call client (EmbeddingsCreate model (inl text2)) ;;
  embedding1 <- item (emb_data response1) 0 ;;
  embedding2 <- item (emb_data response2) 0 ;;
  similarity <- cosine_similarity embedding1 embedding2 ;;
  print (T "\n" :: rule 70) ;;
  print [T "Results:"] ;;
  print (rule 70) ;;
  print [T "Embedding 1 dimensions: "; I (Z.of_nat (length embedding1))] ;;
  print [T "Embedding 2 dimensions: "; I (Z.of_nat (length embedding2))] ;;
  print [T "\nCosine Similarity: "; F 6 similarity] ;;
  print [T "Similarity Percentage: "; F 2 (similarity * f100)%float; T "%"] ;;
  print [T "\nInterpretation:"] ;;
  (if (f0_9 <? similarity)%float then
     print [T "  ✓ Very similar - Nearly identical meaning"]
   else if (f0_7 <? similarity)%float then
     print [T "  ✓ Similar - Related concepts"]
   else if (f0_5 <? similarity)%float then
     print [T "  ~ Somewhat similar - Some relation"]
   else if (f0_3 <? similarity)%float then
     print [T "  ~ Weakly similar - Distant relation"]
   else
     print [T "  ✗ Different - Unrelated concepts"]) ;;
  print [T "\nTokens used: ";
         I (emb_total_tokens response1 + emb_total_tokens response2)].

(** Lines 132-189: the embedding of one text. *)
Definition embed_one (client model text : str) (save_file : option str)
  : M unit :=
  print [T "\nText: "; V text] ;;
  print [T "Model: "; V model] ;;
  print [T "\nGenerating embedding..."] ;;
  response <- call client (EmbeddingsCreate model (inl text)) ;;
  embedding <- item (emb_data response) 0 ;;
  print (T "\n" :: rule 70) ;;
  print [T "Embedding Generated Successfully!"] ;;
  print (rule 70) ;;
  print [T "Model: "; V model] ;;
  print [T "Dimensions: "; I (Z.of_nat (length embedding))] ;;
  print [T "Tokens used: "; I (emb_total_tokens response)] ;;
  print [T "\nFirst 10 values (preview):"] ;;
  print [T "["] ;;
  prints (map (fun x => [T "  "; F 8 x; T ","]) (take 10 embedding)) ;;
  print [T "  ..."] ;;
  print [T "]"] ;;
  print [T "\nStatistics:"] ;;
  mean <- numpy_call (fun np => Some (np_mean np embedding)) ;;
  print [T "  Mean: "; F 8 mean] ;;
  std <- numpy_call (fun np => Some (np_std np embedding)) ;;
  print [T "  Std Dev: "; F 8 std] ;;
  lowest <- numpy_call (fun np => np_min np embedding) ;;
  print [T "  Min: "; F 8 lowest] ;;
  highest <- numpy_call (fun np => np_max np embedding) ;;
  print [T "  Max: "; F 8 highest] ;;
  norm <- numpy_call (fun np => Some (np_norm np embedding)) ;;
  print [T "  L2 Norm: "; F 8 norm] ;;
  match save_file with
  | Some path =>
      when (truthy path)
        (write_json path
           (JObject [("text", JString text);
                     ("model", JString model);
                     ("embedding", JArray (map JFloat embedding));
                     ("dimensions", JInt (Z.of_nat (length embedding)));
                     ("usage",
                      JObject
                        [("prompt_tokens", JInt (emb_prompt_tokens response));
                         ("total_tokens", JInt (emb_total_tokens response))])]) ;;
         print [T "\n✓ Embedding saved to: "; V path])
  | None => ret tt
  end ;;
  print (T "\n" :: rule 70) ;;
  print [T "Full Embedding Vector:"] ;;
  print (rule 70) ;;
  print [J embedding].

Definition main : M unit :=
  api_key <- getenv KEY ;;
  when (key_missing api_key)
    (print missing_key_error ;; print missing_key_hint ;; sys_exit 1) ;;
  let client := key_value api_key in
  argv <- sys_argv ;;
  when (length argv <? 2)%nat (prints usage ;; sys_exit 1) ;;
  let compare_mode := bool_decide (arg_or argv 1 [] = of_string "--compare") in
  when (compare_mode && (length argv <? 4)%nat)
    (print [T "ERROR: --compare requires two text arguments"] ;;
     print [T ("Usage: python text_embeddings.py --compare " ++ QUOTE ++ "text1"
              ++ QUOTE ++ " " ++ QUOTE ++ "text2" ++ QUOTE ++ " [model]")%string] ;;
     sys_exit 1) ;;
  let text1 := arg_or argv 2 [] in
  let text2 := arg_or argv 3 [] in
  let text := arg_or argv 1 [] in
  let model :=
    if compare_mode then arg_or argv 4 default_model
    else arg_or argv 2 default_model in
  let save_file :=
    match index_of (of_string "--save") argv with
    | Some save_index => argv !! (save_index + 1)%nat
    | None => None
    end in
  when (negb (bool_decide (model ∈ valid_models)))
    (print [T "ERROR: Invalid model '"; V model; T "'"] ;;
     print [T "Valid models: "; V (join (of_string ", ") valid_models)] ;;
     sys_exit 1) ;;
  try_except
    (print (rule 70) ;;
     print [T "OpenAI Text Embeddings Generator"] ;;
     print (rule 70) ;;
     (if compare_mode
      then compare client model text1 text2
      else embed_one client model text save_file) ;;
     print (rule 70))
    handler.

End text_embeddings.

(** ** The eight scripts *)

Inductive script :=
| ChatGpt
| CheckFineTuneStatus
| TextToSpeechFile
| TextToSpeech
| UseFineTunedModel
| FineTune
| BatchEmbeddings
| TextEmbeddings.

(** The [main] of a script; [turns] bounds the polling loop of
    [fine_tune.py]. *)
Definition main_of (turns : nat) (s : script) : M unit :=
  match s with
  | ChatGpt => chat_gpt.main
  | CheckFineTuneStatus => check_fine_tune_status.main
  | TextToSpeechFile => text_to_speech_file.main
  | TextToSpeech => text_to_speech.main
  | UseFineTunedModel => use_fine_tuned_model.main
  | FineTune => fine_tune.main turns
  | BatchEmbeddings => batch_embeddings.main
  | TextEmbeddings => text_embeddings.main
  end.

(** * Properties *)

(** ** Vocabulary of the statements *)

(** A string of whitespace only. *)
Definition blank (s : str) : bool := forallb isspace s.

(** A string that neither starts nor ends with whitespace. *)
Definition trimmed (s : str) : Prop := lstrip s = s /\ rstrip s = s.

(** The text the loop accumulates for a run of sentences: each one followed
    by a space. *)
Definition render (group : list str) : str :=
  concat (map (fun s => s ++ [SPACE]) group).

(** The chunk a run of sentences becomes. *)
Definition chunk_of (group : list str) : str := strip (render group).

(** The characters of a string that are not whitespace. *)
Definition content (s : str) : str :=
  List.filter (fun c => negb (isspace c)) s.

(** The characters of a string that are neither whitespace nor a full
    stop. *)
Definition letters (s : str) : str :=
  List.filter (fun c => negb (c =? DOT)%N) (content s).

(** The grouping of the sentences the loop performs, kept next to the
    text it accumulates: the finished groups and the sentences of the
    current chunk. *)
Definition group_step (max_length : Z) (st : list (list str) * list str)
    (sentence : str) : list (list str) * list str :=
  let '(groups, current) := st in
  if len (render current) + len sentence + 1 <=? max_length
  then (groups, current ++ [sentence])
  else ((match current with [] => groups | _ => groups ++ [current] end),
        [sentence]).

Definition group_flush (st : list (list str) * list str) : list (list str) :=
  let '(groups, current) := st in
  match current with [] => groups | _ => groups ++ [current] end.

Definition groups_of (max_length : Z) (sentences : list str)
  : list (list str) :=
  group_flush (fold_left (group_step max_length) sentences ([], [])).

(** A group the loop can close: it is not empty, and it fits the budget
    with its separators unless it is one sentence. *)
Definition closed_group (max_length : Z) (group : list str) : Prop :=
  group <> [] /\ (len (render group) <= max_length \/ exists s, group = [s]).

(** The empty sentences at the start of a group, and at both ends. *)
Fixpoint drop_empty (group : list str) : list str :=
  match group with
  | [] :: group' => drop_empty group'
  | _ => group
  end.

Definition trim_empty (group : list str) : list str :=
  rev (drop_empty (rev (drop_empty group))).

(** The greedy algorithm of the specification, on the sentences in order:
    a sentence joins the current chunk while the length of the current
    chunk, plus the length of the sentence, plus one, stays within
    [max_length]; otherwise the current chunk, if there is one, is
    finalized by [strip] and the sentence starts a new chunk; what is left
    at the end is finalized too. *)
Fixpoint greedy (max_length : Z) (current : str) (sentences : list str)
  : list str :=
  match sentences with
  | [] => if truthy current then [strip current] else []
  | sentence :: rest =>
      if len current + len sentence + 1 <=? max_length
      then greedy max_length (current ++ sentence ++ [SPACE]) rest
      else (if truthy current then [strip current] else [])
           ++ greedy max_length (sentence ++ [SPACE]) rest
  end.

(** The replies of the service to the speech requests for these chunks,
    sent in order as its requests number [n], [n + 1], ... *)
Fixpoint answers (replies : nat -> forall A, request A -> exn + A) (n : nat)
    (model voice : str) (chunks : list str) : list (exn + bytes) :=
  match chunks with
  | [] => []
  | chunk :: rest =>
      replies n bytes (AudioSpeechCreate model voice chunk)
      :: answers replies (S n) model voice rest
  end.

(** The speech requests for these chunks, as actions of the process. *)
Definition speech_calls (api_key model voice : str) (chunks : list str)
  : list action :=
  map (fun chunk => ACall api_key (AudioSpeechCreate model voice chunk)) chunks.

(** The name [main] gives the output file. *)
Definition output_file_of (argv : list str) : str :=
  let output_file := arg_or argv 2 (of_string "speech_output.mp3") in
  if existsb (endswith output_file) audio_extensions
  then output_file
  else output_file ++ of_string ".mp3".

(** The file system lets the process open this path for writing. *)
Definition can_write (w : World) (path : str) : Prop :=
  match fs w !! path with
  | Some (File _ writable _) => writable = true
  | Some Dir => False
  | None => create_error w path = None
  end.

(** A printed line that reports an error. *)
Definition is_error_line (l : line) : bool :=
  match l with
  | T s :: _ => String.prefix "ERROR" s || String.prefix "\nERROR" s
  | _ => false
  end.

Definition is_print (a : action) : bool :=
  match a with APrint _ => true | _ => false end.

(** Two worlds that differ in their traces only. *)
Definition same_world (w w' : World) : Prop :=
  environ w' = environ w /\ argv w' = argv w /\ fs w' = fs w
  /\ create_error w' = create_error w /\ replies w' = replies w
  /\ read_text_mode w' = read_text_mode w
  /\ json_dump w' = json_dump w /\ np w' = np w.

(** *** Worlds to run [text_to_speech_file.py] in

    The key is set, the command line names [article.txt], which holds
    [contents]; the service answers its n-th request as [reply n] says. *)
Definition demo_replies (reply : nat -> exn + bytes)
  : nat -> forall A, request A -> exn + A :=
  fun n A req =>
    match req in request A return exn + A with
    | AudioSpeechCreate _ _ _ => reply n
    | _ => inl (APIError [])
    end.

Definition demo_world (contents : str) (reply : nat -> exn + bytes) : World :=
  mkWorld {[ KEY := of_string "sk-demo" ]}
          (map of_string ["text_to_speech_file.py"; "article.txt"])
          {[ of_string "article.txt" := File true false [x00] ]}
          (fun _ => None)
          (demo_replies reply)
          (fun _ => Some contents)
          (fun _ => [])
          {| np_dot := fun _ _ => None; np_norm := fun _ => 0%float;
             np_mean := fun _ => 0%float; np_std := fun _ => 0%float;
             np_min := fun _ => None; np_max := fun _ => None |}
          [].

(** Two sentences of 3000 letters, too long for one chunk together. *)
Definition two_sentences : str :=
  repeat 97%N 3000 ++ of_string ". " ++ repeat 98%N 3000.

(** A text with an empty sentence between two long ones. *)
Definition gap_text : str :=
  repeat 97%N 4095 ++ of_string ". . " ++ repeat 98%N 4096.

Definition reply_ok (n : nat) : exn + bytes :=
  inr (if (n =? 0)%nat then [x01; x02] else [x03]).

Definition reply_second_fails (n : nat) : exn + bytes :=
  if (n =? 1)%nat then inl (RateLimitError (of_string "quota"))
  else inr [x01; x02].

(** A world in which nothing is set: no variable, no argument, no file. *)
Definition bare_world : World :=
  mkWorld ∅ [] ∅ (fun _ => None) (demo_replies reply_ok) (fun _ => None)
          (fun _ => [])
          {| np_dot := fun _ _ => None; np_norm := fun _ => 0%float;
             np_mean := fun _ => 0%float; np_std := fun _ => 0%float;
             np_min := fun _ => None; np_max := fun _ => None |}
          [].

Definition is_empty_speech (a : action) : bool :=
  match a with
  | ACall _ (AudioSpeechCreate _ _ []) => true
  | _ => false
  end.

(** An action that neither opens a file nor reaches the service. *)
Definition is_passive (a : action) : bool :=
  match a with
  | AGetenv _ | AArgv | APrint _ | AExists _ => true
  | _ => false
  end.


(** The one request of [chat_gpt.py]. *)
Definition chat_request : request chat_completion :=
  ChatCompletionsCreate
    (of_string "ft:gpt-3.5-turbo-0125:born2rule::CSC05TYi")
    (of_string "You are a helpful assistant.")
    (of_string "can u give the model id that u are using ? ai model")
    150 temperature.

(** The name [text_to_speech.py] gives its output file. *)
Definition speech_file_of (argv : list str) : str :=
  let output_file := arg_or argv 2 (of_string "speech.mp3") in
  if existsb (endswith output_file) audio_extensions
  then output_file
  else output_file ++ of_string ".mp3".

(** An [except] ladder that only prints and exits: what is known of its
    run. *)
Definition reports (handler : exn -> M unit) : Prop :=
  forall e w, exists tail w',
    handler e w = (Exit 1, w')
    /\ same_world w w'
    /\ trace w' = trace w ++ tail
    /\ forallb is_print tail = true
    /\ existsb is_error_line (stdout tail) = true.

(** The batches of the embeddings requests of a trace, in order. *)
Definition batch_inputs (tr : list action) : list (list str) :=
  omap (fun a => match a with
                 | ACall _ (EmbeddingsCreate _ (inr batch)) => Some batch
                 | _ => None
                 end) tr.

(** The service answers every request for a batch of texts for [model],
    with one vector per text. *)
Definition embeds_batches (w : World) (model : str) : Prop :=
  forall n batch, batch <> [] -> exists response,
    replies w n _ (EmbeddingsCreate model (inr batch)) = inr response
    /\ length (emb_data response) = length batch.

(** A service that answers an embeddings request with one vector, of one
    number, per text. *)
Definition embedding_replies : nat -> forall A, request A -> exn + A :=
  fun n A req =>
    match req in request A return exn + A with
    | EmbeddingsCreate _ input =>
        inr {| emb_data := match input with
                           | inl _ => [[1%float]]
                           | inr batch => map (fun _ => [1%float]) batch
                           end;
               emb_prompt_tokens := 1; emb_total_tokens := 1 |}
    | _ => inl (APIError [])
    end.

Definition embedding_world : World :=
  mkWorld {[ KEY := of_string "sk-demo" ]} [] ∅ (fun _ => None)
          embedding_replies (fun _ => None) (fun _ => []) (np bare_world) [].

(** The status the service gives for a file at its [n]-th request, if it
    answers. *)
Definition retrieve_status (w : World) (n : nat) (id : str) : option str :=
  match replies w n _ (FilesRetrieve id) with
  | inr file_info => Some (file_status file_info)
  | inl _ => None
  end.

Definition PROCESSED : str := of_string "processed".
Definition ERROR : str := of_string "error".

(** A service for which a file is processed at its third look. *)
Definition polling_replies : nat -> forall A, request A -> exn + A :=
  fun n A req =>
    match req in request A return exn + A with
    | FilesRetrieve id =>
        inr {| file_id := id; file_filename := [];
               file_status := if (n <? 2)%nat then of_string "uploaded"
                              else PROCESSED |}
    | _ => inl (APIError [])
    end.

Definition polling_world : World :=
  mkWorld {[ KEY := of_string "sk-demo" ]} [] ∅ (fun _ => None)
          polling_replies (fun _ => None) (fun _ => []) (np bare_world) [].

(** The pauses of a trace. *)
Definition sleeps (tr : list action) : list action :=
  List.filter (fun a => match a with ASleep _ => true | _ => false end) tr.

(** What a run may touch.  The file a script reads and the file it writes,
    as its command line names them. *)
Definition input_of (s : script) (argv : list str) : option str :=
  match s with
  | TextToSpeechFile | BatchEmbeddings => Some (arg_or argv 1 [])
  | FineTune => Some (of_string "training_data.jsonl")
  | _ => None
  end.

Definition output_of (s : script) (argv : list str) : option str :=
  match s with
  | TextToSpeechFile => Some (output_file_of argv)
  | TextToSpeech => Some (speech_file_of argv)
  | BatchEmbeddings => Some (arg_or argv 2 (of_string "embeddings.json"))
  | TextEmbeddings =>
      match index_of (of_string "--save") argv with
      | Some save_index => argv !! (save_index + 1)%nat
      | None => None
      end
  | _ => None
  end.

(** An action within these bounds: the variable looked up is the key, a
    request goes under [key], the file looked for or opened for reading is
    [input], the file opened for writing or measured is [output]. *)
Definition allowed (key input output : option str) (a : action) : Prop :=
  match a with
  | AGetenv name => name = KEY
  | AArgv | APrint _ | ASleep _ => True
  | AExists path | AOpenRead path => input = Some path
  | AOpenWrite path | AStat path => output = Some path
  | ACall api_key _ => key = Some api_key
  end.

(** A run of [m] from [w] adds actions that satisfy [P] only, and leaves
    the files it did not open for writing as they were. *)
Definition confined_at (P : action -> Prop) {A} (m : M A) (w : World) : Prop :=
  exists tail,
    trace (snd (m w)) = trace w ++ tail
    /\ Forall P tail
    /\ (forall q, ~ In (AOpenWrite q) tail -> fs (snd (m w)) !! q = fs w !! q).

Definition confined (P : action -> Prop) {A} (m : M A) : Prop :=
  forall w, confined_at P m w.

(** A world with the key set, the given command line and files; every
    file decodes to [decoded]. *)
Definition run_world (args : list string) (files : gmap str node)
    (decoded : option str) (reply : nat -> exn + bytes) : World :=
  mkWorld {[ KEY := of_string "sk-demo" ]} (map of_string args) files
          (fun _ => None) (demo_replies reply) (fun _ => decoded)
          (fun _ => []) (np bare_world) [].


(** A service that answers a chat request with one choice. *)
Definition chat_replies : nat -> forall A, request A -> exn + A :=
  fun n A req =>
    match req in request A return exn + A with
    | ChatCompletionsCreate _ _ _ _ _ =>
        inr {| choices := [of_string "gpt-3.5-turbo"]; chat_total_tokens := 42 |}
    | _ => inl (APIError [])
    end.

Definition chat_world : World :=
  mkWorld {[ KEY := of_string "sk-demo" ]} [of_string "chat_gpt.py"] ∅
          (fun _ => None) chat_replies (fun _ => None) (fun _ => [])
          (np bare_world) [].

(** A world for [fine_tune.py]: the training file is there, the service
    refuses the upload. *)
Definition training_world : World :=
  run_world ["fine_tune.py"]
    {[ of_string "training_data.jsonl" := File true true [x00] ]}
    None reply_ok.

(** ** Two runs of the chunker *)

Example split_text_hello :
  split_text (of_string "Hello world. This is a test. ") 15
  = [of_string "Hello world."; of_string "This is a test."; []].
Proof. reflexivity. Qed.

Example split_text_no_delimiter :
  split_text (of_string "one two three") 4096 = [of_string "one two three."].
Proof. reflexivity. Qed.

(** ** Whitespace stripping *)

Section Strip.

Implicit Types s a b : str.

Lemma lstrip_app a b :
  lstrip (a ++ b) = if blank a then lstrip b else lstrip a ++ b.
Proof.
  induction a as [|c a IH]; simpl; [done|].
  destruct (isspace c); simpl; done.
Qed.

Lemma blank_app a b : blank (a ++ b) = blank a && blank b.
Proof. apply forallb_app. Qed.

Lemma blank_rev s : blank (rev s) = blank s.
Proof.
  induction s as [|c s IH]; simpl; [done|].
  rewrite blank_app, IH. simpl. rewrite andb_true_r. apply andb_comm.
Qed.

Lemma lstrip_blank s : blank s = true -> lstrip s = [].
Proof.
  induction s as [|c s IH]; simpl; [done|].
  destruct (isspace c); simpl; [done | discriminate].
Qed.

Lemma lstrip_nil_blank s : lstrip s = [] -> blank s = true.
Proof.
  induction s as [|c s IH]; simpl; [done|].
  destruct (isspace c); simpl; [done | discriminate].
Qed.

(** [rstrip] is [lstrip] seen from the other end. *)
Lemma rstrip_rev s : rstrip s = rev (lstrip (rev s)).
Proof.
  induction s as [|c s IH]; [done|].
  cbn [rstrip rev]. rewrite lstrip_app, blank_rev, IH.
  destruct (blank s) eqn:Hb.
  - rewrite lstrip_blank by (by rewrite blank_rev). simpl.
    by destruct (isspace c).
  - rewrite rev_unit.
    destruct (rev (lstrip (rev s))) eqn:E; [|done].
    apply (f_equal (@rev char)) in E. rewrite rev_involutive in E. simpl in E.
    apply lstrip_nil_blank in E. rewrite blank_rev in E. congruence.
Qed.

Lemma rstrip_app a b :
  rstrip (a ++ b) = if blank b then rstrip a else a ++ rstrip b.
Proof.
  rewrite !rstrip_rev. rewrite rev_app_distr, lstrip_app, blank_rev.
  destruct (blank b); [done|].
  by rewrite rev_app_distr, rev_involutive.
Qed.

Lemma rstrip_blank s : blank s = true -> rstrip s = [].
Proof.
  intros H. rewrite rstrip_rev, lstrip_blank; [done|]. by rewrite blank_rev.
Qed.

Lemma rstrip_nil_blank s : rstrip s = [] -> blank s = true.
Proof.
  rewrite rstrip_rev. intros H. rewrite <- blank_rev. apply lstrip_nil_blank.
  apply (f_equal (@rev char)) in H. by rewrite rev_involutive in H.
Qed.

Lemma rstrip_cons c s :
  rstrip (c :: s) = if blank s then rstrip [c] else c :: rstrip s.
Proof. apply (rstrip_app [c] s). Qed.

Lemma rstrip_one c : rstrip [c] = if isspace c then [] else [c].
Proof. reflexivity. Qed.

(** The two halves of [strip] commute. *)
Lemma lstrip_rstrip s : lstrip (rstrip s) = rstrip (lstrip s).
Proof.
  induction s as [|c s IH]; [done|].
  rewrite rstrip_cons, rstrip_one. simpl.
  destruct (isspace c) eqn:Hc.
  - destruct (blank s) eqn:Hb.
    + by rewrite (lstrip_blank s Hb).
    + simpl. by rewrite Hc.
  - rewrite rstrip_cons, rstrip_one, Hc.
    destruct (blank s); simpl; by rewrite Hc.
Qed.

Lemma lstrip_idem s : lstrip (lstrip s) = lstrip s.
Proof.
  induction s as [|c s IH]; simpl; [done|].
  destruct (isspace c) eqn:Hc; [done|]. simpl. by rewrite Hc.
Qed.

Lemma rstrip_idem s : rstrip (rstrip s) = rstrip s.
Proof. rewrite !rstrip_rev. by rewrite rev_involutive, lstrip_idem. Qed.

Lemma strip_trimmed s : trimmed (strip s).
Proof.
  split; unfold strip.
  - by rewrite <- lstrip_rstrip, lstrip_idem.
  - apply rstrip_idem.
Qed.

Lemma strip_of_trimmed s : trimmed s -> strip s = s.
Proof. intros [Hl Hr]. unfold strip. by rewrite Hl. Qed.

Lemma strip_nil : strip [] = [].
Proof. reflexivity. Qed.

(** Whitespace at the end of a string does not survive [strip]. *)
Lemma strip_app_blank a b : blank b = true -> strip (a ++ b) = strip a.
Proof.
  intros Hb. unfold strip. rewrite <- !lstrip_rstrip.
  by rewrite rstrip_app, Hb.
Qed.

Lemma strip_blank_app a b : blank a = true -> strip (a ++ b) = strip b.
Proof. intros Ha. unfold strip. by rewrite lstrip_app, Ha. Qed.

Lemma length_lstrip s : (length (lstrip s) <= length s)%nat.
Proof.
  induction s as [|c s IH]; simpl; [lia|]. destruct (isspace c); simpl; lia.
Qed.

Lemma length_rstrip s : (length (rstrip s) <= length s)%nat.
Proof.
  rewrite rstrip_rev, length_rev.
  etrans; [apply length_lstrip|]. by rewrite length_rev.
Qed.

Lemma length_strip s : (length (strip s) <= length s)%nat.
Proof.
  unfold strip. etrans; [apply length_rstrip | apply length_lstrip].
Qed.

Lemma len_strip s : len (strip s) <= len s.
Proof. unfold len. pose proof (length_strip s). lia. Qed.

Lemma len_app a b : len (a ++ b) = len a + len b.
Proof. unfold len. rewrite length_app. lia. Qed.

Lemma len_nonneg s : 0 <= len s.
Proof. unfold len. lia. Qed.

Lemma isspace_SPACE : isspace SPACE = true.
Proof. reflexivity. Qed.

Lemma isspace_DOT : isspace DOT = false.
Proof. reflexivity. Qed.

(** [lstrip] keeps a suffix, so the last character when one is left. *)
Lemma last_lstrip s : lstrip s <> [] -> last (lstrip s) = last s.
Proof.
  induction s as [|c s IH]; simpl; [done|].
  destruct (isspace c) eqn:Hc; [|done].
  intros H. rewrite (IH H). destruct s as [|d s]; [done|]. done.
Qed.

Lemma trimmed_snoc s c : lstrip s = s -> s <> [] -> isspace c = false ->
  trimmed (s ++ [c]).
Proof.
  intros Hl Hne Hc. split.
  - rewrite lstrip_app. destruct (blank s) eqn:Hb.
    + apply lstrip_blank in Hb. congruence.
    + by rewrite Hl.
  - rewrite rstrip_app. simpl. by rewrite Hc.
Qed.

Lemma content_lstrip s : content (lstrip s) = content s.
Proof.
  unfold content. induction s as [|c s IH]; [done|].
  simpl. destruct (isspace c) eqn:Hc; simpl; [done|]. by rewrite Hc.
Qed.

Lemma content_app a b : content (a ++ b) = content a ++ content b.
Proof. apply List.filter_app. Qed.

Lemma content_rev s : content (rev s) = rev (content s).
Proof.
  induction s as [|c s IH]; [done|].
  cbn [rev]. rewrite content_app, IH. unfold content. simpl.
  destruct (isspace c); simpl; [by rewrite app_nil_r | done].
Qed.

Lemma content_strip s : content (strip s) = content s.
Proof.
  unfold strip. rewrite rstrip_rev.
  by rewrite content_rev, content_lstrip, content_rev, rev_involutive,
    content_lstrip.
Qed.

End Strip.

(** ** Sentences *)

Section Sentences.

Implicit Types s : str.

Lemma normalize_trimmed s : trimmed (normalize s).
Proof.
  unfold normalize. pose proof (strip_trimmed s) as [Hl Hr].
  destruct (truthy (strip s) && negb (endswith_dot (strip s))) eqn:H.
  - apply andb_true_iff in H as [Hne _].
    apply trimmed_snoc; [done | | done].
    intros E. by rewrite E in Hne.
  - done.
Qed.

(** A sentence is empty or ends with its full stop. *)
Lemma normalize_dot s : normalize s = [] \/ last (normalize s) = Some DOT.
Proof.
  unfold normalize.
  destruct (truthy (strip s)) eqn:Hne; simpl.
  - right. unfold endswith_dot.
    destruct (last (strip s)) as [c|] eqn:Hlast; simpl.
    + destruct (N.eqb_spec c DOT) as [->|Hc]; simpl; [done|].
      apply last_snoc.
    + apply last_snoc.
  - left. by destruct (strip s).
Qed.

Lemma render_nil : render [] = [].
Proof. reflexivity. Qed.

Lemma render_cons s g : render (s :: g) = s ++ [SPACE] ++ render g.
Proof. unfold render. simpl. by rewrite <- app_assoc. Qed.

Lemma render_snoc g s : render (g ++ [s]) = render g ++ s ++ [SPACE].
Proof.
  unfold render. rewrite map_app, concat_app. simpl. by rewrite app_nil_r.
Qed.

Lemma render_one s : render [s] = s ++ [SPACE].
Proof. unfold render. simpl. by rewrite app_nil_r. Qed.

Lemma truthy_render g : truthy (render g) = match g with [] => false | _ => true end.
Proof.
  destruct g as [|s g]; [done|]. rewrite render_cons.
  by destruct s.
Qed.

(** A chunk of one sentence is that sentence. *)
Lemma chunk_of_one s : trimmed s -> chunk_of [s] = s.
Proof.
  intros H. unfold chunk_of. rewrite render_one.
  rewrite strip_app_blank by done. by apply strip_of_trimmed.
Qed.

(** The text accumulated for a group ends with a space, which [strip]
    takes off. *)
Lemma len_chunk_of g : g <> [] -> len (chunk_of g) <= len (render g) - 1.
Proof.
  intros Hg. destruct (exists_last Hg) as (g' & s & ->).
  unfold chunk_of. rewrite render_snoc, !app_assoc.
  rewrite strip_app_blank by done.
  pose proof (len_strip (render g' ++ s)). rewrite len_app.
  change (len [SPACE]) with 1. lia.
Qed.

Lemma content_render g : content (render g) = content (concat g).
Proof.
  induction g as [|s g IH]; [done|].
  rewrite render_cons. cbn [concat]. rewrite !content_app, IH. done.
Qed.

End Sentences.

(** ** The loop as a grouping of the sentences *)

Section Grouping.

Variable max_length : Z.

(** The loop of [split_text] and the grouping run in step. *)
Lemma split_step_group raw groups current :
  split_step max_length (map chunk_of groups, render current) raw
  = (let '(groups', current') :=
       group_step max_length (groups, current) (normalize raw) in
     (map chunk_of groups', render current')).
Proof.
  unfold split_step, group_step.
  destruct (len (render current) + len (normalize raw) + 1 <=? max_length).
  - by rewrite render_snoc.
  - rewrite render_one, truthy_render.
    destruct current; [done|]. by rewrite map_app.
Qed.

Lemma split_fold_group raws : forall groups current,
  fold_left (split_step max_length) raws (map chunk_of groups, render current)
  = (let '(groups', current') :=
       fold_left (group_step max_length) (map normalize raws) (groups, current) in
     (map chunk_of groups', render current')).
Proof.
  induction raws as [|raw raws IH]; intros groups current; [done|].
  cbn [fold_left map]. rewrite split_step_group.
  destruct (group_step max_length (groups, current) (normalize raw)) as [g c].
  apply IH.
Qed.

Lemma split_flush_group groups current :
  split_flush (map chunk_of groups, render current)
  = map chunk_of (group_flush (groups, current)).
Proof.
  unfold split_flush, group_flush. rewrite truthy_render.
  destruct current; [done|]. by rewrite map_app.
Qed.

(** The chunks are the groups of the sentences, rendered and stripped. *)
Lemma split_text_groups text :
  split_text text max_length
  = map chunk_of (groups_of max_length (map normalize (sentences_of text))).
Proof.
  unfold split_text, groups_of.
  change (@nil str, @nil char) with (map chunk_of [], render []).
  rewrite split_fold_group.
  destruct (fold_left _ _ _) as [g c]. apply split_flush_group.
Qed.

(** The grouping keeps every sentence, in order. *)
Lemma group_fold_concat ss : forall groups current,
  concat (group_flush (fold_left (group_step max_length) ss (groups, current)))
  = concat groups ++ current ++ ss.
Proof.
  induction ss as [|s ss IH]; intros groups current.
  - simpl. rewrite app_nil_r. destruct current; simpl.
    + by rewrite app_nil_r.
    + rewrite concat_app. simpl. by rewrite app_nil_r.
  - cbn [fold_left]. unfold group_step at 2.
    destruct (len (render current) + len s + 1 <=? max_length).
    + rewrite IH. by rewrite <- app_assoc.
    + rewrite IH. destruct current; simpl; [done|].
      rewrite concat_app. simpl. by rewrite app_nil_r, <- !app_assoc.
Qed.

Lemma groups_of_concat ss : concat (groups_of max_length ss) = ss.
Proof. unfold groups_of. by rewrite group_fold_concat. Qed.

(** Every group is closed. *)
Lemma group_fold_closed ss : forall groups current,
  Forall (closed_group max_length) groups ->
  current = [] \/ closed_group max_length current ->
  Forall (closed_group max_length)
    (group_flush (fold_left (group_step max_length) ss (groups, current))).
Proof.
  induction ss as [|s ss IH]; intros groups current Hg Hc.
  - simpl. destruct current; [done|].
    apply Forall_app. split; [done|]. apply Forall_singleton.
    by destruct Hc.
  - cbn [fold_left]. unfold group_step at 2.
    destruct (Z.leb_spec (len (render current) + len s + 1) max_length) as [Hle|Hgt].
    + apply IH; [done|]. right. split; [by destruct current|].
      left. rewrite render_snoc, !len_app. change (len [SPACE]) with 1. lia.
    + apply IH.
      * destruct current; [done|]. apply Forall_app. split; [done|].
        apply Forall_singleton. by destruct Hc.
      * right. split; [done|]. right. by exists s.
Qed.

Lemma groups_of_closed ss : Forall (closed_group max_length) (groups_of max_length ss).
Proof. unfold groups_of. apply group_fold_closed; [done | by left]. Qed.

(** There is a chunk as soon as there is a sentence. *)
Lemma groups_of_nonempty ss : ss <> [] -> groups_of max_length ss <> [].
Proof.
  intros Hss Hg. pose proof (groups_of_concat ss) as H.
  rewrite Hg in H. simpl in H. congruence.
Qed.

End Grouping.

Lemma split2_nonempty c1 c2 s : split2 c1 c2 s <> [].
Proof.
  induction s as [|x s IH]; [done|]. simpl.
  destruct s as [|y s]; [done|].
  destruct ((x =? c1)%N && (y =? c2)%N); [done|].
  destruct (split2 c1 c2 (y :: s)); done.
Qed.

Lemma sentences_of_nonempty text : sentences_of text <> [].
Proof. apply split2_nonempty. Qed.

(** ** Shape of the chunks *)

Section Chunks.

Implicit Types s : str.

Lemma trimmed_head s c : lstrip s = s -> head s = Some c -> isspace c = false.
Proof.
  destruct s as [|d s]; [done|]. simpl. intros Hl [= ->].
  destruct (isspace c) eqn:Hc; [|done].
  pose proof (length_lstrip s) as Hlen. rewrite Hl in Hlen. simpl in Hlen. lia.
Qed.

Lemma trimmed_last s c : rstrip s = s -> last s = Some c -> isspace c = false.
Proof.
  intros Hr Hlast. apply (trimmed_head (rev s)).
  - rewrite rstrip_rev in Hr. rewrite <- Hr at 2. by rewrite rev_involutive.
  - apply last_Some in Hlast as [s' ->]. by rewrite rev_unit.
Qed.

Lemma in_concat_groups (groups : list (list str)) (g : list str) s :
  In g groups -> In s g -> In s (concat groups).
Proof. intros Hg Hs. apply in_concat. by exists g. Qed.

(** The text accumulated for sentences that end with a full stop, with
    its trailing whitespace off, is empty or ends with a full stop. *)
Lemma rstrip_render_dot (g : list str) :
  Forall (fun s => s = [] \/ last s = Some DOT) g ->
  rstrip (render g) = [] \/ last (rstrip (render g)) = Some DOT.
Proof.
  induction g as [|s g IH] using rev_ind; intros Hg; [by left|].
  apply Forall_app in Hg as [Hg Hs]. apply List.Forall_inv in Hs.
  rewrite render_snoc, app_assoc, rstrip_app. simpl.
  destruct Hs as [->|Hs].
  - rewrite app_nil_r. by apply IH.
  - right. apply last_Some in Hs as [s' ->].
    rewrite app_assoc, rstrip_app. simpl.
    apply last_snoc.
Qed.

Lemma chunk_of_dot (g : list str) :
  Forall (fun s => s = [] \/ last s = Some DOT) g ->
  chunk_of g <> [] -> last (chunk_of g) = Some DOT.
Proof.
  intros Hg Hne. unfold chunk_of, strip in *.
  rewrite <- lstrip_rstrip in *. rewrite last_lstrip by done.
  destruct (rstrip_render_dot g Hg) as [E|E]; [|done].
  by rewrite E in Hne.
Qed.

End Chunks.

(** ** Claims on the chunker *)

(** C9. Every chunk [split_text] returns starts and ends with a character
    that is not whitespace (it is left unchanged by [lstrip] and by
    [rstrip]), and every chunk that is not empty ends with ['.']. *)
Theorem split_text_chunks_trimmed_dotted (text : str) (max_length : Z) :
  Forall (fun chunk =>
            trimmed chunk
            /\ (forall c, head chunk = Some c -> isspace c = false)
            /\ (forall c, last chunk = Some c -> isspace c = false)
            /\ (chunk <> [] -> last chunk = Some DOT))
         (split_text text max_length).
Proof.
  rewrite split_text_groups.
  set (ss := map normalize (sentences_of text)).
  apply List.Forall_forall. intros chunk Hin.
  apply in_map_iff in Hin as (g & <- & Hg).
  pose proof (strip_trimmed (render g)) as Ht. fold (chunk_of g) in Ht.
  split; [done|]. destruct Ht as [Hl Hr].
  split; [intros c; by apply trimmed_head|].
  split; [intros c; by apply trimmed_last|].
  apply chunk_of_dot. apply List.Forall_forall. intros s Hs.
  assert (Hss : In s ss).
  { rewrite <- (groups_of_concat max_length ss).
    by apply (in_concat_groups _ g). }
  apply in_map_iff in Hss as (raw & <- & _). apply normalize_dot.
Qed.

(** C1. When every sentence of the text, normalized, is at most
    [max_length] long, so is every chunk.  For any text, the chunks are
    the stripped renderings of consecutive groups of the sentences, and a
    chunk longer than [max_length] is one whose group is a single sentence
    that is itself longer than [max_length]. *)
Theorem split_text_chunk_length (text : str) (max_length : Z) :
  (Forall (fun s => len s <= max_length) (map normalize (sentences_of text)) ->
   Forall (fun chunk => len chunk <= max_length) (split_text text max_length))
  /\ exists groups : list (list str),
       concat groups = map normalize (sentences_of text)
       /\ split_text text max_length = map chunk_of groups
       /\ Forall (fun g => max_length < len (chunk_of g) ->
                    exists s, g = [s] /\ chunk_of g = s /\ max_length < len s)
                 groups.
Proof.
  set (ss := map normalize (sentences_of text)).
  assert (Hone : forall g, In g (groups_of max_length ss) ->
            len (chunk_of g) <= max_length
            \/ exists s, g = [s] /\ chunk_of g = s /\ In s ss).
  { intros g Hg.
    pose proof (groups_of_closed max_length ss) as Hc.
    rewrite List.Forall_forall in Hc. destruct (Hc g Hg) as [Hne [Hfit|[s ->]]].
    - left. pose proof (len_chunk_of g Hne). lia.
    - right. exists s. split; [done|].
      assert (Hs : In s ss).
      { rewrite <- (groups_of_concat max_length ss).
        apply (in_concat_groups _ [s]); [done | by left]. }
      split; [|done]. apply chunk_of_one.
      apply in_map_iff in Hs as (raw & <- & _). apply normalize_trimmed. }
  split.
  - intros Hfit. rewrite split_text_groups. fold ss.
    apply List.Forall_forall. intros chunk Hin.
    apply in_map_iff in Hin as (g & <- & Hg).
    destruct (Hone g Hg) as [H|(s & -> & -> & Hs)]; [done|].
    rewrite List.Forall_forall in Hfit. by apply Hfit.
  - exists (groups_of max_length ss).
    split; [apply groups_of_concat|].
    split; [apply split_text_groups|].
    apply List.Forall_forall. intros g Hg Hlong.
    destruct (Hone g Hg) as [H|(s & -> & E & Hs)]; [lia|].
    exists s. rewrite E in Hlong |- *. done.
Qed.

Lemma split_text_chunk_length_witness :
  Forall (fun chunk => len chunk <= 20)
         (split_text (of_string "Hello world. This is a test.") 20).
Proof.
  apply (proj1 (split_text_chunk_length
                  (of_string "Hello world. This is a test.") 20)).
  vm_compute. repeat constructor; discriminate.
Defined.

(** C6. A text that is a single sentence (it holds no [". "]) longer, once
    normalized, than [max_length] gives exactly one chunk, that sentence,
    which exceeds the budget. *)
Theorem split_text_single_oversized (text raw : str) (max_length : Z) :
  sentences_of text = [raw] ->
  max_length < len (normalize raw) ->
  split_text text max_length = [normalize raw]
  /\ Forall (fun chunk => max_length < len chunk) (split_text text max_length).
Proof.
  intros Hs Hlong.
  assert (E : split_text text max_length = [normalize raw]).
  { unfold split_text. rewrite Hs. cbn [fold_left split_step].
    assert (Hc : strip (normalize raw ++ [SPACE]) = normalize raw).
    { rewrite strip_app_blank by done.
      apply strip_of_trimmed, normalize_trimmed. }
    assert (Ht : truthy (normalize raw ++ [SPACE]) = true)
      by (by destruct (normalize raw)).
    destruct (len [] + len (normalize raw) + 1 <=? max_length);
      cbn [truthy split_flush app]; by rewrite Ht, Hc. }
  rewrite E. split; [done|]. by apply Forall_singleton.
Qed.

Lemma split_text_single_oversized_witness :
  split_text (of_string "abcdefgh") 3 = [of_string "abcdefgh."]
  /\ Forall (fun chunk => 3 < len chunk) (split_text (of_string "abcdefgh") 3).
Proof.
  apply (split_text_single_oversized (of_string "abcdefgh") (of_string "abcdefgh") 3).
  - reflexivity.
  - vm_compute. reflexivity.
Defined.

(** C4, as the code has it.  On the 29 characters of
    ["Hello world. This is a test. "] with [max_length = 15], [split_text]
    returns three chunks: the two sentences and, for the empty sentence
    after the last [". "], an empty chunk. *)
Theorem split_text_scenario :
  len (of_string "Hello world. This is a test. ") = 29
  /\ split_text (of_string "Hello world. This is a test. ") 15
     = [of_string "Hello world."; of_string "This is a test."; []].
Proof. split; reflexivity. Qed.

(** C4, as stated, fails: the result is not the list of the two
    sentences. *)
Lemma split_text_scenario_not_two :
  split_text (of_string "Hello world. This is a test. ") 15
  <> [of_string "Hello world."; of_string "This is a test."].
Proof. vm_compute. discriminate. Qed.

(** ** Splitting and joining *)

Section SplitJoin.

Variables c1 c2 : char.

Lemma join_cons_head x (pieces : list str) :
  pieces <> [] ->
  join [c1; c2] (cons_head x pieces) = x :: join [c1; c2] pieces.
Proof.
  destruct pieces as [|p [|q ps]]; [done | done | done].
Qed.

(** Two-step induction on strings, the way [split2] recurses. *)
Lemma str_ind2 (P : str -> Prop) :
  P [] -> (forall x, P [x]) ->
  (forall x y s, P s -> P (y :: s) -> P (x :: y :: s)) ->
  forall s, P s.
Proof.
  intros H0 H1 H2 s.
  assert (H : P s /\ forall x, P (x :: s)).
  { induction s as [|y s [IH1 IH2]]; [by split|].
    split; [apply IH2|]. intros x. apply H2; [done | apply IH2]. }
  apply H.
Qed.

Lemma split2_cons2 x y (s : str) :
  split2 c1 c2 (x :: y :: s)
  = if ((x =? c1)%N && (y =? c2)%N)
    then [] :: split2 c1 c2 s
    else cons_head x (split2 c1 c2 (y :: s)).
Proof. reflexivity. Qed.

(** Joining the pieces with the separator gives the string back. *)
Lemma join_split2 (s : str) : join [c1; c2] (split2 c1 c2 s) = s.
Proof.
  induction s as [| x | x y s IH1 IH2] using str_ind2; [done | done |].
  rewrite split2_cons2.
  destruct ((x =? c1)%N && (y =? c2)%N) eqn:E.
  - apply andb_true_iff in E as [->%N.eqb_eq ->%N.eqb_eq].
    pose proof (split2_nonempty c1 c2 s) as Hne.
    destruct (split2 c1 c2 s) as [|p ps] eqn:Es; [done|].
    cbn [join app]. change (c1 :: c2 :: join [c1; c2] (p :: ps) = c1 :: c2 :: s).
    by rewrite IH1.
  - rewrite join_cons_head by apply split2_nonempty. by rewrite IH2.
Qed.

Lemma cons_head_app x (pieces more : list str) :
  pieces <> [] -> cons_head x (pieces ++ more) = cons_head x pieces ++ more.
Proof. by destruct pieces. Qed.

(** A string that ends with the separator has an empty last piece, after
    the pieces of what precedes the separator. *)
Lemma split2_snoc_sep (s : str) :
  c1 <> c2 ->
  split2 c1 c2 (s ++ [c1; c2]) = split2 c1 c2 s ++ [[]].
Proof.
  intros Hne.
  induction s as [| x | x y s IH1 IH2] using str_ind2.
  - simpl. by rewrite !N.eqb_refl.
  - simpl. rewrite N.eqb_refl.
    destruct (N.eqb_spec x c1) as [->|Hx]; simpl.
    + destruct (N.eqb_spec c1 c2); [done|]. by rewrite N.eqb_refl.
    + by rewrite N.eqb_refl.
  - change ((x :: y :: s) ++ [c1; c2]) with (x :: y :: (s ++ [c1; c2])).
    rewrite !split2_cons2.
    destruct ((x =? c1)%N && (y =? c2)%N).
    + by rewrite IH1.
    + change (y :: s ++ [c1; c2]) with ((y :: s) ++ [c1; c2]).
      rewrite IH2. apply cons_head_app, split2_nonempty.
Qed.

End SplitJoin.

Lemma replace_app old new (a b : str) :
  replace old new (a ++ b) = replace old new a ++ replace old new b.
Proof. apply map_app. Qed.

Lemma sentences_of_snoc_delimiter (t : str) :
  sentences_of (t ++ [DOT; SPACE]) = sentences_of t ++ [[]].
Proof.
  unfold sentences_of. rewrite replace_app.
  change (replace LF SPACE [DOT; SPACE]) with [DOT; SPACE].
  by apply split2_snoc_sep.
Qed.

(** ** Chunks as joined sentences *)

Section Joined.

Implicit Types g : list str.

Lemma join_cons (sep p : str) (pieces : list str) :
  pieces <> [] -> join sep (p :: pieces) = p ++ sep ++ join sep pieces.
Proof. by destruct pieces. Qed.

Lemma render_join g s : render g ++ s = join [SPACE] (g ++ [s]).
Proof.
  induction g as [|a g IH]; [done|].
  rewrite render_cons. cbn [app].
  rewrite join_cons by (by destruct g).
  rewrite <- IH. by rewrite <- !app_assoc.
Qed.

Lemma drop_empty_trimmed g : Forall trimmed g -> Forall trimmed (drop_empty g).
Proof.
  induction g as [|s g IH]; intros H; [done|].
  destruct s; [|done]. simpl. apply IH. by inversion H.
Qed.

Lemma lstrip_render g :
  Forall trimmed g -> lstrip (render g) = render (drop_empty g).
Proof.
  induction g as [|s g IH]; intros H; [done|].
  inversion H as [|? ? [Hl Hr] Hg]; subst.
  rewrite render_cons. destruct s as [|c s].
  - simpl. by apply IH.
  - cbn [drop_empty]. rewrite render_cons.
    pose proof (trimmed_head (c :: s) c Hl eq_refl) as Hc.
    simpl. by rewrite Hc.
Qed.

Lemma rstrip_render g :
  Forall trimmed g ->
  rstrip (render g) = join [SPACE] (rev (drop_empty (rev g))).
Proof.
  induction g as [|s g IH] using rev_ind; intros H; [done|].
  apply Forall_app in H as [Hg Hs]. apply List.Forall_inv in Hs.
  destruct Hs as [Hl Hr].
  rewrite render_snoc, app_assoc, rstrip_app. simpl.
  rewrite rev_unit. destruct s as [|c s].
  - rewrite app_nil_r. simpl. by apply IH.
  - cbn [drop_empty]. rewrite <- rev_unit, rev_involutive.
    rewrite rstrip_app.
    destruct (blank (c :: s)) eqn:Hb.
    + apply rstrip_blank in Hb. congruence.
    + rewrite Hr. apply render_join.
Qed.

(** A chunk is the sentences of its group joined by single spaces, the
    empty sentences at its two ends left out. *)
Lemma chunk_of_join g :
  Forall trimmed g -> chunk_of g = join [SPACE] (trim_empty g).
Proof.
  intros H. unfold chunk_of, strip, trim_empty.
  rewrite lstrip_render by done.
  apply rstrip_render. by apply drop_empty_trimmed.
Qed.

Lemma content_chunk_of g : content (chunk_of g) = content (concat g).
Proof. unfold chunk_of. by rewrite content_strip, content_render. Qed.

Lemma content_concat_chunks (groups : list (list str)) :
  content (concat (map chunk_of groups)) = content (concat (concat groups)).
Proof.
  induction groups as [|g groups IH]; [done|].
  cbn [map concat]. rewrite concat_app, !content_app, IH.
  by rewrite content_chunk_of.
Qed.

End Joined.

(** ** The loop as the greedy algorithm *)

Lemma split_fold_greedy (max_length : Z) (raws : list str) :
  forall chunks current,
    split_flush (fold_left (split_step max_length) raws (chunks, current))
    = chunks ++ greedy max_length current (map normalize raws).
Proof.
  induction raws as [|raw raws IH]; intros chunks current.
  - simpl. destruct (truthy current); [done | by rewrite app_nil_r].
  - cbn [fold_left map greedy]. unfold split_step at 2.
    destruct (len current + len (normalize raw) + 1 <=? max_length).
    + apply IH.
    + rewrite IH. destruct (truthy current); [|done].
      by rewrite <- app_assoc.
Qed.

(** The current chunk is not empty once a sentence went through the loop. *)
Lemma split_fold_current (max_length : Z) (raws : list str) :
  forall chunks current chunks' current',
    fold_left (split_step max_length) raws (chunks, current)
    = (chunks', current') ->
    raws <> [] \/ current <> [] -> current' <> [].
Proof.
  induction raws as [|raw raws IH]; intros chunks current chunks' current' H Hne.
  - simpl in H. injection H as <- <-. by destruct Hne.
  - cbn [fold_left] in H. unfold split_step at 2 in H.
    destruct (len current + len (normalize raw) + 1 <=? max_length);
      apply IH in H; try done; right.
    + rewrite app_assoc. by destruct (current ++ normalize raw).
    + by destruct (normalize raw).
Qed.

(** *** A sentence and its normalized form *)

(** Normalizing a sentence strips it and appends at most a full stop: one
    is appended when the stripped sentence is not empty and does not end
    with one already. *)
Lemma normalize_strip (raw : str) :
  exists d,
    normalize raw = strip raw ++ d
    /\ (d = [] \/ d = [DOT])
    /\ (d = [DOT] <-> strip raw <> [] /\ last (strip raw) <> Some DOT).
Proof.
  unfold normalize, endswith_dot.
  destruct (strip raw) as [|c s] eqn:Hs.
  - exists []. cbn [truthy andb]. split; [done|]. split; [by left|].
    split; [done | by intros [? _]].
  - cbn [truthy andb]. destruct (last (c :: s)) as [x|] eqn:Hlast.
    + destruct (N.eqb_spec x DOT) as [->|Hx]; cbn [negb].
      * exists []. split; [by rewrite app_nil_r|]. split; [by left|].
        split; [done | by intros [_ ?]].
      * exists [DOT]. split; [done|]. split; [by right|].
        split; [|done]. intros _. split; [done | congruence].
    + exists [DOT]. split; [done|]. split; [by right|].
        split; [|done]. intros _. split; [done | congruence].
Qed.

Lemma letters_app (a b : str) : letters (a ++ b) = letters a ++ letters b.
Proof. unfold letters. by rewrite content_app, List.filter_app. Qed.

Lemma letters_strip (s : str) : letters (strip s) = letters s.
Proof. unfold letters. by rewrite content_strip. Qed.

Lemma letters_normalize (raw : str) : letters (normalize raw) = letters raw.
Proof.
  destruct (normalize_strip raw) as (d & -> & [-> | ->] & _);
    rewrite letters_app, letters_strip; [apply app_nil_r|].
  change (letters [DOT]) with (@nil char). apply app_nil_r.
Qed.

Lemma letters_join (raws : list str) :
  letters (join [DOT; SPACE] raws) = concat (map letters raws).
Proof.
  induction raws as [|raw [|raw' raws] IH]; [done | |].
  - cbn [join map concat]. by rewrite app_nil_r.
  - change (join [DOT; SPACE] (raw :: raw' :: raws))
      with (raw ++ [DOT; SPACE] ++ join [DOT; SPACE] (raw' :: raws)).
    rewrite !letters_app, IH. change (letters [DOT; SPACE]) with (@nil char).
    done.
Qed.

Lemma letters_concat_normalize (raws : list str) :
  letters (concat (map normalize raws)) = concat (map letters raws).
Proof.
  induction raws as [|raw raws IH]; [done|].
  cbn [map concat]. by rewrite letters_app, letters_normalize, IH.
Qed.

Lemma content_replace (s : str) : content (replace LF SPACE s) = content s.
Proof.
  induction s as [|c s IH]; [done|].
  unfold content, replace in *. cbn [map List.filter]. rewrite IH.
  destruct (N.eqb_spec c LF) as [->|]; done.
Qed.

(** C5. For a text that is not empty and a positive [max_length]:
    the sentences joined by [". "] are the text with its newlines replaced
    by spaces; [split_text] returns at least one chunk; the chunks are,
    in order, consecutive groups of the normalized sentences, each chunk
    being the sentences of its group joined by a space, without the empty
    sentences at the two ends of the group; the characters other than
    whitespace of the chunks are those of the normalized sentences, in
    order; a normalized sentence is the sentence stripped, which takes
    whitespace only from it, with a full stop appended when it is not
    empty and has none at its end; and the characters of the chunks other
    than whitespace and full stops are those of the text, in order. *)
Theorem split_text_keeps_sentences (text : str) (max_length : Z) :
  text <> [] -> 0 < max_length ->
  join [DOT; SPACE] (sentences_of text) = replace LF SPACE text
  /\ split_text text max_length <> []
  /\ (exists groups : list (list str),
        concat groups = map normalize (sentences_of text)
        /\ Forall (fun g => g <> []) groups
        /\ split_text text max_length
           = map (fun g => join [SPACE] (trim_empty g)) groups)
  /\ content (concat (split_text text max_length))
     = content (concat (map normalize (sentences_of text)))
  /\ (forall raw : str,
        content (strip raw) = content raw
        /\ exists d,
            normalize raw = strip raw ++ d
            /\ (d = [] \/ d = [DOT])
            /\ (d = [DOT] <-> strip raw <> [] /\ last (strip raw) <> Some DOT))
  /\ letters (concat (split_text text max_length)) = letters text.
Proof.
  intros _ _.
  set (ss := map normalize (sentences_of text)).
  assert (Hss : ss <> []).
  { unfold ss. pose proof (sentences_of_nonempty text).
    by destruct (sentences_of text). }
  assert (Hcontent : content (concat (split_text text max_length))
                     = content (concat ss)).
  { rewrite split_text_groups. fold ss.
    by rewrite content_concat_chunks, groups_of_concat. }
  split; [apply join_split2|].
  split.
  { rewrite split_text_groups. fold ss.
    pose proof (groups_of_nonempty max_length ss Hss).
    by destruct (groups_of max_length ss). }
  split.
  { exists (groups_of max_length ss).
    split; [apply groups_of_concat|].
    split.
    + eapply Forall_impl; [apply groups_of_closed|]. by intros g [Hg _].
    + rewrite split_text_groups. fold ss. apply map_ext_in.
      intros g Hg. apply chunk_of_join.
      apply List.Forall_forall. intros s Hs.
      assert (Hin : In s ss).
      { rewrite <- (groups_of_concat max_length ss).
        by apply (in_concat_groups _ g). }
      apply in_map_iff in Hin as (raw & <- & _). apply normalize_trimmed. }
  split; [done|].
  split; [intros raw; split; [apply content_strip | apply normalize_strip]|].
  unfold letters at 1. rewrite Hcontent.
  change (letters (concat ss) = letters text). unfold ss.
  rewrite letters_concat_normalize, <- letters_join.
  unfold sentences_of. rewrite join_split2.
  unfold letters. by rewrite content_replace.
Qed.

Lemma split_text_keeps_sentences_witness :
  let text := of_string "One. Two
three. Four" in
  join [DOT; SPACE] (sentences_of text) = replace LF SPACE text
  /\ split_text text 12 <> []
  /\ (exists groups : list (list str),
        concat groups = map normalize (sentences_of text)
        /\ Forall (fun g => g <> []) groups
        /\ split_text text 12
           = map (fun g => join [SPACE] (trim_empty g)) groups)
  /\ content (concat (split_text text 12))
     = content (concat (map normalize (sentences_of text)))
  /\ (forall raw : str,
        content (strip raw) = content raw
        /\ exists d,
            normalize raw = strip raw ++ d
            /\ (d = [] \/ d = [DOT])
            /\ (d = [DOT] <-> strip raw <> [] /\ last (strip raw) <> Some DOT))
  /\ letters (concat (split_text text 12)) = letters text.
Proof.
  apply split_text_keeps_sentences; [discriminate | lia].
Defined.

(** C7. [split_text] is the greedy algorithm run on the normalized
    sentences from an empty current chunk: a sentence is appended while
    [len current + len sentence + 1 <= max_length]; on overflow the current
    chunk is finalized by [strip], which leaves no trailing whitespace, and
    the sentence starts the next chunk; a last chunk that is not empty is
    always flushed.  The three rules are also stated on the loop itself. *)
Theorem split_text_greedy (text : str) (max_length : Z) :
  split_text text max_length
  = greedy max_length [] (map normalize (sentences_of text))
  /\ (forall chunks current sentence,
        len current + len (normalize sentence) + 1 <= max_length ->
        split_step max_length (chunks, current) sentence
        = (chunks, current ++ normalize sentence ++ [SPACE]))
  /\ (forall chunks current sentence,
        max_length < len current + len (normalize sentence) + 1 ->
        current <> [] ->
        split_step max_length (chunks, current) sentence
        = (chunks ++ [strip current], normalize sentence ++ [SPACE])
        /\ rstrip (strip current) = strip current)
  /\ (forall chunks current,
        current <> [] ->
        split_flush (chunks, current) = chunks ++ [strip current])
  /\ (forall chunks current,
        fold_left (split_step max_length) (sentences_of text) ([], [])
        = (chunks, current) ->
        current <> [] /\ last (split_text text max_length) = Some (strip current)).
Proof.
  split; [apply (split_fold_greedy max_length (sentences_of text) [] [])|].
  split.
  { intros chunks current sentence H. unfold split_step.
    destruct (Z.leb_spec (len current + len (normalize sentence) + 1) max_length);
      [done | lia]. }
  split.
  { intros chunks current sentence H Hne. unfold split_step.
    destruct (Z.leb_spec (len current + len (normalize sentence) + 1) max_length);
      [lia|].
    split; [by destruct current | apply rstrip_idem]. }
  split.
  { intros chunks current Hne. by destruct current. }
  intros chunks current Hfold.
  assert (Hne : current <> []).
  { apply (split_fold_current max_length _ _ _ _ _ Hfold).
    left. apply sentences_of_nonempty. }
  split; [done|].
  unfold split_text. rewrite Hfold. cbn [split_flush].
  destruct current; [done|]. apply last_snoc.
Qed.

(** ** The synthesis loop *)

Section Loop.

Variables client model voice : str.
Variable num_chunks : nat.

Lemma calls_app (tr tr' : list action) : calls (tr ++ tr') = calls tr ++ calls tr'.
Proof. apply List.filter_app. Qed.

Lemma same_world_refl w : same_world w w.
Proof. by repeat split. Qed.

Lemma same_world_trans w1 w2 w3 :
  same_world w1 w2 -> same_world w2 w3 -> same_world w1 w3.
Proof.
  intros (?&?&?&?&?&?&?&?) (?&?&?&?&?&?&?&?). repeat split; congruence.
Qed.

Lemma same_world_log a w : same_world w (log a w).
Proof. by repeat split. Qed.

(** One turn of the loop: the line it may print, then the request. *)
Lemma synthesize_cons i chunk rest audio_data w :
  exists w1,
    same_world w w1
    /\ calls (trace w1) = calls (trace w)
    /\ (exists lines, trace w1 = trace w ++ map APrint lines)
    /\ synthesize client model voice num_chunks i (chunk :: rest) audio_data w
       = match replies w (length (calls (trace w))) bytes
                 (AudioSpeechCreate model voice chunk) with
         | inl e =>
             (Raise e, log (ACall client (AudioSpeechCreate model voice chunk)) w1)
         | inr response =>
             synthesize client model voice num_chunks (i + 1) rest
               (audio_data ++ response)
               (log (ACall client (AudioSpeechCreate model voice chunk)) w1)
         end.
Proof.
  cbn [synthesize]. destruct (1 <? num_chunks)%nat.
  - eexists (log (APrint _) w). split; [apply same_world_log|].
    split; [cbn [log trace]; rewrite calls_app; simpl; by rewrite app_nil_r|].
    split; [by eexists [_]|].
    unfold bind at 1. cbn [when print]. unfold bind at 1. unfold call.
    cbn [log trace replies]. rewrite calls_app. simpl (calls [_]).
    rewrite app_nil_r.
    by destruct (replies w _ _ _).
  - exists w. split; [apply same_world_refl|]. split; [done|].
    split; [exists []; simpl; by rewrite app_nil_r|].
    unfold bind at 1. cbn [when ret]. unfold bind at 1. unfold call.
    by destruct (replies w _ _ _).
Qed.

(** When the service answers every request, the loop returns the replies
    appended in order, after one request per chunk, in order. *)
Lemma synthesize_ok chunks : forall bs i audio_data w,
  answers (replies w) (length (calls (trace w))) model voice chunks
  = map inr bs ->
  exists w',
    synthesize client model voice num_chunks i chunks audio_data w
    = (Ret (audio_data ++ concat bs), w')
    /\ same_world w w'
    /\ calls (trace w') = calls (trace w) ++ speech_calls client model voice chunks.
Proof.
  induction chunks as [|chunk rest IH]; intros bs i audio_data w Hans.
  - destruct bs; [|done]. exists w. simpl. rewrite !app_nil_r.
    split; [done|]. split; [apply same_world_refl | done].
  - destruct bs as [|b bs]; [done|]. cbn [answers map] in Hans.
    injection Hans as Hb Hrest.
    destruct (synthesize_cons i chunk rest audio_data w)
      as (w1 & Hsame & Hcalls & _ & ->).
    rewrite Hb.
    set (w2 := log (ACall client (AudioSpeechCreate model voice chunk)) w1).
    assert (Hsame2 : same_world w w2)
      by (eapply same_world_trans; [done | apply same_world_log]).
    assert (Hc2 : calls (trace w2)
                  = calls (trace w) ++ speech_calls client model voice [chunk]).
    { unfold w2. cbn [log trace]. rewrite calls_app, Hcalls. done. }
    destruct (IH bs (i + 1) (audio_data ++ b) w2) as (w' & -> & Hsame' & Hc').
    { destruct Hsame2 as (_&_&_&_&->&_). rewrite Hc2, length_app. simpl.
      by rewrite Nat.add_1_r. }
    exists w'. split; [cbn [concat]; by rewrite app_assoc|].
    split; [by eapply same_world_trans|].
    rewrite Hc', Hc2. by rewrite <- app_assoc.
Qed.

(** When the service fails on a chunk after answering for those before
    it, the loop raises that failure; it has sent the requests up to that
    chunk and none for the chunks after it, and the failed request is the
    last thing it did. *)
Lemma synthesize_fail pre : forall bs chunk post e i audio_data w,
  answers (replies w) (length (calls (trace w))) model voice pre = map inr bs ->
  replies w (length (calls (trace w)) + length pre) bytes
    (AudioSpeechCreate model voice chunk) = inl e ->
  exists w',
    synthesize client model voice num_chunks i (pre ++ chunk :: post) audio_data w
    = (Raise e, w')
    /\ same_world w w'
    /\ calls (trace w')
       = calls (trace w) ++ speech_calls client model voice (pre ++ [chunk])
    /\ last (trace w') = Some (ACall client (AudioSpeechCreate model voice chunk)).
Proof.
  induction pre as [|c pre IH]; intros bs chunk post e i audio_data w Hans He.
  - cbn [app]. simpl in He. rewrite Nat.add_0_r in He.
    destruct (synthesize_cons i chunk post audio_data w)
      as (w1 & Hsame & Hcalls & _ & ->).
    rewrite He. eexists. split; [done|].
    split; [eapply same_world_trans; [done | apply same_world_log]|].
    cbn [log trace]. rewrite calls_app, Hcalls. split; [done|].
    apply last_snoc.
  - destruct bs as [|b bs]; [done|]. cbn [answers map] in Hans.
    injection Hans as Hb Hrest. cbn [app].
    destruct (synthesize_cons i c (pre ++ chunk :: post) audio_data w)
      as (w1 & Hsame & Hcalls & _ & ->).
    rewrite Hb.
    set (w2 := log (ACall client (AudioSpeechCreate model voice c)) w1).
    assert (Hsame2 : same_world w w2)
      by (eapply same_world_trans; [done | apply same_world_log]).
    assert (Hc2 : calls (trace w2)
                  = calls (trace w) ++ speech_calls client model voice [c]).
    { unfold w2. cbn [log trace]. rewrite calls_app, Hcalls. done. }
    assert (Hn : length (calls (trace w2)) = S (length (calls (trace w)))).
    { rewrite Hc2, length_app. simpl. lia. }
    assert (Hr : replies w2 = replies w) by (by destruct Hsame2 as (_&_&_&_&->&_)).
    destruct (IH bs chunk post e (i + 1) (audio_data ++ b) w2)
      as (w' & -> & Hsame' & Hc' & Hlast).
    { by rewrite Hr, Hn. }
    { rewrite Hr, Hn. rewrite <- He. f_equal. simpl. lia. }
    exists w'. split; [done|].
    split; [by eapply same_world_trans|].
    split; [|done].
    rewrite Hc', Hc2. by rewrite <- app_assoc.
Qed.

End Loop.

(** ** Stepping through a computation *)

Section Steps.

Context {A : Type}.
Implicit Types k : M A.

Lemma bind_print l k w : (print l ;; k) w = k (log (APrint l) w).
Proof. reflexivity. Qed.

Lemma bind_when_false (m : M unit) k w : (when false m ;; k) w = k w.
Proof. reflexivity. Qed.

Lemma bind_when_print (b : bool) l k w :
  (when b (print l) ;; k) w = k (if b then log (APrint l) w else w).
Proof. by destruct b. Qed.

Lemma bind_read_text path (k : str -> M A) w readable_by data contents :
  fs w !! path = Some (File true readable_by data) ->
  read_text_mode w data = Some contents ->
  (x <- read_text path ;; k x) w = k contents (log (AOpenRead path) w).
Proof.
  intros Hf Hd. unfold bind at 1. unfold read_text. unfold bind at 1.
  unfold read_bytes. cbn [log fs]. rewrite Hf. cbn [log read_text_mode].
  by rewrite Hd.
Qed.

Lemma bind_write_file path data k w :
  can_write w path ->
  exists readable writable,
    (write_file path data ;; k) w
    = k (set_fs (<[path := File readable writable data]> (fs w))
           (log (AOpenWrite path) w)).
Proof.
  unfold can_write. intros Hw. unfold bind at 1, write_file. cbn [log fs create_error].
  destruct (fs w !! path) as [[|r wr old]|].
  - done.
  - subst wr. by exists r, true.
  - rewrite Hw. by exists true, true.
Qed.

Lemma bind_stat_size path (k : Z -> M A) w readable writable data :
  fs w !! path = Some (File readable writable data) ->
  (x <- stat_size path ;; k x) w
  = k (Z.of_nat (length data)) (log (AStat path) w).
Proof. intros Hf. unfold bind at 1, stat_size. cbn [log fs]. by rewrite Hf. Qed.

End Steps.

(** ** [main] of [text_to_speech_file.py] *)

Section Convert.

Variables client input_file output_file voice model : str.

(** The body of the [try], up to the loop: what it reads and prints. *)
Lemma convert_to_loop w readable_by data contents :
  fs w !! input_file = Some (File true readable_by data) ->
  read_text_mode w data = Some contents ->
  strip contents <> [] ->
  let chunks := split_text (strip contents) default_max_length in
  exists w1 (k : bytes -> M unit),
    convert client input_file output_file voice model w
    = (audio_data <- synthesize client model voice (length chunks) 1 chunks [] ;;
       k audio_data) w1
    /\ same_world w w1
    /\ calls (trace w1) = calls (trace w)
    /\ k = (fun audio_data =>
             write_file output_file audio_data ;;
             file_size <- stat_size output_file ;;
             print (T "\n" :: rule 60) ;;
             print [T "✓ Success!"] ;;
             print (rule 60) ;;
             print [T "Audio file saved: "; Abs output_file] ;;
             (if 1048576 <=? file_size
              then print [T "File size: "; R 2 file_size 1048576; T " MB"]
              else print [T "File size: "; R 2 file_size 1024; T " KB"]) ;;
             print [T "\nYou can play it with:"] ;;
             print [T "  macOS: afplay "; V output_file] ;;
             print [T "  Linux: mpg123 "; V output_file] ;;
             print [T "  Windows: start "; V output_file] ;;
             print (rule 60)).
Proof.
  intros Hf Hd Hne chunks. unfold convert.
  rewrite !bind_print.
  erewrite bind_read_text; [|cbn [log fs]; exact Hf | cbn [log read_text_mode]; exact Hd].
  assert (Ht : negb (truthy (strip contents)) = false)
    by (by destruct (strip contents)).
  rewrite Ht, bind_when_false, bind_print.
  fold chunks. rewrite bind_when_print, !bind_print.
  eexists _, _. split; [reflexivity|].
  split; [|split; [|reflexivity]].
  - destruct (1 <? length chunks)%nat; by repeat split.
  - destruct (1 <? length chunks)%nat; cbn [log trace];
      rewrite !calls_app; simpl; by rewrite !app_nil_r.
Qed.

(** After the loop: the file is written, measured, and the summary
    printed. *)
Lemma convert_save w audio_data :
  can_write w output_file ->
  exists w' readable writable,
    (write_file output_file audio_data ;;
     file_size <- stat_size output_file ;;
     print (T "\n" :: rule 60) ;;
     print [T "✓ Success!"] ;;
     print (rule 60) ;;
     print [T "Audio file saved: "; Abs output_file] ;;
     (if 1048576 <=? file_size
      then print [T "File size: "; R 2 file_size 1048576; T " MB"]
      else print [T "File size: "; R 2 file_size 1024; T " KB"]) ;;
     print [T "\nYou can play it with:"] ;;
     print [T "  macOS: afplay "; V output_file] ;;
     print [T "  Linux: mpg123 "; V output_file] ;;
     print [T "  Windows: start "; V output_file] ;;
     print (rule 60)) w
    = (Ret tt, w')
    /\ fs w' = <[output_file := File readable writable audio_data]> (fs w)
    /\ calls (trace w') = calls (trace w).
Proof.
  intros Hw.
  destruct (bind_write_file output_file audio_data
              (file_size <- stat_size output_file ;;
     print (T "\n" :: rule 60) ;;
     print [T "✓ Success!"] ;;
     print (rule 60) ;;
     print [T "Audio file saved: "; Abs output_file] ;;
     (if 1048576 <=? file_size
      then print [T "File size: "; R 2 file_size 1048576; T " MB"]
      else print [T "File size: "; R 2 file_size 1024; T " KB"]) ;;
     print [T "\nYou can play it with:"] ;;
     print [T "  macOS: afplay "; V output_file] ;;
     print [T "  Linux: mpg123 "; V output_file] ;;
     print [T "  Windows: start "; V output_file] ;;
     print (rule 60)) w Hw) as (r & wr & ->).
  erewrite bind_stat_size; [|cbn [set_fs fs]; apply lookup_insert_eq].
  rewrite !bind_print.
  destruct (1048576 <=? Z.of_nat (length audio_data));
    rewrite !bind_print; eexists _, r, wr;
    (split; [reflexivity|]); cbn [print log set_fs fs trace];
    (split; [reflexivity|]); rewrite !calls_app; simpl; by rewrite !app_nil_r.
Qed.

End Convert.

Section Main.

Variable w : World.
Variables key input_file : str.

Let voice := arg_or (argv w) 3 (of_string "alloy").
Let model := arg_or (argv w) 4 (of_string "tts-1").
Let output_file := output_file_of (argv w).

Hypothesis Hkey : environ w !! KEY = Some key.
Hypothesis Hkey_ne : key <> [].
Hypothesis Hinput : argv w !! 1%nat = Some input_file.
Hypothesis Hfound : is_Some (fs w !! input_file).
Hypothesis Hvoice : voice ∈ valid_voices.
Hypothesis Hmodel : model ∈ valid_models.

(** With the key set and valid arguments, [main] reaches its [try] block
    having read the environment and the command line and looked for the
    input file. *)
Lemma main_startup :
  text_to_speech_file.main w
  = try_except (convert key input_file output_file voice model) handler
      (log (AExists input_file) (log AArgv (log (AGetenv KEY) w))).
Proof.
  unfold text_to_speech_file.main.
  unfold bind at 1. cbn [getenv]. rewrite Hkey.
  unfold bind at 1. assert (Hk : key_missing (Some key) = false) by (by destruct key).
  rewrite Hk. cbn [when ret key_value default].
  unfold bind at 1. cbn [sys_argv log argv].
  assert (Hlen : (length (argv w) <? 2)%nat = false).
  { apply Nat.ltb_ge. apply lookup_lt_Some in Hinput. lia. }
  unfold bind at 1. rewrite Hlen. cbn [when ret].
  assert (Harg : arg_or (argv w) 1 [] = input_file)
    by (unfold arg_or; by rewrite Hinput).
  rewrite !Harg.
  unfold bind at 1. cbn [path_exists log fs].
  rewrite (bool_decide_eq_true_2 _ Hfound).
  unfold bind at 1. cbn [negb when ret].
  fold voice. rewrite (bool_decide_eq_true_2 _ Hvoice).
  unfold bind at 1. cbn [negb when ret].
  fold model. rewrite (bool_decide_eq_true_2 _ Hmodel).
  unfold bind at 1. cbn [negb when ret].
  reflexivity.
Qed.

End Main.

(** Every [except] clause only prints its report, which has an error
    line, and exits with status 1. *)
Lemma handler_exits (e : exn) (w : World) :
  exists tail w',
    handler e w = (Exit 1, w')
    /\ same_world w w'
    /\ trace w' = trace w ++ tail
    /\ forallb is_print tail = true
    /\ existsb is_error_line (stdout tail) = true.
Proof.
  destruct e; unfold handler; rewrite !bind_print; unfold sys_exit;
    eexists _, _; (split; [reflexivity|]); (split; [by repeat split|]);
    cbn [log trace]; rewrite <- ?app_assoc; cbn [app];
    (split; [reflexivity|]); split; reflexivity.
Qed.

(** ** Claims on the assembler *)

(** C2. The loop of [main], given any chunks for which the service
    answers [b_1 .. b_N], returns [audio_data ++ b_1 ++ ... ++ b_N] after
    one request per chunk, in the order of the chunks.  In a run of [main]
    that gets to the conversion (the key is set, the arguments are valid,
    the input file reads as a text that is not blank), when the service
    answers the speech requests for the [N] chunks with [b_1 .. b_N] and
    the output file can be opened for writing: [main] returns; one request
    was sent per chunk, in the order of the chunks; and the file system
    differs from the initial one in the output file only, which holds
    [b_1 ++ ... ++ b_N]. *)
Theorem main_writes_concatenation :
  (forall (client model voice : str) (num_chunks : nat) (i : Z)
      (chunks : list str) (bs : list bytes) (audio_data : bytes) (w : World),
      answers (replies w) (length (calls (trace w))) model voice chunks
      = map inr bs ->
      exists w',
        synthesize client model voice num_chunks i chunks audio_data w
        = (Ret (audio_data ++ concat bs), w')
        /\ same_world w w'
        /\ calls (trace w')
           = calls (trace w) ++ speech_calls client model voice chunks)
  /\ (forall (w : World) (key input_file contents : str)
        (readable_by : bool) (data : bytes) (bs : list bytes),
        let voice := arg_or (argv w) 3 (of_string "alloy") in
        let model := arg_or (argv w) 4 (of_string "tts-1") in
        let output_file := output_file_of (argv w) in
        let chunks := split_text (strip contents) default_max_length in
        environ w !! KEY = Some key -> key <> [] ->
        argv w !! 1%nat = Some input_file ->
        voice ∈ valid_voices -> model ∈ valid_models ->
        fs w !! input_file = Some (File true readable_by data) ->
        read_text_mode w data = Some contents ->
        strip contents <> [] ->
        answers (replies w) (length (calls (trace w))) model voice chunks
        = map inr bs ->
        can_write w output_file ->
        exists w' readable writable,
          text_to_speech_file.main w = (Ret tt, w')
          /\ calls (trace w')
             = calls (trace w) ++ speech_calls key model voice chunks
          /\ fs w'
             = <[output_file := File readable writable (concat bs)]> (fs w)).
Proof.
  split.
  { intros client model voice num_chunks i chunks bs audio_data w Hans.
    by apply synthesize_ok. }
  intros w key input_file contents readable_by data bs
    voice model output_file chunks Hkey Hne Hinput Hvoice Hmodel Hfile
    Hdecode Htext Hans Hwrite.
  rewrite (main_startup w key input_file Hkey Hne Hinput) by done.
  fold voice model output_file.
  set (w0 := log (AExists input_file) (log AArgv (log (AGetenv KEY) w))).
  assert (Hc0 : calls (trace w0) = calls (trace w)).
  { unfold w0. cbn [log trace]. rewrite !calls_app. simpl. by rewrite !app_nil_r. }
  destruct (convert_to_loop key input_file output_file voice model w0
              readable_by data contents Hfile Hdecode Htext)
    as (w1 & k & Hconv & Hsame1 & Hc1 & ->).
  fold chunks in Hconv.
  destruct (synthesize_ok key model voice (length chunks) chunks bs 1 [] w1)
    as (w2 & Hloop & Hsame2 & Hc2).
  { destruct Hsame1 as (_&_&_&_&->&_). by rewrite Hc1, Hc0. }
  unfold bind at 1 in Hconv. rewrite Hloop in Hconv. cbn [app] in Hconv.
  destruct (convert_save output_file w2 (concat bs)) as (w' & r & wr & Hsave & Hfs & Hc3).
  { unfold can_write in *.
    destruct Hsame1 as (_&_&Hf1&Hce1&_&_), Hsame2 as (_&_&Hf2&Hce2&_&_).
    by rewrite Hf2, Hf1, Hce2, Hce1. }
  rewrite Hsave in Hconv.
  exists w', r, wr. unfold try_except. rewrite Hconv.
  split; [done|]. split.
  - by rewrite Hc3, Hc2, Hc1, Hc0.
  - rewrite Hfs. destruct Hsame1 as (_&_&Hf1&_), Hsame2 as (_&_&Hf2&_).
    by rewrite Hf2, Hf1.
Qed.

(** C3. In such a run, when the service answers the requests for the
    chunks before chunk [k] and raises on the request for chunk [k]:
    [main] exits with status 1; the file system is unchanged; the requests
    sent are those for chunks [1 .. k], none for the chunks after; and
    after the failed request the process only printed, an error line among
    what it printed. *)
Theorem main_abandons_on_failure (w : World) (key input_file contents : str)
    (readable_by : bool) (data : bytes) (bs : list bytes)
    (pre post : list str) (chunk : str) (e : exn) :
  let voice := arg_or (argv w) 3 (of_string "alloy") in
  let model := arg_or (argv w) 4 (of_string "tts-1") in
  environ w !! KEY = Some key -> key <> [] ->
  argv w !! 1%nat = Some input_file ->
  voice ∈ valid_voices -> model ∈ valid_models ->
  fs w !! input_file = Some (File true readable_by data) ->
  read_text_mode w data = Some contents ->
  strip contents <> [] ->
  split_text (strip contents) default_max_length = pre ++ chunk :: post ->
  answers (replies w) (length (calls (trace w))) model voice pre = map inr bs ->
  replies w (length (calls (trace w)) + length pre) bytes
    (AudioSpeechCreate model voice chunk) = inl e ->
  exists w' before tail,
    text_to_speech_file.main w = (Exit 1, w')
    /\ exit_status (fst (text_to_speech_file.main w)) = Some 1
    /\ fs w' = fs w
    /\ calls (trace w')
       = calls (trace w) ++ speech_calls key model voice (pre ++ [chunk])
    /\ trace w'
       = before ++ [ACall key (AudioSpeechCreate model voice chunk)] ++ tail
    /\ forallb is_print tail = true
    /\ existsb is_error_line (stdout tail) = true.
Proof.
  intros voice model Hkey Hne Hinput Hvoice Hmodel Hfile Hdecode Htext
    Hchunks Hans Hfail.
  rewrite (main_startup w key input_file Hkey Hne Hinput) by done.
  fold voice model.
  set (output_file := output_file_of (argv w)).
  set (w0 := log (AExists input_file) (log AArgv (log (AGetenv KEY) w))).
  assert (Hc0 : calls (trace w0) = calls (trace w)).
  { unfold w0. cbn [log trace]. rewrite !calls_app. simpl. by rewrite !app_nil_r. }
  destruct (convert_to_loop key input_file output_file voice model w0
              readable_by data contents Hfile Hdecode Htext)
    as (w1 & k & Hconv & Hsame1 & Hc1 & _).
  rewrite Hchunks in Hconv.
  assert (Hr1 : replies w1 = replies w) by (by destruct Hsame1 as (_&_&_&_&->&_)).
  destruct (synthesize_fail key model voice (length (pre ++ chunk :: post))
              pre bs chunk post e 1 [] w1)
    as (w2 & Hloop & Hsame2 & Hc2 & Hlast).
  { by rewrite Hr1, Hc1, Hc0. }
  { by rewrite Hr1, Hc1, Hc0. }
  unfold bind at 1 in Hconv. rewrite Hloop in Hconv.
  destruct (handler_exits e w2) as (tail & w' & Hh & Hsame3 & Htr & Hp & He).
  apply last_Some in Hlast as [before Hbefore].
  exists w', before, tail.
  assert (Hmain : try_except (convert key input_file output_file voice model)
                    handler w0 = (Exit 1, w')).
  { unfold try_except. by rewrite Hconv. }
  rewrite Hmain. split; [done|]. split; [done|]. split.
  { destruct Hsame1 as (_&_&Hf1&_), Hsame2 as (_&_&Hf2&_), Hsame3 as (_&_&Hf3&_).
    by rewrite Hf3, Hf2, Hf1. }
  split.
  { rewrite Htr, calls_app, Hc2, Hc1, Hc0.
    assert (Hnone : calls tail = []).
    { clear -Hp. induction tail as [|a tail IH]; [done|].
      simpl in Hp. apply andb_true_iff in Hp as [Ha Ht].
      destruct a; try done. simpl. by apply IH. }
    by rewrite Hnone, app_nil_r. }
  split; [|done].
  by rewrite Htr, Hbefore, <- app_assoc.
Qed.

Lemma main_writes_concatenation_witness :
  let w := demo_world two_sentences reply_ok in
  exists w' readable writable,
    text_to_speech_file.main w = (Ret tt, w')
    /\ calls (trace w')
       = calls (trace w)
         ++ speech_calls (of_string "sk-demo")
              (arg_or (argv w) 4 (of_string "tts-1"))
              (arg_or (argv w) 3 (of_string "alloy"))
              (split_text (strip two_sentences) default_max_length)
    /\ fs w' = <[output_file_of (argv w)
                 := File readable writable (concat [[x01; x02]; [x03]])]> (fs w).
Proof.
  intros w.
  apply (proj2 main_writes_concatenation w (of_string "sk-demo")
           (of_string "article.txt") two_sentences false [x00]
           [[x01; x02]; [x03]]).
  - reflexivity.
  - discriminate.
  - reflexivity.
  - vm_compute. apply list_elem_of_here.
  - vm_compute. apply list_elem_of_here.
  - vm_compute. reflexivity.
  - reflexivity.
  - vm_compute. discriminate.
  - vm_compute. reflexivity.
  - vm_compute. reflexivity.
Defined.

Lemma main_abandons_on_failure_witness :
  let w := demo_world two_sentences reply_second_fails in
  let model := arg_or (argv w) 4 (of_string "tts-1") in
  let voice := arg_or (argv w) 3 (of_string "alloy") in
  let chunk := repeat 98%N 3000 ++ [DOT] in
  exists w' before tail,
    text_to_speech_file.main w = (Exit 1, w')
    /\ exit_status (fst (text_to_speech_file.main w)) = Some 1
    /\ fs w' = fs w
    /\ calls (trace w')
       = calls (trace w)
         ++ speech_calls (of_string "sk-demo") model voice
              ([repeat 97%N 3000 ++ [DOT]] ++ [chunk])
    /\ trace w'
       = before
         ++ [ACall (of_string "sk-demo") (AudioSpeechCreate model voice chunk)]
         ++ tail
    /\ forallb is_print tail = true
    /\ existsb is_error_line (stdout tail) = true.
Proof.
  intros w model voice chunk.
  apply (main_abandons_on_failure w (of_string "sk-demo")
           (of_string "article.txt") two_sentences false [x00]
           [[x01; x02]] [repeat 97%N 3000 ++ [DOT]] [] chunk
           (RateLimitError (of_string "quota"))).
  - reflexivity.
  - discriminate.
  - reflexivity.
  - vm_compute. apply list_elem_of_here.
  - vm_compute. apply list_elem_of_here.
  - vm_compute. reflexivity.
  - reflexivity.
  - vm_compute. discriminate.
  - vm_compute. reflexivity.
  - vm_compute. reflexivity.
  - vm_compute. reflexivity.
Defined.

(** ** The empty chunk *)

Lemma normalize_nil : normalize [] = [].
Proof. reflexivity. Qed.

Lemma split_text_snoc_delimiter (t : str) (max_length : Z)
    (chunks : list str) (current : str) :
  fold_left (split_step max_length) (sentences_of t) ([], []) = (chunks, current) ->
  max_length < len current + 1 ->
  split_text (t ++ [DOT; SPACE]) max_length = chunks ++ [strip current; []].
Proof.
  intros Hfold Hfull.
  assert (Hne : current <> []).
  { apply (split_fold_current max_length _ _ _ _ _ Hfold).
    left. apply sentences_of_nonempty. }
  unfold split_text. rewrite sentences_of_snoc_delimiter, fold_left_app, Hfold.
  cbn [fold_left]. unfold split_step. rewrite normalize_nil.
  change (len []) with 0.
  destruct (Z.leb_spec (len current + 0 + 1) max_length) as [H|_]; [lia|].
  destruct current as [|c current]; [done|].
  cbn [truthy split_flush app]. by rewrite <- app_assoc.
Qed.

(** *** The last chunk of a stripped text *)

Lemma join_snoc (sep : str) (init : list str) (r : str) :
  join sep (init ++ [r])
  = match init with [] => r | _ => join sep init ++ sep ++ r end.
Proof.
  induction init as [|p [|q init] IH]; [done | done |].
  change (join sep ((p :: q :: init) ++ [r]))
    with (p ++ sep ++ join sep ((q :: init) ++ [r])).
  rewrite IH.
  change (join sep (p :: q :: init)) with (p ++ sep ++ join sep (q :: init)).
  by rewrite <- !app_assoc.
Qed.

Lemma last_replace (s : str) (c : char) :
  last s = Some c -> isspace c = false ->
  last (replace LF SPACE s) = Some c.
Proof.
  intros Hl Hc. apply last_Some in Hl as [s' ->].
  unfold replace. rewrite map_app. cbn [map].
  destruct (N.eqb_spec c LF) as [->|_]; [done|]. apply last_snoc.
Qed.

Lemma content_last (s : str) (c : char) :
  last s = Some c -> isspace c = false -> content s <> [].
Proof.
  intros Hl Hc. apply last_Some in Hl as [s' ->].
  rewrite content_app. unfold content at 2. cbn [List.filter]. rewrite Hc.
  cbn [negb]. by destruct (content s').
Qed.

(** The last sentence of a text that does not end with whitespace has a
    character other than whitespace. *)
Lemma sentences_of_last (t : str) (c : char) :
  last t = Some c -> isspace c = false ->
  exists raws r, sentences_of t = raws ++ [r] /\ content r <> [].
Proof.
  intros Hl Hc.
  pose proof (last_replace t c Hl Hc) as Hl'.
  pose proof (@join_split2 DOT SPACE (replace LF SPACE t)) as Hjoin.
  fold (sentences_of t) in Hjoin.
  destruct (exists_last (sentences_of_nonempty t)) as (raws & r & Hs).
  exists raws, r. split; [done|].
  rewrite Hs, join_snoc in Hjoin.
  assert (Hr : last r = Some c).
  { destruct r as [|x r].
    - exfalso. destruct raws as [|raw raws].
      + by rewrite <- Hjoin in Hl'.
      + rewrite <- Hjoin, app_nil_r in Hl'.
        change [DOT; SPACE] with ([DOT] ++ [SPACE]) in Hl'.
        rewrite !app_assoc, last_snoc in Hl'.
        injection Hl' as <-. done.
    - destruct (exists_last (l := x :: r)) as (r' & y & Hy); [done|].
      rewrite Hy in *. rewrite last_snoc.
      destruct raws; rewrite <- Hjoin, ?app_assoc, last_snoc in Hl'; done. }
  by apply (content_last r c).
Qed.

Lemma content_normalize (raw : str) :
  content raw <> [] -> content (normalize raw) <> [].
Proof.
  intros H. destruct (normalize_strip raw) as (d & -> & _).
  rewrite content_app, content_strip. by destruct (content raw).
Qed.

(** Groups that are not empty end with the last element of what they
    divide. *)
Lemma last_group {A} (groups : list (list A)) (xs : list A) (x : A) :
  Forall (fun g => g <> []) groups ->
  concat groups = xs ++ [x] ->
  exists gs g, groups = gs ++ [g ++ [x]].
Proof.
  intros Hne Hcat.
  destruct groups as [|g0 groups0] using rev_ind.
  { by destruct xs. }
  clear IHgroups0. apply Forall_app in Hne as [_ Hg].
  apply List.Forall_inv in Hg.
  destruct (exists_last Hg) as (g & y & ->).
  rewrite concat_app in Hcat. cbn [concat] in Hcat.
  rewrite app_nil_r, app_assoc in Hcat.
  apply app_inj_tail in Hcat as [_ ->]. by exists groups0, g.
Qed.

(** The last chunk of a text that, stripped, is not empty, is not empty. *)
Lemma split_text_last_chunk (contents : str) (max_length : Z) :
  strip contents <> [] ->
  exists chunks c,
    split_text (strip contents) max_length = chunks ++ [c] /\ c <> [].
Proof.
  intros Hne.
  destruct (exists_last Hne) as (t' & c & Ht).
  assert (Hc : isspace c = false).
  { pose proof (strip_trimmed contents) as [_ Htrim]. rewrite Ht in Htrim.
    apply (trimmed_last _ c Htrim), last_snoc. }
  destruct (sentences_of_last (strip contents) c) as (raws & r & Hs & Hr);
    [by rewrite Ht, last_snoc | done |].
  rewrite split_text_groups, Hs, map_app. cbn [map].
  set (ss := map normalize raws).
  destruct (last_group (groups_of max_length (ss ++ [normalize r])) ss (normalize r))
    as (gs & g & Hg).
  { eapply Forall_impl; [apply groups_of_closed|]. by intros ? [? _]. }
  { apply groups_of_concat. }
  rewrite Hg, map_app. cbn [map].
  exists (map chunk_of gs), (chunk_of (g ++ [normalize r])). split; [done|].
  intros E. pose proof (content_chunk_of (g ++ [normalize r])) as Hcontent.
  rewrite E, concat_app, content_app in Hcontent. cbn [concat] in Hcontent.
  rewrite app_nil_r in Hcontent.
  apply (content_normalize r Hr).
  by destruct (content (concat g)), (content (normalize r)).
Qed.

(** A run of [main] that gets to the conversion, with every request
    answered and an output file that can be written. *)
Lemma main_converts (w : World) (key input_file contents : str)
    (readable_by : bool) (data : bytes) (bs : list bytes) :
  let voice := arg_or (argv w) 3 (of_string "alloy") in
  let model := arg_or (argv w) 4 (of_string "tts-1") in
  let output_file := output_file_of (argv w) in
  let chunks := split_text (strip contents) default_max_length in
  environ w !! KEY = Some key -> key <> [] ->
  argv w !! 1%nat = Some input_file ->
  voice ∈ valid_voices -> model ∈ valid_models ->
  fs w !! input_file = Some (File true readable_by data) ->
  read_text_mode w data = Some contents ->
  strip contents <> [] ->
  answers (replies w) (length (calls (trace w))) model voice chunks
  = map inr bs ->
  can_write w output_file ->
  exists w',
    text_to_speech_file.main w = (Ret tt, w')
    /\ calls (trace w')
       = calls (trace w) ++ speech_calls key model voice chunks.
Proof.
  intros voice model output_file chunks Hkey Hne Hinput Hvoice Hmodel Hfile
    Hdecode Htext Hans Hwrite.
  rewrite (main_startup w key input_file Hkey Hne Hinput) by done.
  fold voice model output_file.
  set (w0 := log (AExists input_file) (log AArgv (log (AGetenv KEY) w))).
  assert (Hc0 : calls (trace w0) = calls (trace w)).
  { unfold w0. cbn [log trace]. rewrite !calls_app. simpl. by rewrite !app_nil_r. }
  destruct (convert_to_loop key input_file output_file voice model w0
              readable_by data contents Hfile Hdecode Htext)
    as (w1 & k & Hconv & Hsame1 & Hc1 & ->).
  fold chunks in Hconv.
  destruct (synthesize_ok key model voice (length chunks) chunks bs 1 [] w1)
    as (w2 & Hloop & Hsame2 & Hc2).
  { destruct Hsame1 as (_&_&_&_&->&_). by rewrite Hc1, Hc0. }
  unfold bind at 1 in Hconv. rewrite Hloop in Hconv. cbn [app] in Hconv.
  destruct (convert_save output_file w2 (concat bs)) as (w' & r & wr & Hsave & Hfs & Hc3).
  { unfold can_write in *.
    destruct Hsame1 as (_&_&Hf1&Hce1&_&_), Hsame2 as (_&_&Hf2&Hce2&_&_).
    by rewrite Hf2, Hf1, Hce2, Hce1. }
  rewrite Hsave in Hconv.
  exists w'. unfold try_except. rewrite Hconv.
  split; [done|]. by rewrite Hc3, Hc2, Hc1, Hc0.
Qed.

(** C10, as the code has it.  A text that ends with [". "] has an empty
    last sentence; when the chunk accumulated before it is too full to
    take it ([len current_chunk + 1 > max_length]), [split_text] returns a
    list whose last element is the empty string, and there is such a text.
    That chunk does not reach the service through [main]: [main] splits
    the stripped text, whose last chunk is never empty, so the last
    request of a run that converts its text is for a chunk that is not
    empty.  The loop of [main] sends a request for every chunk it is
    given, the empty ones as the others, and an empty chunk does reach the
    service when it comes from an empty sentence inside the text, as in
    the run on [gap_text]. *)
Theorem split_text_trailing_empty_chunk :
  (forall (t : str) (max_length : Z) (chunks : list str) (current : str),
      fold_left (split_step max_length) (sentences_of t) ([], [])
      = (chunks, current) ->
      max_length < len current + 1 ->
      sentences_of (t ++ [DOT; SPACE]) = sentences_of t ++ [[]]
      /\ split_text (t ++ [DOT; SPACE]) max_length
         = chunks ++ [strip current; []]
      /\ last (split_text (t ++ [DOT; SPACE]) max_length) = Some [])
  /\ (exists (text : str) (max_length : Z),
        text <> [] /\ last (split_text text max_length) = Some [])
  /\ (forall (contents : str) (max_length : Z),
        strip contents <> [] ->
        exists chunks c,
          split_text (strip contents) max_length = chunks ++ [c] /\ c <> [])
  /\ (forall (w : World) (key input_file contents : str)
        (readable_by : bool) (data : bytes) (bs : list bytes),
        let voice := arg_or (argv w) 3 (of_string "alloy") in
        let model := arg_or (argv w) 4 (of_string "tts-1") in
        let output_file := output_file_of (argv w) in
        let chunks := split_text (strip contents) default_max_length in
        environ w !! KEY = Some key -> key <> [] ->
        argv w !! 1%nat = Some input_file ->
        voice ∈ valid_voices -> model ∈ valid_models ->
        fs w !! input_file = Some (File true readable_by data) ->
        read_text_mode w data = Some contents ->
        strip contents <> [] ->
        answers (replies w) (length (calls (trace w))) model voice chunks
        = map inr bs ->
        can_write w output_file ->
        exists w' c,
          text_to_speech_file.main w = (Ret tt, w')
          /\ last chunks = Some c
          /\ last (calls (trace w'))
             = Some (ACall key (AudioSpeechCreate model voice c))
          /\ c <> [])
  /\ (forall (client model voice : str) (num_chunks : nat) (i : Z)
        (chunks : list str) (bs : list bytes) (audio_data : bytes) (w : World),
        In [] chunks ->
        answers (replies w) (length (calls (trace w))) model voice chunks
        = map inr bs ->
        exists w',
          synthesize client model voice num_chunks i chunks audio_data w
          = (Ret (audio_data ++ concat bs), w')
          /\ calls (trace w')
             = calls (trace w) ++ speech_calls client model voice chunks
          /\ In (ACall client (AudioSpeechCreate model voice [])) (trace w'))
  /\ (let w := demo_world gap_text reply_ok in
      In [] (split_text (strip gap_text) default_max_length)
      /\ fst (text_to_speech_file.main w) = Ret tt
      /\ existsb is_empty_speech (trace (snd (text_to_speech_file.main w))) = true).
Proof.
  split.
  { intros t max_length chunks current Hfold Hfull.
    split; [apply sentences_of_snoc_delimiter|].
    rewrite (split_text_snoc_delimiter t max_length chunks current Hfold Hfull).
    split; [done|].
    change [strip current; []] with ([strip current] ++ [@nil char]).
    rewrite app_assoc. apply last_snoc. }
  split.
  { exists (of_string "Hello world. This is a test. "), 15.
    split; [discriminate | reflexivity]. }
  split; [apply split_text_last_chunk|].
  split.
  { intros w key input_file contents readable_by data bs voice model
      output_file chunks Hkey Hne Hinput Hvoice Hmodel Hfile Hdecode Htext
      Hans Hwrite.
    destruct (main_converts w key input_file contents readable_by data bs
                Hkey Hne Hinput Hvoice Hmodel Hfile Hdecode Htext Hans Hwrite)
      as (w' & Hrun & Hcalls).
    destruct (split_text_last_chunk contents default_max_length Htext)
      as (pre & c & Hsplit & Hc).
    exists w', c. split; [done|].
    fold voice model in Hcalls. fold chunks in Hsplit.
    change (split_text (strip contents) default_max_length) with chunks in Hcalls.
    rewrite Hcalls, Hsplit. split; [apply last_snoc|]. split; [|done].
    unfold speech_calls. rewrite map_app, app_assoc. apply last_snoc. }
  split.
  { intros client model voice num_chunks i chunks bs audio_data w Hin Hans.
    destruct (synthesize_ok client model voice num_chunks chunks bs i audio_data w Hans)
      as (w' & Hrun & _ & Hcalls).
    exists w'. split; [done|]. split; [done|].
    assert (Hc : In (ACall client (AudioSpeechCreate model voice []))
                   (calls (trace w'))).
    { rewrite Hcalls. apply in_or_app. right. unfold speech_calls.
      apply in_map_iff. by exists []. }
    unfold calls in Hc. by apply List.filter_In in Hc as [Hc _]. }
  intros w. split.
  { vm_compute. right. left. reflexivity. }
  split; vm_compute; reflexivity.
Qed.

Lemma split_text_trailing_empty_chunk_witness :
  let t := of_string "Hello world. This is a test" in
  sentences_of (t ++ [DOT; SPACE]) = sentences_of t ++ [[]]
  /\ split_text (t ++ [DOT; SPACE]) 15
     = [of_string "Hello world."] ++ [strip (of_string "This is a test. "); []]
  /\ last (split_text (t ++ [DOT; SPACE]) 15) = Some [].
Proof.
  intros t.
  apply (proj1 split_text_trailing_empty_chunk t 15
           [of_string "Hello world."] (of_string "This is a test. ")).
  - reflexivity.
  - vm_compute. reflexivity.
Defined.

(** C10, as stated, fails on a file that ends with [". "] after 4095
    letters: the chunker alone ends its list with the empty
    string for this text ([len current_chunk + 1 = 4098 > 4096]), and the
    run of [main] on the file sends one request, for the letters and their
    full stop, and none for an empty chunk. *)
Lemma trailing_empty_chunk_not_submitted :
  let contents := repeat 97%N 4095 ++ [DOT; SPACE] in
  let w := demo_world contents reply_ok in
  last (split_text contents default_max_length) = Some []
  /\ fst (text_to_speech_file.main w) = Ret tt
  /\ calls (trace (snd (text_to_speech_file.main w)))
     = [ACall (of_string "sk-demo")
          (AudioSpeechCreate (of_string "tts-1") (of_string "alloy")
             (repeat 97%N 4095 ++ [DOT]))]
  /\ existsb is_empty_speech (trace (snd (text_to_speech_file.main w))) = false.
Proof.
  intros contents w. repeat split; vm_compute; reflexivity.
Qed.

(** ** The key check *)

Section KeyCheck.

Context {A : Type}.

(** The shape every [main] starts with: with the key missing, what the
    check's branch does is all that happens after the lookup. *)
Lemma key_check_exits (report : M unit) (k : option str -> M A) (w w' : World) :
  key_missing (environ w !! KEY) = true ->
  report (log (AGetenv KEY) w) = (Exit 1, w') ->
  (api_key <- getenv KEY ;; when (key_missing api_key) report ;; k api_key) w
  = (Exit 1, w').
Proof.
  intros Hmiss Hrep. unfold bind at 1. cbn [getenv].
  rewrite Hmiss. unfold bind at 1. cbn [when]. by rewrite Hrep.
Qed.

End KeyCheck.

(** C8. In each of the eight scripts, when [OPENAI_API_KEY] is absent from
    the environment (or empty), [main] exits with status 1, and all the
    process did is look the variable up and print, first the line
    ["ERROR: OPENAI_API_KEY environment variable not set!"]: the command
    line was not read, no file was looked for or opened, no request was
    sent.  Hence whenever a run sends a request, the key is present. *)
Theorem missing_key_exits_first (turns : nat) (s : script) (w : World) :
  (key_missing (environ w !! KEY) = true ->
   exists w' tail,
     main_of turns s w = (Exit 1, w')
     /\ exit_status (fst (main_of turns s w)) = Some 1
     /\ same_world w w'
     /\ trace w' = trace w ++ AGetenv KEY :: tail
     /\ forallb is_print tail = true
     /\ head (stdout tail) = Some missing_key_error
     /\ is_error_line missing_key_error = true
     /\ calls (trace w') = calls (trace w))
  /\ (calls (trace (snd (main_of turns s w))) <> calls (trace w) ->
      exists api_key, environ w !! KEY = Some api_key /\ api_key <> []).
Proof.
  assert (Hfirst : key_missing (environ w !! KEY) = true ->
   exists w' tail,
     main_of turns s w = (Exit 1, w')
     /\ same_world w w'
     /\ trace w' = trace w ++ AGetenv KEY :: tail
     /\ forallb is_print tail = true
     /\ head (stdout tail) = Some missing_key_error).
  { intros Hmiss.
    destruct s; cbn [main_of];
      eexists _, _;
      (split;
       [ apply key_check_exits; [exact Hmiss|];
         rewrite ?bind_print; reflexivity |]);
      (split; [by repeat split|]);
      cbn [log trace]; rewrite <- ?app_assoc; cbn [app];
      (split; [reflexivity|]); split; reflexivity. }
  split.
  - intros Hmiss. destruct (Hfirst Hmiss) as (w' & tail & Hrun & Hsame & Htr & Hp & Hh).
    exists w', tail. rewrite Hrun.
    do 6 (split; [done|]). split; [done|].
    rewrite Htr, calls_app. simpl.
    assert (Hnone : calls tail = []).
    { clear -Hp. induction tail as [|a tail IH]; [done|].
      simpl in Hp. apply andb_true_iff in Hp as [Ha Ht].
      destruct a; try done. simpl. by apply IH. }
    by rewrite Hnone, app_nil_r.
  - intros Hcalls.
    destruct (key_missing (environ w !! KEY)) eqn:Hmiss.
    + destruct (Hfirst eq_refl) as (w' & tail & Hrun & _ & Htr & Hp & _).
      rewrite Hrun in Hcalls. cbn [snd] in Hcalls. exfalso. apply Hcalls.
      rewrite Htr, calls_app. simpl.
      assert (Hnone : calls tail = []).
      { clear -Hp. induction tail as [|a tail IH]; [done|].
        simpl in Hp. apply andb_true_iff in Hp as [Ha Ht].
        destruct a; try done. simpl. by apply IH. }
      by rewrite Hnone, app_nil_r.
    + destruct (environ w !! KEY) as [api_key|]; [|done].
      exists api_key. split; [done|]. by destruct api_key.
Qed.

Lemma missing_key_exits_first_witness :
  exists w' tail,
    main_of 0 TextToSpeechFile bare_world = (Exit 1, w')
    /\ exit_status (fst (main_of 0 TextToSpeechFile bare_world)) = Some 1
    /\ same_world bare_world w'
    /\ trace w' = trace bare_world ++ AGetenv KEY :: tail
    /\ forallb is_print tail = true
    /\ head (stdout tail) = Some missing_key_error
    /\ is_error_line missing_key_error = true
    /\ calls (trace w') = calls (trace bare_world).
Proof.
  apply (proj1 (missing_key_exits_first 0 TextToSpeechFile bare_world)).
  reflexivity.
Defined.

(** * Further properties of the chunker *)

Section MoreChunks.

Variable max_length : Z.

Lemma len_render_app (g h : list str) :
  len (render (g ++ h)) = len (render g) + len (render h).
Proof.
  unfold render. by rewrite map_app, concat_app, len_app.
Qed.

(** While everything fits, the grouping only extends the current group. *)
Lemma group_fold_fits (ss : list str) : forall groups current,
  len (render (current ++ ss)) <= max_length ->
  fold_left (group_step max_length) ss (groups, current)
  = (groups, current ++ ss).
Proof.
  induction ss as [|s ss IH]; intros groups current Hfit.
  - by rewrite app_nil_r.
  - cbn [fold_left]. unfold group_step at 2.
    assert (Hs : len (render current) + len s + 1 <= max_length).
    { change (s :: ss) with ([s] ++ ss) in Hfit.
      rewrite app_assoc, len_render_app, render_snoc, !len_app in Hfit.
      change (len [SPACE]) with 1 in Hfit.
      pose proof (len_nonneg (render ss)). lia. }
    destruct (Z.leb_spec (len (render current) + len s + 1) max_length); [|lia].
    rewrite IH; [by rewrite <- app_assoc|].
    by rewrite <- app_assoc.
Qed.

(** With no room at all, every sentence closes the group before it. *)
Lemma group_fold_no_room (ss : list str) : forall groups s,
  max_length <= 0 ->
  group_flush (fold_left (group_step max_length) ss (groups, [s]))
  = groups ++ [[s]] ++ map (fun x => [x]) ss.
Proof.
  induction ss as [|x ss IH]; intros groups s Hmax; [done|].
  cbn [fold_left]. unfold group_step at 2.
  pose proof (len_nonneg (render [s])). pose proof (len_nonneg x).
  destruct (Z.leb_spec (len (render [s]) + len x + 1) max_length); [lia|].
  rewrite IH by done. cbn [map]. by rewrite <- !app_assoc.
Qed.

End MoreChunks.

Lemma map_chunk_of_singletons (ss : list str) :
  Forall trimmed ss -> map chunk_of (map (fun x => [x]) ss) = ss.
Proof.
  induction 1 as [|s ss Hs _ IH]; [done|].
  cbn [map]. by rewrite chunk_of_one, IH.
Qed.

Lemma normalized_trimmed (raws : list str) : Forall trimmed (map normalize raws).
Proof.
  induction raws as [|r raws IH]; constructor; [apply normalize_trimmed | done].
Qed.

(** X1. When the sentences, each with its separating space, fit
    [max_length] together, [split_text] returns exactly one chunk: the
    sentences joined by single spaces (without the empty sentences at the
    two ends). *)
Theorem split_text_one_chunk (text : str) (max_length : Z) :
  len (render (map normalize (sentences_of text))) <= max_length ->
  split_text text max_length
  = [join [SPACE] (trim_empty (map normalize (sentences_of text)))].
Proof.
  intros Hfit. rewrite split_text_groups.
  set (ss := map normalize (sentences_of text)) in *.
  unfold groups_of. rewrite (group_fold_fits max_length ss [] []) by done.
  cbn [app group_flush].
  assert (Hne : ss <> []).
  { unfold ss. pose proof (sentences_of_nonempty text).
    by destruct (sentences_of text). }
  destruct ss as [|s ss'] eqn:E; [done|]. cbn [app map]. rewrite <- E.
  f_equal. apply chunk_of_join. unfold ss. apply normalized_trimmed.
Qed.

Lemma split_text_one_chunk_witness :
  split_text (of_string "One. Two. Three") 17
  = [join [SPACE]
       (trim_empty (map normalize (sentences_of (of_string "One. Two. Three"))))].
Proof.
  apply split_text_one_chunk. vm_compute. discriminate.
Defined.

(** X2. With [max_length <= 0] nothing ever fits, and [split_text] returns
    the normalized sentences, one chunk each. *)
Theorem split_text_no_room (text : str) (max_length : Z) :
  max_length <= 0 ->
  split_text text max_length = map normalize (sentences_of text).
Proof.
  intros Hmax. rewrite split_text_groups.
  pose proof (sentences_of_nonempty text) as Hne.
  destruct (sentences_of text) as [|r rs]; [done|]. cbn [map].
  unfold groups_of. cbn [fold_left]. unfold group_step at 2.
  pose proof (len_nonneg (normalize r)). change (len (render [])) with 0.
  destruct (Z.leb_spec (0 + len (normalize r) + 1) max_length); [lia|].
  rewrite group_fold_no_room by done. cbn [app].
  change ([normalize r] :: map (fun x => [x]) (map normalize rs))
    with (map (fun x => [x]) (map normalize (r :: rs))).
  apply map_chunk_of_singletons, (normalized_trimmed (r :: rs)).
Qed.

Lemma split_text_no_room_witness :
  split_text (of_string "One. Two. Three") 0
  = map normalize (sentences_of (of_string "One. Two. Three")).
Proof. apply split_text_no_room. lia. Defined.

Lemma split2_blank (s : str) :
  blank s = true -> split2 DOT SPACE s = [s].
Proof.
  induction s as [| x | x y s IH1 IH2] using str_ind2; [done | done |].
  intros Hb. rewrite split2_cons2.
  assert (Hx : (x =? DOT)%N = false).
  { simpl in Hb. apply andb_true_iff in Hb as [Hx _].
    destruct (N.eqb_spec x DOT) as [->|]; [done | done]. }
  rewrite Hx. cbn [andb].
  rewrite IH2; [done|]. simpl in Hb. by apply andb_true_iff in Hb as [_ Hb].
Qed.

Lemma blank_replace (s : str) : blank s = true -> blank (replace LF SPACE s) = true.
Proof.
  induction s as [|c s IH]; [done|]. simpl. intros Hb.
  apply andb_true_iff in Hb as [Hc Hs]. rewrite (IH Hs), andb_true_r.
  by destruct (c =? LF)%N.
Qed.

Lemma strip_blank (s : str) : blank s = true -> strip s = [].
Proof. intros Hb. unfold strip. by rewrite (lstrip_blank s Hb). Qed.

(** X3. A text of whitespace only, the empty text included, gives one
    chunk, the empty string, whatever [max_length] is. *)
Theorem split_text_blank (text : str) (max_length : Z) :
  blank text = true -> split_text text max_length = [[]].
Proof.
  intros Hb. unfold split_text, sentences_of.
  rewrite split2_blank by (by apply blank_replace).
  cbn [fold_left]. unfold split_step, normalize.
  rewrite strip_blank by (by apply blank_replace). cbn [truthy andb app].
  by destruct (len [] + len [] + 1 <=? max_length).
Qed.

Lemma split_text_blank_witness :
  split_text (of_string "  
 ") 4096 = [[]].
Proof. apply split_text_blank. reflexivity. Defined.

(** A string without the separator is one piece. *)
Lemma split2_no_separator (c1 c2 : char) (s : str) :
  (forall a b, s <> a ++ [c1; c2] ++ b) -> split2 c1 c2 s = [s].
Proof.
  induction s as [| x | x y s IH1 IH2] using str_ind2; intros Hno; [done | done |].
  rewrite split2_cons2.
  destruct ((x =? c1)%N && (y =? c2)%N) eqn:E.
  - apply andb_true_iff in E as [->%N.eqb_eq ->%N.eqb_eq].
    by destruct (Hno [] s).
  - rewrite IH2; [done|]. intros a b Hab. apply (Hno (x :: a) b).
    by rewrite Hab.
Qed.

Lemma strip_nil_blank (s : str) : strip s = [] -> blank s = true.
Proof.
  unfold strip. intros H. apply rstrip_nil_blank in H.
  apply lstrip_nil_blank. rewrite <- lstrip_idem. by apply lstrip_blank.
Qed.

Lemma blank_replace_eq (s : str) : blank (replace LF SPACE s) = blank s.
Proof.
  induction s as [|c s IH]; [done|].
  unfold blank, replace in *. cbn [map forallb]. rewrite IH.
  by destruct (N.eqb_spec c LF) as [->|].
Qed.

(** X4. A text in which, once its newlines are spaces, no full stop is
    followed by a space, gives exactly one chunk, whatever [max_length]
    is.  For a text that is not blank the chunk is the text with its
    newlines as spaces, stripped, which is not empty, and a full stop is
    appended to it unless it ends with one; for a blank text the chunk is
    the empty string. *)
Theorem split_text_no_delimiter_one_chunk (text : str) (max_length : Z) :
  (forall a b, replace LF SPACE text <> a ++ [DOT; SPACE] ++ b) ->
  let whole := strip (replace LF SPACE text) in
  (blank text = true -> split_text text max_length = [[]])
  /\ (blank text = false ->
      whole <> []
      /\ (last whole = Some DOT -> split_text text max_length = [whole])
      /\ (last whole <> Some DOT ->
          split_text text max_length = [whole ++ [DOT]])).
Proof.
  intros Hno whole.
  assert (Hone : split_text text max_length = [normalize (replace LF SPACE text)]).
  { unfold split_text, sentences_of.
    rewrite split2_no_separator by done.
    cbn [fold_left split_step].
    set (s := normalize (replace LF SPACE text)).
    assert (Hc : strip (s ++ [SPACE]) = s).
    { rewrite strip_app_blank by done.
      apply strip_of_trimmed, normalize_trimmed. }
    assert (Ht : truthy (s ++ [SPACE]) = true) by (by destruct s).
    destruct (len [] + len s + 1 <=? max_length);
      cbn [truthy split_flush app]; by rewrite Ht, Hc. }
  rewrite Hone.
  destruct (normalize_strip (replace LF SPACE text)) as (d & -> & Hd & Hiff).
  fold whole in Hiff |- *.
  split.
  - intros Hb. assert (Hw : whole = []).
    { apply strip_blank. by rewrite blank_replace_eq. }
    rewrite Hw in *. destruct Hd as [-> | ->]; [done|].
    by destruct (proj1 Hiff eq_refl) as [? _].
  - intros Hb. assert (Hw : whole <> []).
    { intros E. apply strip_nil_blank in E.
      rewrite blank_replace_eq in E. congruence. }
    split; [done|]. split.
    + intros Hl. destruct Hd as [-> | ->]; [by rewrite app_nil_r|].
      by destruct (proj1 Hiff eq_refl) as [_ ?].
    + intros Hl. destruct Hd as [-> | ->]; [|done].
      assert (Hdot : @nil char = [DOT]) by (by apply Hiff). done.
Qed.

Lemma split_text_no_delimiter_one_chunk_witness :
  let text := of_string " a.b c" in
  let whole := strip (replace LF SPACE text) in
  (blank text = true -> split_text text 2 = [[]])
  /\ (blank text = false ->
      whole <> []
      /\ (last whole = Some DOT -> split_text text 2 = [whole])
      /\ (last whole <> Some DOT -> split_text text 2 = [whole ++ [DOT]])).
Proof.
  intros text. apply split_text_no_delimiter_one_chunk.
  intros a b H.
  destruct a as [|? [|? [|? [|? [|? [|? a]]]]]]; simpl in H; try discriminate;
    destruct a; discriminate.
Defined.

Section JoinChunks.

Variable sep : str.

Lemma join_app (g h : list str) :
  g <> [] -> h <> [] -> join sep (g ++ h) = join sep g ++ sep ++ join sep h.
Proof.
  intros Hg Hh. induction g as [|a g IH]; [done|].
  destruct g as [|b g].
  - cbn [app]. by rewrite join_cons.
  - change ((a :: b :: g) ++ h) with (a :: ((b :: g) ++ h)).
    rewrite !join_cons by done. rewrite IH by done.
    by rewrite <- !app_assoc.
Qed.

Lemma concat_nonempty (groups : list (list str)) :
  groups <> [] -> Forall (fun g => g <> []) groups -> concat groups <> [].
Proof.
  intros Hne Hall. destruct groups as [|g groups]; [done|].
  inversion Hall as [|? ? Hg _]; subst. by destruct g.
Qed.

Lemma join_concat (groups : list (list str)) :
  Forall (fun g => g <> []) groups ->
  join sep (map (join sep) groups) = join sep (concat groups).
Proof.
  induction 1 as [|g groups Hg Hall IH]; [done|].
  destruct groups as [|h groups].
  - simpl. by rewrite app_nil_r.
  - cbn [map concat]. rewrite join_cons by done.
    change (join sep h :: map (join sep) groups)
      with (map (join sep) (h :: groups)).
    rewrite IH. symmetry. apply join_app; [done|].
    by apply concat_nonempty.
Qed.

End JoinChunks.

Lemma drop_empty_full (g : list str) :
  Forall (fun s => s <> []) g -> drop_empty g = g.
Proof. intros H. destruct H as [|s g Hs _]; [done|]. by destruct s. Qed.

Lemma trim_empty_full (g : list str) :
  Forall (fun s => s <> []) g -> trim_empty g = g.
Proof.
  intros H. unfold trim_empty. rewrite (drop_empty_full g H).
  rewrite drop_empty_full; [apply rev_involutive|].
  apply List.Forall_forall. intros s Hs. rewrite <- in_rev in Hs.
  rewrite List.Forall_forall in H. by apply H.
Qed.

Lemma length_concat_groups (groups : list (list str)) :
  Forall (fun g => g <> []) groups ->
  (length groups <= length (concat groups))%nat.
Proof.
  induction 1 as [|g groups Hg _ IH]; [done|].
  cbn [concat length]. rewrite length_app.
  destruct g; [done|]. simpl. lia.
Qed.

(** X5. When no sentence is empty, the chunks joined by single spaces are
    the normalized sentences joined by single spaces: the same text
    whatever [max_length] is. *)
Theorem split_text_join (text : str) (max_length : Z) :
  Forall (fun s => s <> []) (map normalize (sentences_of text)) ->
  join [SPACE] (split_text text max_length)
  = join [SPACE] (map normalize (sentences_of text)).
Proof.
  intros Hfull. rewrite split_text_groups.
  set (ss := map normalize (sentences_of text)) in *.
  pose proof (groups_of_concat max_length ss) as Hcat.
  pose proof (groups_of_closed max_length ss) as Hclosed.
  assert (Hne : Forall (fun g => g <> []) (groups_of max_length ss))
    by (eapply Forall_impl; [exact Hclosed | by intros g [Hg _]]).
  rewrite <- Hcat at 2. rewrite <- join_concat by done.
  f_equal. apply map_ext_in. intros g Hg.
  assert (Hgfull : Forall (fun s => s <> []) g).
  { apply List.Forall_forall. intros s Hs.
    rewrite List.Forall_forall in Hfull. apply Hfull.
    rewrite <- Hcat. by apply (in_concat_groups _ g). }
  rewrite chunk_of_join.
  - by rewrite trim_empty_full.
  - apply List.Forall_forall. intros s Hs.
    assert (Hin : In s ss)
      by (rewrite <- Hcat; by apply (in_concat_groups _ g)).
    apply in_map_iff in Hin as (raw & <- & _). apply normalize_trimmed.
Qed.

Lemma split_text_join_witness :
  join [SPACE] (split_text (of_string "One. Two. Three") 7)
  = join [SPACE] (map normalize (sentences_of (of_string "One. Two. Three"))).
Proof.
  apply split_text_join. vm_compute. repeat constructor; discriminate.
Defined.

(** X6. [split_text] returns at least one chunk and at most as many
    chunks as the text has sentences. *)
Theorem split_text_count (text : str) (max_length : Z) :
  (1 <= length (split_text text max_length) <= length (sentences_of text))%nat.
Proof.
  rewrite split_text_groups, length_map.
  set (ss := map normalize (sentences_of text)).
  pose proof (groups_of_concat max_length ss) as Hcat.
  pose proof (groups_of_closed max_length ss) as Hclosed.
  assert (Hne : Forall (fun g => g <> []) (groups_of max_length ss))
    by (eapply Forall_impl; [exact Hclosed | by intros g [Hg _]]).
  pose proof (length_concat_groups _ Hne) as Hlen.
  rewrite Hcat in Hlen. unfold ss in Hlen. rewrite length_map in Hlen.
  split; [|done].
  assert (Hss : ss <> []).
  { unfold ss. pose proof (sentences_of_nonempty text).
    by destruct (sentences_of text). }
  pose proof (groups_of_nonempty max_length ss Hss).
  destruct (groups_of max_length ss); [done | simpl; lia].
Qed.

(** * Further properties of [text_to_speech_file.py] *)

Section MoreSteps.

Context {A : Type}.

(** Past the key check when the key is there. *)
Lemma key_check_passes (report : M unit) (k : option str -> M A) (w : World) :
  key_missing (environ w !! KEY) = false ->
  (api_key <- getenv KEY ;; when (key_missing api_key) report ;; k api_key) w
  = k (environ w !! KEY) (log (AGetenv KEY) w).
Proof.
  intros Hkey. unfold bind at 1. cbn [getenv].
  rewrite Hkey. by unfold bind at 1.
Qed.

Lemma bind_sys_argv (k : list str -> M A) (w : World) :
  (a <- sys_argv ;; k a) w = k (argv w) (log AArgv w).
Proof. reflexivity. Qed.

Lemma bind_path_exists (path : str) (k : bool -> M A) (w : World) :
  (b <- path_exists path ;; k b) w
  = k (bool_decide (is_Some (fs w !! path))) (log (AExists path) w).
Proof. reflexivity. Qed.

Lemma bind_when_exit (m : M unit) (k : M A) (w w' : World) (c : Z) :
  m w = (Exit c, w') -> (when true m ;; k) w = (Exit c, w').
Proof. intros H. unfold bind. cbn [when]. by rewrite H. Qed.

End MoreSteps.

Lemma prints_run (ls : list line) (w : World) :
  exists w', prints ls w = (Ret tt, w')
             /\ same_world w w' /\ trace w' = trace w ++ map APrint ls.
Proof.
  revert w. induction ls as [|l ls IH]; intros w.
  - exists w. simpl. rewrite app_nil_r. split; [done|].
    split; [apply same_world_refl | done].
  - cbn [prints fold_right]. rewrite bind_print.
    destruct (IH (log (APrint l) w)) as (w' & Hrun & Hsame & Htr).
    exists w'. split; [exact Hrun|].
    split; [eapply same_world_trans; [apply same_world_log | done]|].
    rewrite Htr. cbn [log trace map]. by rewrite <- app_assoc.
Qed.

Lemma prints_exit {A} (ls : list line) (c : Z) (w : World) :
  exists w', (prints ls ;; @sys_exit A c) w = (Exit c, w')
             /\ same_world w w' /\ trace w' = trace w ++ map APrint ls.
Proof.
  destruct (prints_run ls w) as (w' & Hrun & Hsame & Htr).
  exists w'. unfold bind. by rewrite Hrun.
Qed.

Lemma key_present (key : str) : key <> [] -> key_missing (Some key) = false.
Proof. by destruct key. Qed.

(** With the key set and no argument on the command line, [main] prints
    its usage text and exits with status 1; it has looked at the
    environment and at the command line, and nothing else. *)
Lemma main_usage (w : World) (key : str) :
  environ w !! KEY = Some key -> key <> [] ->
  (length (argv w) < 2)%nat ->
  exists w',
    text_to_speech_file.main w = (Exit 1, w')
    /\ same_world w w'
    /\ trace w'
       = trace w ++ [AGetenv KEY; AArgv] ++ map APrint text_to_speech_file.usage.
Proof.
  intros Hkey Hne Hlen. unfold text_to_speech_file.main.
  rewrite key_check_passes by (rewrite Hkey; by apply key_present).
  rewrite bind_sys_argv. cbn [log argv].
  apply Nat.ltb_lt in Hlen. rewrite Hlen.
  destruct (@prints_exit unit text_to_speech_file.usage 1
              (log AArgv (log (AGetenv KEY) w)))
    as (w' & Hrun & Hsame & Htr).
  exists w'. split; [by apply bind_when_exit|].
  split.
  - eapply same_world_trans; [|exact Hsame]. by repeat split.
  - rewrite Htr. cbn [log trace]. by rewrite <- !app_assoc.
Qed.

Section MoreMain.

Variable w : World.
Variables key input_file : str.

Let voice := arg_or (argv w) 3 (of_string "alloy").
Let model := arg_or (argv w) 4 (of_string "tts-1").

Hypothesis Hkey : environ w !! KEY = Some key.
Hypothesis Hkey_ne : key <> [].
Hypothesis Hinput : argv w !! 1%nat = Some input_file.

(** The run up to the look for the input file. *)
Local Ltac to_exists :=
  unfold text_to_speech_file.main;
  rewrite key_check_passes by (rewrite Hkey; by apply key_present);
  cbv beta zeta; rewrite bind_sys_argv; cbv beta; cbn [log argv];
  rewrite (proj2 (Nat.ltb_ge (length (argv w)) 2))
    by (apply lookup_lt_Some in Hinput; lia);
  rewrite bind_when_false;
  replace (arg_or (argv w) 1 []) with input_file
    by (unfold arg_or; by rewrite Hinput);
  rewrite bind_path_exists; cbv beta.

(** With the key set, when the input file named on the command line does
    not exist, [main] prints an error that names it and exits with status
    1, without opening a file or sending a request. *)
Lemma main_input_not_found :
  fs w !! input_file = None ->
  exists w',
    text_to_speech_file.main w = (Exit 1, w')
    /\ same_world w w'
    /\ trace w'
       = trace w
         ++ [AGetenv KEY; AArgv; AExists input_file;
             APrint [T "ERROR: Input file '"; V input_file; T "' not found!"]].
Proof.
  intros Hnone. to_exists. cbn [log fs]. rewrite Hnone.
  rewrite bool_decide_eq_false_2 by (by intros [? ?]).
  cbn [negb]. eexists. split.
  - apply bind_when_exit. rewrite bind_print. reflexivity.
  - split; [by repeat split|].
    cbn [log trace]. by rewrite <- !app_assoc.
Qed.

(** With the key set and an input file that exists, a voice or a model
    outside the accepted names makes [main] print an error line and exit
    with status 1 before it opens the file or sends a request. *)
Lemma main_invalid_voice_or_model :
  is_Some (fs w !! input_file) ->
  voice ∉ valid_voices \/ model ∉ valid_models ->
  exists w' tail,
    text_to_speech_file.main w = (Exit 1, w')
    /\ same_world w w'
    /\ trace w' = trace w ++ [AGetenv KEY; AArgv; AExists input_file] ++ tail
    /\ forallb is_print tail = true
    /\ existsb is_error_line (stdout tail) = true.
Proof.
  intros Hfound Hbad. to_exists. cbn [log fs].
  rewrite (bool_decide_eq_true_2 _ Hfound). cbn [negb].
  rewrite bind_when_false. fold voice model.
  destruct (decide (voice ∈ valid_voices)) as [Hv|Hv].
  - destruct Hbad as [Hbad|Hm]; [done|].
    rewrite (bool_decide_eq_true_2 _ Hv). cbn [negb]. rewrite bind_when_false.
    rewrite (bool_decide_eq_false_2 _ Hm). cbn [negb].
    eexists _, _. split.
    + apply bind_when_exit. rewrite !bind_print. reflexivity.
    + split; [by repeat split|]. cbn [log trace].
      rewrite <- !app_assoc. cbn [app]. split; [reflexivity|].
      split; reflexivity.
  - rewrite (bool_decide_eq_false_2 _ Hv). cbn [negb].
    eexists _, _. split.
    + apply bind_when_exit. rewrite !bind_print. reflexivity.
    + split; [by repeat split|]. cbn [log trace].
      rewrite <- !app_assoc. cbn [app]. split; [reflexivity|].
      split; reflexivity.
Qed.

End MoreMain.

Section Failures.

Context {A : Type}.



End Failures.

Lemma calls_prints (tail : list action) :
  forallb is_print tail = true -> calls tail = [].
Proof.
  induction tail as [|a tail IH]; [done|]. simpl.
  intros [Ha Ht]%andb_true_iff. destruct a; try done. simpl. by apply IH.
Qed.

Section MoreMainRuns.

Variable w : World.
Variables key input_file contents : str.
Variable readable_by : bool.
Variable data : bytes.

Let voice := arg_or (argv w) 3 (of_string "alloy").
Let model := arg_or (argv w) 4 (of_string "tts-1").
Let output_file := output_file_of (argv w).
Let w0 := log (AExists input_file) (log AArgv (log (AGetenv KEY) w)).

Hypothesis Hkey : environ w !! KEY = Some key.
Hypothesis Hkey_ne : key <> [].
Hypothesis Hinput : argv w !! 1%nat = Some input_file.
Hypothesis Hvoice : voice ∈ valid_voices.
Hypothesis Hmodel : model ∈ valid_models.





End MoreMainRuns.




(** ** The name of the output file *)

Lemma startswith_app (a b : str) : startswith (a ++ b) a = true.
Proof.
  induction a as [|c a IH]; [by destruct b|]. simpl. by rewrite N.eqb_refl, IH.
Qed.

Lemma endswith_app (a suffix : str) : endswith (a ++ suffix) suffix = true.
Proof. unfold endswith. rewrite rev_app_distr. apply startswith_app. Qed.

(** The name [output_file_of] gives ends with one of [.mp3], [.opus],
    [.aac], [.flac]. *)
Lemma output_file_extension (argv : list str) :
  existsb (endswith (output_file_of argv)) audio_extensions = true
  /\ (forall name, argv !! 2%nat = Some name ->
        output_file_of argv
        = if existsb (endswith name) audio_extensions
          then name else name ++ of_string ".mp3")
  /\ (argv !! 2%nat = None ->
      output_file_of argv = of_string "speech_output.mp3").
Proof.
  split; [|split].
  - unfold output_file_of.
    destruct (existsb (endswith (arg_or argv 2 (of_string "speech_output.mp3")))
                audio_extensions) eqn:E; [done|].
    cbn [audio_extensions map existsb].
    by rewrite (endswith_app _ (of_string ".mp3")).
  - intros name Hname. unfold output_file_of, arg_or. by rewrite Hname.
  - intros Hnone. unfold output_file_of, arg_or. by rewrite Hnone.
Qed.

(** * What the scripts touch *)

Section Confinement.

Variables key input output : option str.

Lemma confined_same {A} (m : M A) :
  (forall w, snd (m w) = w) -> confined (allowed key input output) m.
Proof.
  intros H w. exists []. rewrite H, app_nil_r. by repeat split.
Qed.

Lemma confined_log {A} (m : M A) (a : action) :
  allowed key input output a -> (forall w, snd (m w) = log a w) -> confined (allowed key input output) m.
Proof.
  intros Ha H w. exists [a]. rewrite H. split; [done|].
  split; [by constructor | done].
Qed.

Lemma confined_ret {A} (a : A) : confined (allowed key input output) (ret a).
Proof. by apply confined_same. Qed.

Lemma confined_pure {A} (f : World -> A) : confined (allowed key input output) (fun w => (Ret (f w), w)).
Proof. by apply confined_same. Qed.

Lemma confined_raise {A} e : confined (allowed key input output) (@raise A e).
Proof. by apply confined_same. Qed.

Lemma confined_exit {A} c : confined (allowed key input output) (@sys_exit A c).
Proof. by apply confined_same. Qed.

Lemma confined_hang {A} : confined (allowed key input output) (@hang A).
Proof. by apply confined_same. Qed.

Lemma confined_item {A} (l : list A) i : confined (allowed key input output) (item l i).
Proof. apply confined_same. intros w. unfold item. by destruct (l !! i). Qed.

Lemma confined_numpy_call {A} (f : numpy -> option A) : confined (allowed key input output) (numpy_call f).
Proof.
  apply confined_same. intros w. unfold numpy_call. by destruct (f (np w)).
Qed.

Lemma confined_print l : confined (allowed key input output) (print l).
Proof. by apply (confined_log _ (APrint l)). Qed.

Lemma confined_sleep n : confined (allowed key input output) (sleep n).
Proof. by apply (confined_log _ (ASleep n)). Qed.

Lemma confined_argv : confined (allowed key input output) sys_argv.
Proof. by apply (confined_log _ AArgv). Qed.

Lemma confined_bind {A B} (m : M A) (k : A -> M B) :
  confined (allowed key input output) m -> (forall a, confined (allowed key input output) (k a)) -> confined (allowed key input output) (bind m k).
Proof.
  intros Hm Hk w. destruct (Hm w) as (t1 & Ht1 & HP1 & Hf1).
  unfold confined_at, bind. destruct (m w) as [[a|e|c|] w1]; cbn [snd] in *;
    try (by exists t1).
  destruct (Hk a w1) as (t2 & Ht2 & HP2 & Hf2).
  exists (t1 ++ t2). split; [by rewrite Ht2, Ht1, app_assoc|].
  split; [by apply Forall_app|].
  intros q Hq.
  assert (H1 : ~ In (AOpenWrite q) t1)
    by (intros Hin; apply Hq, in_or_app; by left).
  assert (H2 : ~ In (AOpenWrite q) t2)
    by (intros Hin; apply Hq, in_or_app; by right).
  by rewrite Hf2, Hf1.
Qed.

Lemma confined_try {A} (body : M A) (handler : exn -> M A) :
  confined (allowed key input output) body -> (forall e, confined (allowed key input output) (handler e)) ->
  confined (allowed key input output) (try_except body handler).
Proof.
  intros Hb Hh w. destruct (Hb w) as (t1 & Ht1 & HP1 & Hf1).
  unfold confined_at, try_except.
  destruct (body w) as [[a|e|c|] w1]; cbn [snd] in *; try (by exists t1).
  destruct (Hh e w1) as (t2 & Ht2 & HP2 & Hf2).
  exists (t1 ++ t2). split; [by rewrite Ht2, Ht1, app_assoc|].
  split; [by apply Forall_app|].
  intros q Hq.
  assert (H1 : ~ In (AOpenWrite q) t1)
    by (intros Hin; apply Hq, in_or_app; by left).
  assert (H2 : ~ In (AOpenWrite q) t2)
    by (intros Hin; apply Hq, in_or_app; by right).
  by rewrite Hf2, Hf1.
Qed.

Lemma confined_when b m : confined (allowed key input output) m -> confined (allowed key input output) (when b m).
Proof. intros Hm. destruct b; [done | apply confined_ret]. Qed.

Lemma confined_prints ls : confined (allowed key input output) (prints ls).
Proof.
  induction ls as [|l ls IH]; cbn [prints fold_right];
    [apply confined_ret|].
  apply confined_bind; [apply confined_print | by intros _].
Qed.

Lemma confined_for_each {A} (f : A -> M unit) (l : list A) :
  (forall a, confined (allowed key input output) (f a)) ->
  confined (allowed key input output) (check_fine_tune_status.for_each f l).
Proof.
  intros Hf. induction l as [|a l IH]; cbn [check_fine_tune_status.for_each];
    [apply confined_ret|].
  apply confined_bind; [apply Hf | by intros _].
Qed.

End Confinement.

Section ConfinedKey.

Variable client : str.
Variables input output : option str.

Lemma confined_getenv : confined (allowed (Some client) input output) (getenv KEY).
Proof. by apply (confined_log _ _ _ _ (AGetenv KEY)). Qed.

Lemma confined_call {A} (req : request A) : confined (allowed (Some client) input output) (call client req).
Proof.
  apply (confined_log _ _ _ _ (ACall client req)); [done|].
  intros w. unfold call. by destruct (replies w _ _ _).
Qed.

End ConfinedKey.

Section ConfinedInput.

Variable path : str.
Variables key output : option str.

Lemma confined_exists : confined (allowed key (Some path) output) (path_exists path).
Proof. by apply (confined_log _ _ _ _ (AExists path)). Qed.

Lemma confined_read_bytes : confined (allowed key (Some path) output) (read_bytes path).
Proof.
  apply (confined_log _ _ _ _ (AOpenRead path)); [done|].
  intros w. unfold read_bytes. cbn [log fs].
  by destruct (fs w !! path) as [[|[] ? ?]|].
Qed.

Lemma confined_read_text : confined (allowed key (Some path) output) (read_text path).
Proof.
  apply confined_bind; [apply confined_read_bytes|]. intros data.
  apply confined_same. intros w. by destruct (read_text_mode w data).
Qed.

End ConfinedInput.

Section ConfinedOutput.

Variable path : str.
Variables key input : option str.

Lemma confined_write_file data : confined (allowed key input (Some path)) (write_file path data).
Proof.
  intros w. exists [AOpenWrite path].
  assert (Hq : forall q, ~ In (AOpenWrite q) [AOpenWrite path] -> path <> q).
  { intros q Hq ->. apply Hq. by left. }
  unfold write_file. cbn [log fs create_error].
  destruct (fs w !! path) as [[|readable [] old]|]; cbn [snd log set_fs trace fs];
    try (by repeat split; try constructor).
  - split; [done|]. split; [by constructor|].
    intros q Hne. apply lookup_insert_ne. by apply Hq.
  - destruct (create_error w path); cbn [snd log set_fs trace fs];
      [by repeat split; try constructor|].
    split; [done|]. split; [by constructor|].
    intros q Hne. apply lookup_insert_ne. by apply Hq.
Qed.

Lemma confined_write_json value : confined (allowed key input (Some path)) (write_json path value).
Proof. intros w. apply confined_write_file. Qed.

Lemma confined_stat_size : confined (allowed key input (Some path)) (stat_size path).
Proof.
  apply (confined_log _ _ _ _ (AStat path)); [done|].
  intros w. unfold stat_size. cbn [log fs].
  by destruct (fs w !! path) as [[|? ? ?]|].
Qed.

End ConfinedOutput.

(** Steps through a computation, one construct at a time. *)
Ltac confine_step :=
  first
    [ progress cbv beta zeta
    | assumption
    | lazymatch goal with
      | |- confined _ (bind _ _) => apply confined_bind; [|intros ?]
      | |- confined _ (try_except _ _) => apply confined_try; [|intros ?]
      | |- confined _ (when _ _) => apply confined_when
      | |- confined _ (print _) => apply confined_print
      | |- confined _ (prints _) => apply confined_prints
      | |- confined _ (sys_exit _) => apply confined_exit
      | |- confined _ (ret _) => apply confined_ret
      | |- confined _ (getenv _) => apply confined_getenv
      | |- confined _ sys_argv => apply confined_argv
      | |- confined _ (path_exists _) => apply confined_exists
      | |- confined _ (sleep _) => apply confined_sleep
      | |- confined _ (call _ _) => apply confined_call
      | |- confined _ (item _ _) => apply confined_item
      | |- confined _ (read_text _) => apply confined_read_text
      | |- confined _ (read_bytes _) => apply confined_read_bytes
      | |- confined _ (write_json _ _) => apply confined_write_json
      | |- confined _ (write_file _ _) => apply confined_write_file
      | |- confined _ (stat_size _) => apply confined_stat_size
      | |- confined _ (numpy_call _) => apply confined_numpy_call
      | |- confined _ (raise _) => apply confined_raise
      | |- confined _ hang => apply confined_hang
      | |- confined _ (fun w => (Ret _, w)) => apply confined_pure
      | |- confined _ (if ?b then _ else _) => destruct b
      | |- confined _ (match ?x with _ => _ end) => destruct x
      end ].

Ltac confine := repeat confine_step.

Section ConfinedLoops.

Variable client : str.
Variables input output : option str.

Lemma confined_synthesize model voice n chunks : forall i audio_data,
  confined (allowed (Some client) input output) (synthesize client model voice n i chunks audio_data).
Proof.
  induction chunks as [|chunk rest IH]; intros i audio_data; cbn [synthesize];
    confine. apply IH.
Qed.

Lemma confined_wait_processed turns id :
  confined (allowed (Some client) input output) (fine_tune.wait_processed turns client id).
Proof.
  induction turns as [|turns IH]; cbn [fine_tune.wait_processed];
    unfold fine_tune.check_file_status; confine.
Qed.

Lemma confined_embed turns model texts :
  forall i all_embeddings total_tokens,
    confined (allowed (Some client) input output)
      (batch_embeddings.embed turns client model texts i all_embeddings
         total_tokens).
Proof.
  induction turns as [|turns IH]; intros i all_embeddings total_tokens;
    cbn [batch_embeddings.embed]; unfold batch_embeddings.entries; confine.
  apply IH.
Qed.

End ConfinedLoops.

(** A run from a world reached by actions within the bounds. *)
Lemma confined_prefix (P : action -> Prop) {A} (m : M A) (w w1 : World)
    (pre : list action) :
  trace w1 = trace w ++ pre -> fs w1 = fs w -> Forall P pre ->
  confined P m ->
  exists tail,
    trace (snd (m w1)) = trace w ++ tail
    /\ Forall P tail
    /\ (forall q, ~ In (AOpenWrite q) tail -> fs (snd (m w1)) !! q = fs w !! q).
Proof.
  intros Htr Hfs Hpre Hm. destruct (Hm w1) as (tail & Ht & HP & Hf).
  exists (pre ++ tail). split; [by rewrite Ht, Htr, app_assoc|].
  split; [by apply Forall_app|].
  intros q Hq. rewrite Hf, Hfs; [done|]. intros Hin. apply Hq, in_or_app.
  by right.
Qed.

(** With the key missing, a script looks the variable up and prints. *)
Lemma key_missing_run (turns : nat) (s : script) (w : World) :
  key_missing (environ w !! KEY) = true ->
  exists w' tail,
    main_of turns s w = (Exit 1, w')
    /\ same_world w w'
    /\ trace w' = trace w ++ AGetenv KEY :: tail
    /\ forallb is_print tail = true.
Proof.
  intros Hmiss.
  destruct s; cbn [main_of];
    eexists _, _;
    (split;
     [ apply key_check_exits; [exact Hmiss|];
       rewrite ?bind_print; reflexivity |]);
    (split; [by repeat split|]);
    cbn [log trace]; rewrite <- ?app_assoc; cbn [app];
    (split; reflexivity).
Qed.

Lemma allowed_prints (key input output : option str) (tail : list action) :
  forallb is_print tail = true -> Forall (allowed key input output) tail.
Proof.
  induction tail as [|a tail IH]; [constructor|].
  cbn [forallb]. intros [Ha Ht]%andb_true_iff.
  constructor; [by destruct a | by apply IH].
Qed.

Lemma not_written_prints (tail : list action) (q : str) :
  forallb is_print tail = true -> ~ In (AOpenWrite q) tail.
Proof.
  intros Hp Hin. apply (proj1 (forallb_forall _ _) Hp) in Hin. done.
Qed.

(** The run of each script within its bounds. *)
Lemma main_confined (turns : nat) (s : script) (w : World) :
  exists tail,
    trace (snd (main_of turns s w)) = trace w ++ tail
    /\ Forall (allowed (environ w !! KEY) (input_of s (argv w))
                 (output_of s (argv w))) tail
    /\ (forall q, ~ In (AOpenWrite q) tail ->
          fs (snd (main_of turns s w)) !! q = fs w !! q).
Proof.
  destruct (key_missing (environ w !! KEY)) eqn:Hmiss.
  { destruct (key_missing_run turns s w Hmiss) as (w' & tail & -> & Hsame & Htr & Hp).
    exists (AGetenv KEY :: tail). cbn [snd]. split; [done|].
    split; [constructor; [done | by apply allowed_prints]|].
    intros q _. by destruct Hsame as (_&_&->&_). }
  destruct (environ w !! KEY) as [key|] eqn:Hkey; [|done].
  destruct s; cbn [main_of input_of output_of].
  - unfold chat_gpt.main.
    rewrite key_check_passes by (by rewrite Hkey).
    rewrite Hkey. change (key_value (Some key)) with key.
    apply (confined_prefix _ _ w _ [AGetenv KEY]);
      [done | done | by repeat constructor |].
    unfold chat_gpt.handler. confine.
  - unfold check_fine_tune_status.main.
    rewrite key_check_passes by (by rewrite Hkey).
    rewrite Hkey, bind_sys_argv. cbn [log argv].
    change (key_value (Some key)) with key.
    apply (confined_prefix _ _ w _ [AGetenv KEY; AArgv]);
      [by cbn [log trace]; rewrite <- app_assoc | done
      | by repeat constructor |].
    confine.
    + apply confined_for_each. intros j.
      unfold check_fine_tune_status.print_job. confine.
    + unfold check_fine_tune_status.print_state. confine.
    + apply confined_for_each. intros ev. confine.
  - unfold text_to_speech_file.main.
    rewrite key_check_passes by (by rewrite Hkey).
    rewrite Hkey, bind_sys_argv. cbn [log argv].
    change (key_value (Some key)) with key.
    apply (confined_prefix _ _ w _ [AGetenv KEY; AArgv]);
      [by cbn [log trace]; rewrite <- app_assoc | done
      | by repeat constructor |].
    unfold output_file_of, convert, handler. confine.
    apply confined_synthesize.
  - unfold text_to_speech.main.
    rewrite key_check_passes by (by rewrite Hkey).
    rewrite Hkey, bind_sys_argv. cbn [log argv].
    change (key_value (Some key)) with key.
    apply (confined_prefix _ _ w _ [AGetenv KEY; AArgv]);
      [by cbn [log trace]; rewrite <- app_assoc | done
      | by repeat constructor |].
    unfold speech_file_of, text_to_speech.handler. confine.
  - unfold use_fine_tuned_model.main.
    rewrite key_check_passes by (by rewrite Hkey).
    rewrite Hkey, bind_sys_argv. cbn [log argv].
    change (key_value (Some key)) with key.
    apply (confined_prefix _ _ w _ [AGetenv KEY; AArgv]);
      [by cbn [log trace]; rewrite <- app_assoc | done
      | by repeat constructor |].
    unfold use_fine_tuned_model.handler. confine.
  - unfold fine_tune.main.
    rewrite key_check_passes by (by rewrite Hkey).
    rewrite Hkey. change (key_value (Some key)) with key.
    apply (confined_prefix _ _ w _ [AGetenv KEY]);
      [done | done | by repeat constructor |].
    unfold fine_tune.handler. confine.
    apply confined_wait_processed.
  - unfold batch_embeddings.main.
    rewrite key_check_passes by (by rewrite Hkey).
    rewrite Hkey, bind_sys_argv. cbn [log argv].
    change (key_value (Some key)) with key.
    apply (confined_prefix _ _ w _ [AGetenv KEY; AArgv]);
      [by cbn [log trace]; rewrite <- app_assoc | done
      | by repeat constructor |].
    unfold batch_embeddings.handler. confine.
    apply confined_embed.
  - unfold text_embeddings.main.
    rewrite key_check_passes by (by rewrite Hkey).
    rewrite Hkey, bind_sys_argv. cbn [log argv].
    change (key_value (Some key)) with key.
    apply (confined_prefix _ _ w _ [AGetenv KEY; AArgv]);
      [by cbn [log trace]; rewrite <- app_assoc | done
      | by repeat constructor |].
    unfold text_embeddings.handler, text_embeddings.compare,
      text_embeddings.embed_one, text_embeddings.cosine_similarity.
    confine.
Qed.

(** * [chat_gpt.py] and [text_to_speech.py] *)

Lemma bind_call {A B} (key : str) (req : request A) (k : A -> M B) (w : World) :
  (x <- call key req ;; k x) w
  = match replies w (length (calls (trace w))) A req with
    | inl e => (Raise e, log (ACall key req) w)
    | inr a => k a (log (ACall key req) w)
    end.
Proof.
  unfold bind at 1, call. by destruct (replies w _ _ _).
Qed.

Lemma bind_item {A B} (l : list A) (i : nat) (k : A -> M B) (w : World) :
  (x <- item l i ;; k x) w
  = match l !! i with
    | Some x => k x w
    | None => (Raise (OtherException (of_string "IndexError")), w)
    end.
Proof. unfold bind at 1, item. by destruct (l !! i). Qed.

Lemma calls_log_call {A} (key : str) (req : request A) (w : World) :
  calls (trace (log (ACall key req) w)) = calls (trace w) ++ [ACall key req].
Proof. cbn [log trace]. by rewrite calls_app. Qed.



Lemma calls_log_print (l : line) (w : World) :
  calls (trace (log (APrint l) w)) = calls (trace w).
Proof. cbn [log trace]. rewrite calls_app. simpl. by rewrite app_nil_r. Qed.

Lemma chat_gpt_reports : reports chat_gpt.handler.
Proof.
  intros e w.
  destruct e; unfold chat_gpt.handler; rewrite !bind_print; unfold sys_exit;
    eexists _, _; (split; [reflexivity|]); (split; [by repeat split|]);
    cbn [log trace]; rewrite <- ?app_assoc; cbn [app];
    (split; [reflexivity|]); split; reflexivity.
Qed.


Lemma reports_calls handler e w :
  reports handler ->
  exists w', handler e w = (Exit 1, w')
             /\ same_world w w' /\ calls (trace w') = calls (trace w).
Proof.
  intros Hrep. destruct (Hrep e w) as (tail & w' & Hh & Hsame & Htr & Hp & _).
  exists w'. split; [done|]. split; [done|].
  by rewrite Htr, calls_app, (calls_prints tail Hp), app_nil_r.
Qed.

(** The run of [chat_gpt.py] with the key set. *)
Lemma chat_gpt_one_request (w : World) (key : str) :
  environ w !! KEY = Some key -> key <> [] ->
  let reply := replies w (length (calls (trace w))) _ chat_request in
  exists o w',
    chat_gpt.main w = (o, w')
    /\ same_world w w'
    /\ calls (trace w') = calls (trace w) ++ [ACall key chat_request]
    /\ o = match reply with
           | inr response =>
               match choices response with
               | [] => Exit 1
               | _ :: _ => Ret tt
               end
           | inl _ => Exit 1
           end.
Proof.
  intros Hkey Hne reply. unfold chat_gpt.main.
  rewrite key_check_passes by (rewrite Hkey; by apply key_present).
  cbv beta zeta. rewrite Hkey. change (key_value (Some key)) with key.
  rewrite bind_print.
  unfold try_except. rewrite bind_call. cbn [log trace replies].
  rewrite !calls_app. simpl (calls [_]). simpl (calls [_; _]).
  rewrite !app_nil_r. fold chat_request. fold reply.
  set (w1 := log (ACall key chat_request) _).
  assert (Hc1 : calls (trace w1) = calls (trace w) ++ [ACall key chat_request]).
  { unfold w1. rewrite calls_log_call. cbn [log trace].
    rewrite !calls_app. simpl. by rewrite !app_nil_r. }
  assert (Hs1 : same_world w w1) by (by repeat split).
  destruct reply as [e|response].
  - destruct (reports_calls chat_gpt.handler e w1 chat_gpt_reports)
      as (w' & Hh & Hsame & Hc).
    exists (Exit 1), w'. split; [exact Hh|].
    split; [by eapply same_world_trans|]. split; [by rewrite Hc|done].
  - rewrite bind_item. destruct (choices response) as [|c cs].
    + change (@nil str !! 0%nat) with (@None str). cbv beta iota.
      destruct (reports_calls chat_gpt.handler
                  (OtherException (of_string "IndexError")) w1 chat_gpt_reports)
        as (w' & Hh & Hsame & Hc).
      exists (Exit 1), w'. split; [exact Hh|].
      split; [by eapply same_world_trans|]. split; [by rewrite Hc|done].
    + change ((c :: cs) !! 0%nat) with (Some c). cbv beta iota.
      rewrite !bind_print. eexists _, _. split; [reflexivity|].
      split; [eapply same_world_trans; [exact Hs1|]; by repeat split|].
      split; [|reflexivity].
      rewrite !calls_log_print. exact Hc1.
Qed.



(** * [batch_embeddings.py]: the batches *)

Lemma batch_inputs_app (tr tr' : list action) :
  batch_inputs (tr ++ tr') = batch_inputs tr ++ batch_inputs tr'.
Proof. apply omap_app. Qed.

Lemma batch_count (n : nat) :
  (1 <= n)%nat -> (S ((n - 100 + 99) / 100) = (n + 99) / 100)%nat.
Proof.
  intros Hn. destruct (le_lt_dec n 100) as [Hle|Hgt].
  - replace (n - 100 + 99)%nat with 99%nat by lia.
    replace (n + 99)%nat with ((n - 1) + 1 * 100)%nat by lia.
    rewrite Nat.div_add by lia. rewrite !Nat.div_small by lia. done.
  - replace (n + 99)%nat with ((n - 100 + 99) + 1 * 100)%nat by lia.
    rewrite Nat.div_add by lia. lia.
Qed.

Section Batches.

Variables client model : str.
Variable texts : list str.

Lemma embed_run (turns : nat) : forall i all_embeddings total_tokens w,
  (length texts - i <= turns)%nat ->
  embeds_batches w model ->
  exists result w' batches,
    batch_embeddings.embed turns client model texts i all_embeddings
      total_tokens w = (Ret result, w')
    /\ same_world w w'
    /\ batch_inputs (trace w') = batch_inputs (trace w) ++ batches
    /\ concat batches = drop i texts
    /\ Forall (fun b => b <> [] /\ (length b <= 100)%nat) batches
    /\ length batches = ((length texts - i + 99) / 100)%nat
    /\ length (fst result)
       = (length all_embeddings + (length texts - i))%nat.
Proof.
  induction turns as [|turns IH];
    intros i all_embeddings total_tokens w Hturns Hservice.
  - exists (all_embeddings, total_tokens), w, []. cbn [batch_embeddings.embed].
    split; [done|]. split; [apply same_world_refl|].
    split; [by rewrite app_nil_r|].
    split; [by rewrite drop_ge by lia|]. split; [done|].
    replace (length texts - i)%nat with 0%nat by lia.
    split; [done | by rewrite Nat.add_0_r].
  - cbn [batch_embeddings.embed].
    destruct (Nat.leb_spec (length texts) i) as [Hdone|Hmore].
    + exists (all_embeddings, total_tokens), w, [].
      split; [done|]. split; [apply same_world_refl|].
      split; [by rewrite app_nil_r|].
      split; [by rewrite drop_ge by lia|]. split; [done|].
      replace (length texts - i)%nat with 0%nat by lia.
      split; [done | by rewrite Nat.add_0_r].
    + set (batch := take batch_embeddings.batch_size (drop i texts)).
      assert (Hlen : length batch = (100 `min` (length texts - i))%nat).
      { unfold batch, batch_embeddings.batch_size.
        by rewrite length_take, length_drop. }
      assert (Hbatch : batch <> []).
      { intros E. rewrite E in Hlen. cbn [length] in Hlen. lia. }
      rewrite bind_print, bind_call. cbn [log replies].
      destruct (Hservice (length (calls (trace (log (APrint
                   [T "  Processing batch ";
                    I (Z.of_nat (i / batch_embeddings.batch_size + 1));
                    T "/";
                    I (Z.of_nat ((length texts - 1)
                                 / batch_embeddings.batch_size + 1));
                    T "..."]) w)))) batch Hbatch)
        as (response & Hreply & Hsize).
      rewrite Hreply.
      unfold bind at 1, batch_embeddings.entries.
      rewrite (proj2 (Nat.ltb_ge (length batch) (length (emb_data response))))
        by lia.
      cbn [raise ret].
      match goal with
      | |- context [batch_embeddings.embed turns client model texts ?j ?acc ?tot ?v] =>
          destruct (IH j acc tot v) as (result & w' & batches & Hrun & Hsame
                                        & Hin & Hcat & Hall & Hcount & Hres)
      end.
      { unfold batch_embeddings.batch_size. lia. }
      { intros n b. apply Hservice. }
      exists result, w', (batch :: batches). split; [exact Hrun|].
      split; [eapply same_world_trans; [|exact Hsame]; by repeat split|].
      split.
      { rewrite Hin. cbn [log trace]. rewrite !batch_inputs_app.
        cbn [batch_inputs omap]. by rewrite app_nil_r, <- app_assoc. }
      split.
      { cbn [concat]. rewrite Hcat. unfold batch.
        rewrite <- drop_drop. apply take_drop. }
      split.
      { constructor; [|done]. split; [done | lia]. }
      split.
      { cbn [length]. rewrite Hcount. unfold batch_embeddings.batch_size.
        replace (length texts - (i + 100))%nat
          with (length texts - i - 100)%nat by lia.
        apply batch_count. lia. }
      rewrite Hres, length_app, length_zip, length_imap, length_zip, Hsize.
      unfold batch_embeddings.batch_size. lia.
Qed.

(** X17. The loop of [batch_embeddings.py], with a service that answers
    every batch with one vector per text, sends the texts in order, in
    batches of at most 100 that are never empty: the batches put end to
    end are the texts, there are [ceil(len(texts) / 100)] requests, and
    the loop returns one entry per text. *)
Theorem embed_batches (w : World) :
  embeds_batches w model ->
  exists result w' batches,
    batch_embeddings.embed (length texts) client model texts 0 [] 0 w
    = (Ret result, w')
    /\ same_world w w'
    /\ batch_inputs (trace w') = batch_inputs (trace w) ++ batches
    /\ concat batches = texts
    /\ Forall (fun b => b <> [] /\ (length b <= 100)%nat) batches
    /\ length batches = ((length texts + 99) / 100)%nat
    /\ length (fst result) = length texts.
Proof.
  intros Hservice.
  destruct (embed_run (length texts) 0 [] 0 w) as
    (result & w' & batches & Hrun & Hsame & Hin & Hcat & Hall & Hcount & Hres);
    [lia | done |].
  exists result, w', batches. rewrite Nat.sub_0_r in Hcount, Hres.
  by rewrite drop_0 in Hcat.
Qed.

End Batches.

(** 250 texts go out in three batches. *)
Lemma embed_batches_witness :
  let texts := repeat (of_string "text") 250 in
  exists result w' batches,
    batch_embeddings.embed (length texts) (of_string "sk-demo")
      (of_string "text-embedding-3-small") texts 0 [] 0 embedding_world
    = (Ret result, w')
    /\ same_world embedding_world w'
    /\ batch_inputs (trace w') = batch_inputs (trace embedding_world) ++ batches
    /\ concat batches = texts
    /\ Forall (fun b => b <> [] /\ (length b <= 100)%nat) batches
    /\ length batches = 3%nat
    /\ length (fst result) = 250%nat.
Proof.
  intros texts.
  apply (embed_batches (of_string "sk-demo")
           (of_string "text-embedding-3-small") texts embedding_world).
  intros n batch _. eexists. split; [reflexivity|]. apply length_map.
Defined.

(** * [fine_tune.py] *)

Lemma fine_tune_reports : reports fine_tune.handler.
Proof.
  intros e w.
  destruct e; unfold fine_tune.handler; rewrite !bind_print; unfold sys_exit;
    eexists _, _; (split; [reflexivity|]); (split; [by repeat split|]);
    cbn [log trace]; rewrite <- ?app_assoc; cbn [app];
    (split; [reflexivity|]); split; reflexivity.
Qed.

(** The run of [fine_tune.py] with the key set, when
    [training_data.jsonl] does not exist. *)
Lemma fine_tune_no_training_file (turns : nat) (w : World) (key : str) :
  environ w !! KEY = Some key -> key <> [] ->
  fs w !! of_string "training_data.jsonl" = None ->
  exists w' tail,
    fine_tune.main turns w = (Exit 1, w')
    /\ same_world w w'
    /\ trace w'
       = trace w
         ++ [AGetenv KEY; AExists (of_string "training_data.jsonl")] ++ tail
    /\ forallb is_print tail = true
    /\ head (stdout tail)
       = Some [T "ERROR: Training file '";
               V (of_string "training_data.jsonl"); T "' not found!"].
Proof.
  intros Hkey Hne Hnone. unfold fine_tune.main.
  rewrite key_check_passes by (rewrite Hkey; by apply key_present).
  cbv beta zeta. rewrite bind_path_exists. cbv beta. cbn [log fs].
  rewrite Hnone, bool_decide_eq_false_2 by (by intros [? ?]).
  cbn [negb]. eexists _, _. split.
  - apply bind_when_exit. rewrite !bind_print. reflexivity.
  - split; [by repeat split|]. cbn [log trace].
    rewrite <- !app_assoc. cbn [app]. split; [reflexivity|].
    split; reflexivity.
Qed.

Lemma sleeps_app (tr tr' : list action) : sleeps (tr ++ tr') = sleeps tr ++ sleeps tr'.
Proof. apply List.filter_app. Qed.

Section Polling.

Variables client id : str.

(** X19. The polling loop of [fine_tune.py]: when the service gives [n]
    times a status other than ["processed"] and ["error"], then one of
    these two, the loop, allowed more than [n] turns, has sent [n + 1]
    requests for the file and paused [n] times for 2 seconds; it returns on
    ["processed"] and exits with status 1 on ["error"]. *)
Theorem wait_processed_polls (n : nat) : forall (turns : nat) (w : World) (final : str),
  (n < turns)%nat ->
  (forall j, (j < n)%nat ->
     exists status,
       retrieve_status w (length (calls (trace w)) + j) id = Some status
       /\ status <> PROCESSED /\ status <> ERROR) ->
  retrieve_status w (length (calls (trace w)) + n) id = Some final ->
  final = PROCESSED \/ final = ERROR ->
  exists w',
    fine_tune.wait_processed turns client id w
    = (if bool_decide (final = PROCESSED) then Ret tt else Exit 1, w')
    /\ same_world w w'
    /\ calls (trace w')
       = calls (trace w) ++ repeat (ACall client (FilesRetrieve id)) (S n)
    /\ sleeps (trace w') = sleeps (trace w) ++ repeat (ASleep 2) n.
Proof.
  induction n as [|n IH]; intros turns w final Hturns Hpending Hfinal Hlast.
  - destruct turns as [|turns]; [lia|]. cbn [fine_tune.wait_processed].
    unfold fine_tune.check_file_status.
    unfold bind at 1. unfold bind at 1. unfold call.
    unfold retrieve_status in Hfinal. rewrite Nat.add_0_r in Hfinal.
    destruct (replies w (length (calls (trace w))) file_object (FilesRetrieve id))
      as [e|file_info]; [done|].
    injection Hfinal as Hfinal. cbn [ret]. rewrite Hfinal.
    destruct Hlast as [->| ->].
    + rewrite !bool_decide_eq_true_2 by done.
      eexists. split; [reflexivity|]. split; [by repeat split|].
      cbn [print log trace]. rewrite !calls_app, !sleeps_app. simpl.
      by rewrite !app_nil_r.
    + rewrite (bool_decide_eq_false_2 (ERROR = PROCESSED)) by done.
      rewrite bool_decide_eq_true_2 by done. rewrite bind_print.
      eexists. split; [reflexivity|]. split; [by repeat split|].
      cbn [log trace]. rewrite !calls_app, !sleeps_app. simpl.
      by rewrite !app_nil_r.
  - destruct turns as [|turns]; [lia|]. cbn [fine_tune.wait_processed].
    unfold fine_tune.check_file_status.
    unfold bind at 1. unfold bind at 1. unfold call.
    destruct (Hpending 0%nat ltac:(lia)) as (status & Hstatus & Hnp & Hne).
    unfold retrieve_status in Hstatus. rewrite Nat.add_0_r in Hstatus.
    destruct (replies w (length (calls (trace w))) file_object (FilesRetrieve id))
      as [e|file_info] eqn:Hreply; [done|].
    injection Hstatus as Hstatus. cbn [ret]. rewrite Hstatus.
    rewrite !bool_decide_eq_false_2 by done.
    rewrite bind_print. unfold bind at 1. cbn [sleep].
    set (w1 := log (ASleep 2) _).
    assert (Hc1 : calls (trace w1)
                  = calls (trace w) ++ [ACall client (FilesRetrieve id)]).
    { unfold w1. cbn [log trace]. rewrite !calls_app. simpl.
      by rewrite !app_nil_r. }
    assert (Hn1 : length (calls (trace w1)) = S (length (calls (trace w)))).
    { rewrite Hc1, length_app. simpl. lia. }
    destruct (IH turns w1 final) as (w' & Hrun & Hsame & Hc & Hs).
    + lia.
    + intros j Hj. destruct (Hpending (S j) ltac:(lia)) as (s & Hs & Hs1 & Hs2).
      exists s. split; [|done]. rewrite Hn1.
      unfold retrieve_status in *. cbn [replies log] .
      replace (S (length (calls (trace w))) + j)%nat
        with (length (calls (trace w)) + S j)%nat by lia.
      exact Hs.
    + rewrite Hn1. unfold retrieve_status in *.
      replace (S (length (calls (trace w))) + n)%nat
        with (length (calls (trace w)) + S n)%nat by lia.
      exact Hfinal.
    + done.
    + exists w'. split; [exact Hrun|].
      split; [eapply same_world_trans; [|exact Hsame]; by repeat split|].
      split.
      * rewrite Hc, Hc1, <- app_assoc. done.
      * rewrite Hs. unfold w1. cbn [log trace]. rewrite !sleeps_app. simpl.
        rewrite !app_nil_r, <- app_assoc. done.
Qed.

End Polling.

Lemma wait_processed_polls_witness :
  exists w',
    fine_tune.wait_processed 5 (of_string "sk-demo") (of_string "file-1")
      polling_world
    = (if bool_decide (PROCESSED = PROCESSED) then Ret tt else Exit 1, w')
    /\ same_world polling_world w'
    /\ calls (trace w')
       = calls (trace polling_world)
         ++ repeat (ACall (of_string "sk-demo")
                      (FilesRetrieve (of_string "file-1"))) 3
    /\ sleeps (trace w') = sleeps (trace polling_world) ++ repeat (ASleep 2) 2.
Proof.
  apply (wait_processed_polls (of_string "sk-demo") (of_string "file-1") 2 5
           polling_world PROCESSED).
  - lia.
  - intros j Hj. exists (of_string "uploaded").
    destruct j as [|[|j]]; [| |lia]; (split; [reflexivity|]); split; discriminate.
  - reflexivity.
  - by left.
Defined.

(** * [text_embeddings.py]: the place of [--save] *)

Lemma save_is_no_model : of_string "--save" ∉ text_embeddings.valid_models.
Proof.
  intros H. vm_compute in H.
  repeat (apply elem_of_cons in H as [H|H]; [discriminate|]).
  by apply elem_of_nil in H.
Qed.

(** The run of [text_embeddings.py] with the key set on a command line
    [<text> --save ...]. *)
Lemma text_embeddings_save_needs_model (w : World) (key prog text : str)
    (rest : list str) :
  environ w !! KEY = Some key -> key <> [] ->
  argv w = prog :: text :: of_string "--save" :: rest ->
  text <> of_string "--compare" ->
  exists w' tail,
    text_embeddings.main w = (Exit 1, w')
    /\ same_world w w'
    /\ trace w' = trace w ++ [AGetenv KEY; AArgv] ++ tail
    /\ forallb is_print tail = true
    /\ head (stdout tail)
       = Some [T "ERROR: Invalid model '"; V (of_string "--save"); T "'"].
Proof.
  intros Hkey Hne Hargv Htext. unfold text_embeddings.main.
  rewrite key_check_passes by (rewrite Hkey; by apply key_present).
  cbv beta zeta. rewrite bind_sys_argv. cbv beta. cbn [log argv].
  rewrite Hargv.
  change (length (prog :: text :: of_string "--save" :: rest) <? 2)%nat
    with false.
  rewrite bind_when_false.
  change (arg_or (prog :: text :: of_string "--save" :: rest) 1 []) with text.
  rewrite (bool_decide_eq_false_2 _ Htext). cbn [andb].
  rewrite bind_when_false.
  change (arg_or (prog :: text :: of_string "--save" :: rest) 2
            text_embeddings.default_model) with (of_string "--save").
  rewrite (bool_decide_eq_false_2 _ save_is_no_model). cbn [negb].
  eexists _, _. split.
  - apply bind_when_exit. rewrite !bind_print. reflexivity.
  - split; [by repeat split|]. cbn [log trace].
    rewrite <- !app_assoc. cbn [app]. split; [reflexivity|].
    split; reflexivity.
Qed.

(** * What the scripts never do *)

Lemma passive_prints (tail : list action) :
  forallb is_print tail = true -> forallb is_passive tail = true.
Proof.
  induction tail as [|a tail IH]; [done|]. cbn [forallb].
  intros [Ha Ht]%andb_true_iff. rewrite (IH Ht), andb_true_r. by destruct a.
Qed.

Lemma passive_usage (ls : list line) : forallb is_passive (map APrint ls) = true.
Proof. induction ls as [|l ls IH]; [done|]. exact IH. Qed.

(** An action among those a run added is not passive: the run did not add
    passive actions only. *)
Lemma added_not_passive (w w' : World) (tail tail' : list action) (a : action) :
  trace w' = trace w ++ tail -> In a tail -> is_passive a = false ->
  trace w' = trace w ++ tail' -> forallb is_passive tail' = true -> False.
Proof.
  intros Htr Hin Ha Htr' Hp. rewrite Htr in Htr'.
  apply app_inv_head in Htr' as <-.
  apply (proj1 (forallb_forall _ _) Hp) in Hin. congruence.
Qed.

(** X7. [text_to_speech_file.py] opens a file or sends a request only on
    valid arguments: when a run of [main] does anything but look at the
    environment, the command line and the existence of a file, and print,
    then the key is set, the command line names an input file that
    exists, and the voice and the model are among the accepted ones. *)
Theorem main_acts_on_valid_arguments (w : World) (tail : list action)
    (a : action) :
  trace (snd (text_to_speech_file.main w)) = trace w ++ tail ->
  In a tail -> is_passive a = false ->
  exists key input_file,
    environ w !! KEY = Some key /\ key <> []
    /\ argv w !! 1%nat = Some input_file
    /\ is_Some (fs w !! input_file)
    /\ arg_or (argv w) 3 (of_string "alloy") ∈ valid_voices
    /\ arg_or (argv w) 4 (of_string "tts-1") ∈ valid_models.
Proof.
  intros Htr Hin Ha.
  pose proof (fun tail' =>
                added_not_passive w (snd (text_to_speech_file.main w)) tail
                  tail' a Htr Hin Ha) as Hno.
  destruct (key_missing (environ w !! KEY)) eqn:Hmiss.
  { exfalso.
    destruct (key_missing_run 0 TextToSpeechFile w Hmiss)
      as (w' & t & Hrun & _ & Ht & Hp).
    cbn [main_of] in Hrun. apply (Hno (AGetenv KEY :: t)); [by rewrite Hrun|].
    cbn [forallb is_passive]. by apply passive_prints. }
  destruct (environ w !! KEY) as [key|] eqn:Hkey; [|done].
  assert (Hne : key <> []) by (by destruct key).
  destruct (argv w !! 1%nat) as [input_file|] eqn:Hinput.
  2: { exfalso. apply lookup_ge_None in Hinput.
       destruct (main_usage w key Hkey Hne) as (w' & Hrun & _ & Ht); [lia|].
       apply (Hno ([AGetenv KEY; AArgv] ++ map APrint text_to_speech_file.usage));
         [by rewrite Hrun|].
       cbn [app forallb is_passive]. apply passive_usage. }
  destruct (fs w !! input_file) as [node|] eqn:Hfile.
  2: { exfalso.
       destruct (main_input_not_found w key input_file Hkey Hne Hinput Hfile)
         as (w' & Hrun & _ & Ht).
       eapply Hno; [by rewrite Hrun|]. reflexivity. }
  destruct (decide (arg_or (argv w) 3 (of_string "alloy") ∈ valid_voices))
    as [Hvoice|Hvoice];
    [destruct (decide (arg_or (argv w) 4 (of_string "tts-1") ∈ valid_models))
      as [Hmodel|Hmodel]|].
  - exists key, input_file. by rewrite Hfile.
  - exfalso.
    destruct (main_invalid_voice_or_model w key input_file Hkey Hne Hinput)
      as (w' & t & Hrun & _ & Ht & Hp & _); [by rewrite Hfile | by right |].
    apply (Hno ([AGetenv KEY; AArgv; AExists input_file] ++ t));
      [by rewrite Hrun|].
    cbn [app forallb is_passive]. by apply passive_prints.
  - exfalso.
    destruct (main_invalid_voice_or_model w key input_file Hkey Hne Hinput)
      as (w' & t & Hrun & _ & Ht & Hp & _); [by rewrite Hfile | by left |].
    apply (Hno ([AGetenv KEY; AArgv; AExists input_file] ++ t));
      [by rewrite Hrun|].
    cbn [app forallb is_passive]. by apply passive_prints.
Qed.

Lemma main_acts_on_valid_arguments_witness :
  let w := demo_world (of_string "Good morning.") reply_ok in
  exists key input_file,
    environ w !! KEY = Some key /\ key <> []
    /\ argv w !! 1%nat = Some input_file
    /\ is_Some (fs w !! input_file)
    /\ arg_or (argv w) 3 (of_string "alloy") ∈ valid_voices
    /\ arg_or (argv w) 4 (of_string "tts-1") ∈ valid_models.
Proof.
  intros w.
  apply (main_acts_on_valid_arguments w
           (trace (snd (text_to_speech_file.main w)))
           (ACall (of_string "sk-demo")
              (AudioSpeechCreate (of_string "tts-1") (of_string "alloy")
                 (of_string "Good morning.")))).
  - reflexivity.
  - vm_compute. repeat (first [left; reflexivity | right]).
  - reflexivity.
Defined.

(** The run of each script within its bounds, on the files. *)
Lemma main_within (turns : nat) (s : script) (w : World) :
  exists tail,
    trace (snd (main_of turns s w)) = trace w ++ tail
    /\ Forall (allowed (environ w !! KEY) (input_of s (argv w))
                 (output_of s (argv w))) tail
    /\ (forall q, output_of s (argv w) <> Some q ->
          fs (snd (main_of turns s w)) !! q = fs w !! q).
Proof.
  destruct (main_confined turns s w) as (tail & Htr & HP & Hfs).
  exists tail. split; [done|]. split; [done|].
  intros q Hq. apply Hfs. intros Hin.
  apply (proj1 (List.Forall_forall _ _) HP) in Hin. by apply Hq.
Qed.

(** X13. [text_to_speech_file.py] writes one file at most, and its name
    ends with one of [.mp3], [.opus], [.aac], [.flac]: a path at which a
    run of [main] changes the file system is the second argument of the
    command line ([speech_output.mp3] without one), kept when it ends with
    one of the four, with [.mp3] appended otherwise. *)
Theorem main_writes_only_output (w : World) (path : str) :
  fs (snd (text_to_speech_file.main w)) !! path <> fs w !! path ->
  let given := arg_or (argv w) 2 (of_string "speech_output.mp3") in
  (exists ext, In ext audio_extensions /\ endswith path ext = true)
  /\ (existsb (endswith given) audio_extensions = true -> path = given)
  /\ (existsb (endswith given) audio_extensions = false ->
      path = given ++ of_string ".mp3").
Proof.
  intros Hfs given.
  destruct (main_within 0 TextToSpeechFile w) as (tail & _ & _ & Hsame).
  cbn [main_of output_of] in Hsame.
  assert (Hpath : path = output_file_of (argv w)).
  { destruct (decide (Some (output_file_of (argv w)) = Some path)) as [E|E];
      [congruence|].
    by destruct (Hfs (Hsame path E)). }
  split.
  { destruct (output_file_extension (argv w)) as [Hext _].
    rewrite <- Hpath in Hext. by apply existsb_exists in Hext. }
  rewrite Hpath. unfold output_file_of. fold given.
  split; intros ->; done.
Qed.

Lemma main_writes_only_output_witness :
  let w := demo_world (of_string "Good morning.") reply_ok in
  let path := of_string "speech_output.mp3" in
  let given := arg_or (argv w) 2 (of_string "speech_output.mp3") in
  (exists ext, In ext audio_extensions /\ endswith path ext = true)
  /\ (existsb (endswith given) audio_extensions = true -> path = given)
  /\ (existsb (endswith given) audio_extensions = false ->
      path = given ++ of_string ".mp3").
Proof.
  intros w path.
  apply (main_writes_only_output w path).
  vm_compute. discriminate.
Defined.


(** X15. With the key set, a run of [chat_gpt.py] sends one request at
    most, the chat completion with its fixed model and message, under
    that key, and leaves the file system as it was; when the service
    raises, or answers without a choice, [main] does not return. *)
Theorem chat_gpt_at_most_one_request (w : World) (key : str) :
  environ w !! KEY = Some key -> key <> [] ->
  let reply := replies w (length (calls (trace w))) _ chat_request in
  exists cs,
    calls (trace (snd (chat_gpt.main w))) = calls (trace w) ++ cs
    /\ (length cs <= 1)%nat
    /\ Forall (fun a => a = ACall key chat_request) cs
    /\ fs (snd (chat_gpt.main w)) = fs w
    /\ (match reply with
        | inl _ => True
        | inr response => choices response = []
        end -> fst (chat_gpt.main w) <> Ret tt).
Proof.
  intros Hkey Hne reply.
  destruct (chat_gpt_one_request w key Hkey Hne) as (o & w' & Hrun & Hsame & Hc & Ho).
  fold reply in Ho. rewrite Hrun. cbn [fst snd].
  exists [ACall key chat_request]. split; [done|]. split; [done|].
  split; [by repeat constructor|]. split; [by destruct Hsame as (_&_&->&_)|].
  intros Hbad. rewrite Ho. destruct reply as [e|response]; [done|].
  by rewrite Hbad.
Qed.

Lemma chat_gpt_at_most_one_request_witness :
  let w := chat_world in
  let key := of_string "sk-demo" in
  exists cs,
    calls (trace (snd (chat_gpt.main w))) = calls (trace w) ++ cs
    /\ (length cs <= 1)%nat
    /\ Forall (fun a => a = ACall key chat_request) cs
    /\ fs (snd (chat_gpt.main w)) = fs w
    /\ (match replies w (length (calls (trace w))) _ chat_request with
        | inl _ => True
        | inr response => choices response = []
        end -> fst (chat_gpt.main w) <> Ret tt).
Proof.
  intros w key. apply (chat_gpt_at_most_one_request w key).
  - reflexivity.
  - discriminate.
Defined.

(** X18. [fine_tune.py] opens a file or sends a request only when the key
    is set and [training_data.jsonl] exists: a run that does anything but
    look at the environment and for the file, and print, had both. *)
Theorem fine_tune_acts_on_training_file (turns : nat) (w : World)
    (tail : list action) (a : action) :
  trace (snd (fine_tune.main turns w)) = trace w ++ tail ->
  In a tail -> is_passive a = false ->
  (exists key, environ w !! KEY = Some key /\ key <> [])
  /\ is_Some (fs w !! of_string "training_data.jsonl").
Proof.
  intros Htr Hin Ha.
  pose proof (fun tail' =>
                added_not_passive w (snd (fine_tune.main turns w)) tail
                  tail' a Htr Hin Ha) as Hno.
  destruct (key_missing (environ w !! KEY)) eqn:Hmiss.
  { exfalso.
    destruct (key_missing_run turns FineTune w Hmiss)
      as (w' & t & Hrun & _ & Ht & Hp).
    cbn [main_of] in Hrun. apply (Hno (AGetenv KEY :: t)); [by rewrite Hrun|].
    cbn [forallb is_passive]. by apply passive_prints. }
  destruct (environ w !! KEY) as [key|] eqn:Hkey; [|done].
  assert (Hne : key <> []) by (by destruct key).
  split; [by exists key|].
  destruct (fs w !! of_string "training_data.jsonl") as [node|] eqn:Hfile;
    [done|].
  exfalso.
  destruct (fine_tune_no_training_file turns w key Hkey Hne Hfile)
    as (w' & t & Hrun & _ & Ht & Hp & _).
  apply (Hno ([AGetenv KEY; AExists (of_string "training_data.jsonl")] ++ t));
    [by rewrite Hrun|].
  cbn [app forallb is_passive]. by apply passive_prints.
Qed.

Lemma fine_tune_acts_on_training_file_witness :
  (exists key, environ training_world !! KEY = Some key /\ key <> [])
  /\ is_Some (fs training_world !! of_string "training_data.jsonl").
Proof.
  apply (fine_tune_acts_on_training_file 1 training_world
           (trace (snd (fine_tune.main 1 training_world)))
           (AOpenRead (of_string "training_data.jsonl"))).
  - reflexivity.
  - vm_compute. repeat (first [left; reflexivity | right]).
  - reflexivity.
Defined.

(** X20. In [text_embeddings.py] the second argument is the model, so a
    command line [<text> --save ...] (the text not being [--compare]) has
    [--save] taken for the model, which it is not: the run only looks at
    the environment and the command line and prints, sends no request,
    leaves the file system as it was, and does not return from [main]. *)
Theorem text_embeddings_save_is_not_a_model (w : World) (prog text : str)
    (rest : list str) (tail : list action) :
  argv w = prog :: text :: of_string "--save" :: rest ->
  text <> of_string "--compare" ->
  trace (snd (text_embeddings.main w)) = trace w ++ tail ->
  forallb is_passive tail = true
  /\ calls (trace (snd (text_embeddings.main w))) = calls (trace w)
  /\ fs (snd (text_embeddings.main w)) = fs w
  /\ fst (text_embeddings.main w) <> Ret tt.
Proof.
  intros Hargv Htext Htr.
  assert (Hrun : exists w' t,
             text_embeddings.main w = (Exit 1, w')
             /\ same_world w w' /\ trace w' = trace w ++ t
             /\ forallb is_passive t = true).
  { destruct (key_missing (environ w !! KEY)) eqn:Hmiss.
    - destruct (key_missing_run 0 TextEmbeddings w Hmiss)
        as (w' & t & Hrun & Hsame & Ht & Hp).
      exists w', (AGetenv KEY :: t). do 3 (split; [done|]).
      cbn [forallb is_passive]. by apply passive_prints.
    - destruct (environ w !! KEY) as [key|] eqn:Hkey; [|done].
      assert (Hne : key <> []) by (by destruct key).
      destruct (text_embeddings_save_needs_model w key prog text rest
                  Hkey Hne Hargv Htext) as (w' & t & Hrun & Hsame & Ht & Hp & _).
      exists w', ([AGetenv KEY; AArgv] ++ t). do 3 (split; [done|]).
      cbn [app forallb is_passive]. by apply passive_prints. }
  destruct Hrun as (w' & t & Hrun & Hsame & Ht & Hp).
  rewrite Hrun in *. cbn [fst snd] in *.
  rewrite Ht in Htr. apply app_inv_head in Htr as <-.
  split; [done|]. split.
  { rewrite Ht, calls_app.
    assert (Hnone : calls t = []).
    { clear -Hp. induction t as [|a t IH]; [done|]. cbn [forallb] in Hp.
      apply andb_true_iff in Hp as [Ha Hp]. destruct a; try done; by apply IH. }
    by rewrite Hnone, app_nil_r. }
  split; [by destruct Hsame as (_&_&->&_) | done].
Qed.

Lemma text_embeddings_save_is_not_a_model_witness :
  let w := run_world ["text_embeddings.py"; "hello"; "--save"; "out.json"]
             ∅ None reply_ok in
  forallb is_passive (trace (snd (text_embeddings.main w))) = true
  /\ calls (trace (snd (text_embeddings.main w))) = calls (trace w)
  /\ fs (snd (text_embeddings.main w)) = fs w
  /\ fst (text_embeddings.main w) <> Ret tt.
Proof.
  intros w.
  apply (text_embeddings_save_is_not_a_model w
           (of_string "text_embeddings.py") (of_string "hello")
           [of_string "out.json"]).
  - reflexivity.
  - discriminate.
  - reflexivity.
Defined.
